(** * go-verlib: versions, constraints and contradiction detection

    A shallow embedding of the Go package [verlib] (version.go, parser.go,
    constraint.go, contradiction.go) together with the properties its
    specification states about it.

    Conventions of the embedding:
    - [uint64] is a [Z] in the range [0, 2^64); every arithmetic operation
      of the source that can overflow is written with its wrap-around
      ([U64.wrap]).
    - a Go [string] is a [string] (a sequence of bytes); [==] is [String.eqb]
      and [<] is [String.ltb], the bytewise lexicographic order.
    - a value of type [*uint64] is an [option] of a location in a store
      (module [Ptr]); [nil] is [None].  The value-level model used by the
      comparison and constraint algebra reads the pointees out of the store
      ([read]) and is related to the pointer-level one by the lemmas on
      [returnsCopy].
    - a run-time panic (nil dereference) is [None]; a returned Go [error] is
      the [Err] constructor of [result].  The errors of the constraint
      parsers and of the strict rendering of constraints are the
      constructors of [constraintError], returned by [Failed]; there a
      panic of the [Must] functions is [None], and an explicit [panic(...)]
      inside a parser is the error [ErrConstraintPanic]. *)

From Stdlib Require Import ZArith String Ascii List Bool Lia.
From stdpp Require Import gmap.
Import ListNotations.
Open Scope string_scope.
Open Scope Z_scope.

(** ** Unsigned 64-bit integers *)

Module U64.

Definition modulus : Z := 2 ^ 64.
Definition maxVal : Z := modulus - 1.

Definition wrap (z : Z) : Z := z mod modulus.

Definition inRange (z : Z) : Prop := 0 <= z < modulus.

(** [x + 1] on [uint64]; also [x++]. *)
Definition succ (x : Z) : Z := wrap (x + 1).

End U64.

(** ** version.go at the level of pointers

    [Version] holds [minor] and [patch] as [*uint64].  The store maps the
    locations allocated so far to their contents; [new] picks a location
    that is not in the store. *)

Module Ptr.

Abbreviation loc := positive.

Abbreviation heap := (gmap positive Z).

(** Computations that read and write the store and may panic. *)
Definition M (A : Type) : Type := heap -> option (A * heap).

Definition ret {A} (a : A) : M A := fun h => Some (a, h).

Definition bind {A B} (m : M A) (f : A -> M B) : M B :=
  fun h => match m h with
           | Some (a, h') => f a h'
           | None => None
           end.

Definition panic {A} : M A := fun _ => None.

Notation "'do' x <- m ; k" := (bind m (fun x => k))
  (at level 10, x name, m at level 100, k at level 200).
Notation "'exec' m ; k" := (bind m (fun _ => k))
  (at level 10, m at level 100, k at level 200).

(** [new(uint64)] followed by an initialising store, or [&x] of a local. *)
Definition new (x : Z) : M loc :=
  fun h => let l := fresh (dom h) in Some (l, <[l:=x]> h).

(** [*p] for a non-nil [p]. *)
Definition load (l : loc) : M Z :=
  fun h => match h !! l with
           | Some x => Some (x, h)
           | None => None
           end.

(** [*p = x] for a non-nil [p]. *)
Definition store (l : loc) (x : Z) : M unit :=
  fun h => match h !! l with
           | Some _ => Some (tt, <[l:=x]> h)
           | None => None
           end.

(** Dereferencing [nil] panics. *)
Definition nonnil (p : option loc) : M loc :=
  match p with
  | Some l => ret l
  | None => panic
  end.

Record Version : Type := mkVersion {
  major : Z;
  minor : option loc;
  patch : option loc;
  preRelease : string;
  buildMetadata : string
}.

Definition with_major (x : Z) (v : Version) : Version :=
  mkVersion x (minor v) (patch v) (preRelease v) (buildMetadata v).
Definition with_minor (p : option loc) (v : Version) : Version :=
  mkVersion (major v) p (patch v) (preRelease v) (buildMetadata v).
Definition with_patch (p : option loc) (v : Version) : Version :=
  mkVersion (major v) (minor v) p (preRelease v) (buildMetadata v).
Definition with_preRelease (s : string) (v : Version) : Version :=
  mkVersion (major v) (minor v) (patch v) s (buildMetadata v).
Definition with_buildMetadata (s : string) (v : Version) : Version :=
  mkVersion (major v) (minor v) (patch v) (preRelease v) s.

Definition NewVersion (major minor patch : Z) : M Version :=
  do pminor <- new minor;
  do ppatch <- new patch;
  ret (mkVersion major (Some pminor) (Some ppatch) "" "").

Definition NewPreReleaseVersion (major minor patch : Z) (preRelease : string)
  : M Version :=
  do pminor <- new minor;
  do ppatch <- new patch;
  ret (mkVersion major (Some pminor) (Some ppatch) preRelease "").

Definition Major (v : Version) : M Z := ret (major v).

Definition Minor (v : Version) : M Z :=
  match minor v with
  | None => ret 0
  | Some l => load l
  end.

Definition Patch (v : Version) : M Z :=
  match patch v with
  | None => ret 0
  | Some l => load l
  end.

Definition clonePtr (p : option loc) : M (option loc) :=
  match p with
  | Some l => do val <- load l; do l' <- new val; ret (Some l')
  | None => ret None
  end.

Definition clone (v : Version) : M Version :=
  do minor' <- clonePtr (minor v);
  do patch' <- clonePtr (patch v);
  ret (mkVersion (major v) minor' patch' (preRelease v) (buildMetadata v)).

Definition SetPreRelease (v : Version) (preRelease : string) : M Version :=
  do ver <- clone v;
  ret (with_preRelease preRelease ver).

Definition SetBuildMetadata (v : Version) (buildMetadata : string) : M Version :=
  do ver <- clone v;
  ret (with_buildMetadata buildMetadata ver).

Definition Increment (v : Version) : M Version :=
  do newVersion <- clone v;
  let newVersion := with_buildMetadata "" (with_preRelease "" newVersion) in
  match patch v with
  | Some vpatch =>
      do p <- new 0;
      do x <- load vpatch;
      exec store p (U64.succ x);
      ret (with_patch (Some p) newVersion)
  | None =>
      match minor v with
      | Some vminor =>
          do p <- new 0;
          do x <- load vminor;
          exec store p (U64.succ x);
          ret (with_minor (Some p) newVersion)
      | None =>
          ret (with_major (U64.succ (major newVersion)) newVersion)
      end
  end.

Definition IncrementMajor (v : Version) : M Version :=
  do pminor <- new 0;
  do ppatch <- new 0;
  ret (mkVersion (U64.succ (major v)) (Some pminor) (Some ppatch) "" "").

Definition IncrementMinor (v : Version) : M Version :=
  do newVersion <- clone v;
  let newVersion := with_preRelease "" newVersion in
  let newVersion := with_buildMetadata "" newVersion in
  do p <- new 0;
  let newVersion := with_patch (Some p) newVersion in
  do newVersion <-
    match minor newVersion with
    | None => do m <- new 0; ret (with_minor (Some m) newVersion)
    | Some _ => ret newVersion
    end;
  do m <- nonnil (minor newVersion);
  do x <- load m;
  exec store m (U64.succ x);
  ret newVersion.

Definition IncrementPatch (v : Version) : M Version :=
  do newVersion <- clone v;
  let newVersion := with_buildMetadata "" (with_preRelease "" newVersion) in
  do newVersion <-
    match minor newVersion with
    | None => do m <- new 0; ret (with_minor (Some m) newVersion)
    | Some _ => ret newVersion
    end;
  do newVersion <-
    match patch newVersion with
    | None => do p <- new 0; ret (with_patch (Some p) newVersion)
    | Some _ => ret newVersion
    end;
  do p <- nonnil (patch newVersion);
  do x <- load p;
  exec store p (U64.succ x);
  ret newVersion.

Definition IncrementPessimistic (v : Version) : M Version :=
  do newVersion <- clone v;
  let newVersion := with_preRelease "" newVersion in
  let newVersion := with_buildMetadata "" newVersion in
  match patch newVersion with
  | Some p =>
      exec store p 0;
      do m <- nonnil (minor newVersion);
      do x <- load m;
      exec store m (U64.succ x);
      ret newVersion
  | None =>
      match minor newVersion with
      | Some _ =>
          do m <- new 0;
          ret (with_major (U64.succ (major newVersion))
                 (with_minor (Some m) newVersion))
      | None =>
          ret (with_major (U64.succ (major newVersion)) newVersion)
      end
  end.

End Ptr.

(** ** version.go at the level of values

    A [Version] whose optional components have been read out of the store.
    The functions below are the ones of [Ptr] with every pointee replaced by
    its content; the lemmas of section [Frame] relate the two. *)

Record Version : Type := mkVersion {
  major : Z;
  minor : option Z;
  patch : option Z;
  preRelease : string;
  buildMetadata : string
}.

(** The content of a pointer-level version in a store; [None] when a
    pointer of the version is not allocated in the store. *)
Definition readPtr (h : Ptr.heap) (p : option Ptr.loc) : option (option Z) :=
  match p with
  | None => Some None
  | Some l => match h !! l with
              | Some x => Some (Some x)
              | None => None
              end
  end.

Definition read (h : Ptr.heap) (v : Ptr.Version) : option Version :=
  match readPtr h (Ptr.minor v), readPtr h (Ptr.patch v) with
  | Some mi, Some pa =>
      Some (mkVersion (Ptr.major v) mi pa (Ptr.preRelease v) (Ptr.buildMetadata v))
  | _, _ => None
  end.

Definition NewVersion (major minor patch : Z) : Version :=
  mkVersion major (Some minor) (Some patch) "" "".

Definition NewPreReleaseVersion (major minor patch : Z) (preRelease : string)
  : Version :=
  mkVersion major (Some minor) (Some patch) preRelease "".

Definition Major (v : Version) : Z := major v.

Definition Minor (v : Version) : Z :=
  match minor v with
  | None => 0
  | Some x => x
  end.

Definition Patch (v : Version) : Z :=
  match patch v with
  | None => 0
  | Some x => x
  end.

Definition PreRelease (v : Version) : string := preRelease v.

Definition BuildMetadata (v : Version) : string := buildMetadata v.

Definition clone (v : Version) : Version :=
  mkVersion (major v) (minor v) (patch v) (preRelease v) (buildMetadata v).

Definition SetPreRelease (v : Version) (preRelease : string) : Version :=
  let ver := clone v in
  mkVersion (major ver) (minor ver) (patch ver) preRelease (buildMetadata ver).

Definition SetBuildMetadata (v : Version) (buildMetadata : string) : Version :=
  let ver := clone v in
  mkVersion (major ver) (minor ver) (patch ver) (preRelease ver) buildMetadata.

(** [!=] on [uint64]. *)
Definition neq (x y : Z) : bool := negb (x =? y).

Definition Less (v other : Version) : bool :=
  if neq (Major v) (Major other) then Major v <? Major other
  else if neq (Minor v) (Minor other) then Minor v <? Minor other
  else if neq (Patch v) (Patch other) then Patch v <? Patch other
  else if (preRelease v =? "")%string && negb (preRelease other =? "")%string
  then false
  else if negb (preRelease v =? "")%string && (preRelease other =? "")%string
  then true
  else (preRelease v <? preRelease other)%string.

Definition Greater (v other : Version) : bool :=
  Less other v && negb (Less v other).

Definition Equal (v other : Version) : bool :=
  negb (Less v other) && negb (Less other v).

Definition GreaterEqual (v other : Version) : bool :=
  negb (Less v other).

Definition LessEqual (v other : Version) : bool :=
  negb (Greater v other).

Definition Increment (v : Version) : Version :=
  let newVersion := clone v in
  match patch v with
  | Some x =>
      mkVersion (major newVersion) (minor newVersion) (Some (U64.succ x)) "" ""
  | None =>
      match minor v with
      | Some x =>
          mkVersion (major newVersion) (Some (U64.succ x)) (patch newVersion) "" ""
      | None =>
          mkVersion (U64.succ (major newVersion)) (minor newVersion)
            (patch newVersion) "" ""
      end
  end.

Definition IncrementMajor (v : Version) : Version :=
  mkVersion (U64.succ (major v)) (Some 0) (Some 0) "" "".

Definition IncrementMinor (v : Version) : Version :=
  let newVersion := clone v in
  let minor' := match minor newVersion with
                | None => 0
                | Some x => x
                end in
  mkVersion (major newVersion) (Some (U64.succ minor')) (Some 0) "" "".

Definition IncrementPatch (v : Version) : Version :=
  let newVersion := clone v in
  let minor' := match minor newVersion with
                | None => Some 0
                | Some x => Some x
                end in
  let patch' := match patch newVersion with
                | None => 0
                | Some x => x
                end in
  mkVersion (major newVersion) minor' (Some (U64.succ patch')) "" "".

(** [None] is the panic of [*newVersion.minor++] on a nil [minor]. *)
Definition IncrementPessimistic (v : Version) : option Version :=
  let newVersion := clone v in
  match patch newVersion with
  | Some _ =>
      match minor newVersion with
      | Some x => Some (mkVersion (major newVersion) (Some (U64.succ x)) (Some 0) "" "")
      | None => None
      end
  | None =>
      match minor newVersion with
      | Some _ =>
          Some (mkVersion (U64.succ (major newVersion)) (Some 0) None "" "")
      | None =>
          Some (mkVersion (U64.succ (major newVersion)) None None "" "")
      end
  end.

(** The invariant of the data model: a present patch component comes with
    a present minor component. *)
Definition wellFormed (v : Version) : bool :=
  match patch v, minor v with
  | Some _, None => false
  | _, _ => true
  end.

(** ** Results of fallible functions *)

Inductive error : Type :=
| ErrNoMatch                    (* regex failed to match version *)
| ErrSyntax                     (* strconv: invalid syntax *)
| ErrRange                      (* strconv: value out of range *)
| ErrComponent (name : string) (cause : error)
                                (* failed to parse <name> version component *)
| ErrStrict (what : string) (cause : error)
                                (* <what> invalid for strict version *)
| ErrPanic (msg : string).      (* an explicit panic(...) of the source *)

Inductive result (A : Type) : Type :=
| Ok (a : A)
| Err (e : error).

Arguments Ok {A} a.
Arguments Err {A} e.

(** ** strconv.FormatUint and strconv.ParseUint in base 10

    The package [strconv] belongs to Go's standard library, not to the
    repository.  [FormatUint u 10] is the decimal numeral of [u];
    [ParseUint s 10 64] is written after the loop of the library, with its
    two overflow checks. *)

Module strconv.

Definition code (c : ascii) : Z := Z.of_N (N_of_ascii c).

Definition isDigit (c : ascii) : bool := (48 <=? code c) && (code c <=? 57).

Definition digitChar (d : Z) : ascii := ascii_of_N (Z.to_N (48 + d)).

(** The digits of [u] are produced from the least significant one and put
    in front of [acc]; twenty digits are enough for a [uint64]. *)
Fixpoint formatBits (fuel : nat) (u : Z) (acc : list ascii) : list ascii :=
  match fuel with
  | O => acc
  | S fuel' =>
      let acc' := digitChar (u mod 10) :: acc in
      if u <? 10 then acc' else formatBits fuel' (u / 10) acc'
  end.

Definition FormatUint (u : Z) : string :=
  string_of_list_ascii (formatBits 20 u []).

Definition cutoff : Z := U64.maxVal / 10 + 1.

(** One round of the loop of [ParseUint] over the bytes of its argument. *)
Definition parseStep (n : Z) (c : ascii) : result Z :=
  if negb (isDigit c) then Err ErrSyntax
  else
    let d := code c - 48 in
    if cutoff <=? n then Err ErrRange
    else
      let n := U64.wrap (n * 10) in
      let n1 := U64.wrap (n + d) in
      if (n1 <? n) || (U64.maxVal <? n1) then Err ErrRange
      else Ok n1.

Fixpoint parseLoop (s : list ascii) (n : Z) : result Z :=
  match s with
  | [] => Ok n
  | c :: s' =>
      match parseStep n c with
      | Ok n1 => parseLoop s' n1
      | Err e => Err e
      end
  end.

Definition ParseUint (s : string) : result Z :=
  if (s =? "")%string then Err ErrSyntax
  else parseLoop (list_ascii_of_string s) 0.

End strconv.

(** ** Regular expressions with submatches

    The package [regexp] belongs to Go's standard library, not to the
    repository.  This is the subset of its syntax that the patterns of
    parser.go use, and a backtracking matcher with the preferences the
    package documents (leftmost match; in [r1|r2], [r1] before [r2]; a
    greedy repetition prefers one more round, a lazy one prefers to stop).

    The patterns are matched byte by byte.  Every character class of
    parser.go is a set of ASCII characters or the complement of one, so a
    multi-byte rune is matched by a class exactly when each of its bytes
    is. *)

Module regexp.

Inductive regex : Type :=
| Empty                               (* the empty pattern *)
| Class (p : ascii -> bool)           (* one character of a class *)
| Cat (r1 r2 : regex)                 (* r1 r2 *)
| Alt (r1 r2 : regex)                 (* r1|r2 *)
| Star (greedy : bool) (r : regex)    (* r* and r*? *)
| Group (i : nat) (r : regex)         (* the i-th capturing group *)
| Bol                                 (* ^ (without flag m) *)
| Eol.                                (* $ (without flag m) *)

(** r? *)
Definition Opt (r : regex) : regex := Alt r Empty.
(** r+ *)
Definition Plus (r : regex) : regex := Cat r (Star true r).
Definition Chr (c : ascii) : regex := Class (Ascii.eqb c).

(** The text matched by each capturing group; a group that took no part
    in the match holds the empty text, as in the slice returned by
    [FindStringSubmatch]. *)
Definition captures : Type := nat -> list ascii.

Definition noCaptures : captures := fun _ => [].

Definition setCapture (i : nat) (x : list ascii) (c : captures) : captures :=
  fun j => if Nat.eqb j i then x else c j.

Definition cont : Type := list ascii -> captures -> option captures.

(** The rounds of a repetition whose body is matched by [step].  A round
    has to consume input (the bodies of the repetitions of parser.go are
    never empty), so [length s] rounds are enough. *)
Fixpoint starLoop (step : list ascii -> captures -> cont -> option captures)
  (greedy : bool) (k : cont) (fuel : nat) (s : list ascii) (c : captures)
  {struct fuel} : option captures :=
  match fuel with
  | O => k s c
  | S fuel' =>
      let next : cont :=
        fun s' c' =>
          if (length s' <? length s)%nat
          then starLoop step greedy k fuel' s' c'
          else None in
      if greedy then
        match step s c next with
        | Some res => Some res
        | None => k s c
        end
      else
        match k s c with
        | Some res => Some res
        | None => step s c next
        end
  end.

(** [matchK input r s c k]: match [r] at the suffix [s] of [input], then
    continue with [k] on what is left; the first success in the order of
    preference is the result. *)
Fixpoint matchK (input : list ascii) (r : regex) (s : list ascii)
  (c : captures) (k : cont) {struct r} : option captures :=
  match r with
  | Empty => k s c
  | Class p =>
      match s with
      | a :: s' => if p a then k s' c else None
      | [] => None
      end
  | Cat r1 r2 =>
      matchK input r1 s c (fun s' c' => matchK input r2 s' c' k)
  | Alt r1 r2 =>
      match matchK input r1 s c k with
      | Some res => Some res
      | None => matchK input r2 s c k
      end
  | Star greedy r1 =>
      starLoop (fun s' c' k' => matchK input r1 s' c' k') greedy k
        (length s) s c
  | Group i r1 =>
      matchK input r1 s c
        (fun s' c' =>
           k s' (setCapture i (firstn (length s - length s') s) c'))
  | Bol => if (length s =? length input)%nat then k s c else None
  | Eol => match s with
           | [] => k s c
           | _ :: _ => None
           end
  end.

(** The leftmost match: start positions are tried from left to right. *)
Fixpoint findFrom (input : list ascii) (r : regex) (s : list ascii)
  : option captures :=
  match matchK input (Group 0 r) s noCaptures (fun _ c => Some c) with
  | Some c => Some c
  | None =>
      match s with
      | [] => None
      | _ :: s' => findFrom input r s'
      end
  end.

(** A compiled pattern: its syntax and the names of its groups (group 0,
    the whole match, and unnamed groups have the empty name). *)
Record Regexp : Type := mkRegexp {
  syntax : regex;
  subexpNames : list string
}.

Definition SubexpNames (r : Regexp) : list string := subexpNames r.

(** [nil] is the empty list. *)
Definition FindStringSubmatch (r : Regexp) (s : string) : list string :=
  let input := list_ascii_of_string s in
  match findFrom input (syntax r) input with
  | None => []
  | Some c =>
      map (fun i => string_of_list_ascii (c i))
          (seq 0 (length (subexpNames r)))
  end.

(** Character classes of the patterns. *)
Definition digit : ascii -> bool := strconv.isDigit.               (* \d *)
Definition nonDigit (c : ascii) : bool := negb (digit c).          (* \D *)
Definition newline : ascii := ascii_of_nat 10.
Definition anyChar (c : ascii) : bool := negb (Ascii.eqb c newline). (* . and [^\n] *)
Definition digit19 (c : ascii) : bool :=                           (* [1-9] *)
  (49 <=? strconv.code c) && (strconv.code c <=? 57).
Definition letter (c : ascii) : bool :=                            (* [a-zA-Z] *)
  ((97 <=? strconv.code c) && (strconv.code c <=? 122))
  || ((65 <=? strconv.code c) && (strconv.code c <=? 90)).
Definition letterHyphen (c : ascii) : bool :=                      (* [a-zA-Z-] *)
  letter c || Ascii.eqb c "-".
Definition alnumHyphen (c : ascii) : bool :=                       (* [0-9a-zA-Z-] *)
  digit c || letter c || Ascii.eqb c "-".
Definition notPlusNewline (c : ascii) : bool :=                    (* [^+\n] *)
  negb (Ascii.eqb c "+") && negb (Ascii.eqb c newline).

(** *** What a pattern can match

    [Match input r s c s' c']: starting at the suffix [s] of [input] with
    the submatches [c], the pattern [r] can consume [s] down to [s'] and
    leave the submatches [c'].  The relation has no order of preference; it
    bounds what [matchK] can return ([matchK_sound]). *)
Inductive Match (input : list ascii)
  : regex -> list ascii -> captures -> list ascii -> captures -> Prop :=
| MEmpty s c : Match input Empty s c s c
| MClass (p : ascii -> bool) a s c :
    p a = true -> Match input (Class p) (a :: s) c s c
| MCat r1 r2 s c s1 c1 s2 c2 :
    Match input r1 s c s1 c1 -> Match input r2 s1 c1 s2 c2 ->
    Match input (Cat r1 r2) s c s2 c2
| MAltL r1 r2 s c s' c' :
    Match input r1 s c s' c' -> Match input (Alt r1 r2) s c s' c'
| MAltR r1 r2 s c s' c' :
    Match input r2 s c s' c' -> Match input (Alt r1 r2) s c s' c'
| MStarStop g r s c : Match input (Star g r) s c s c
| MStarRound g r s c s1 c1 s2 c2 :
    Match input r s c s1 c1 -> (length s1 < length s)%nat ->
    Match input (Star g r) s1 c1 s2 c2 ->
    Match input (Star g r) s c s2 c2
| MGroup i r s c s' c' :
    Match input r s c s' c' ->
    Match input (Group i r) s c s'
      (setCapture i (firstn (length s - length s') s) c')
| MBol s c : length s = length input -> Match input Bol s c s c
| MEol c : Match input Eol [] c [] c.

(** The numbers of the capturing groups of a pattern. *)
Fixpoint groups (r : regex) : list nat :=
  match r with
  | Empty | Class _ | Bol | Eol => []
  | Cat r1 r2 | Alt r1 r2 => (groups r1 ++ groups r2)%list
  | Star _ r1 => groups r1
  | Group i r1 => i :: groups r1
  end.

(** A pattern with the numbers of its groups forgotten: two patterns with
    the same image consume the same texts. *)
Fixpoint ungroup (r : regex) : regex :=
  match r with
  | Empty => Empty
  | Class p => Class p
  | Cat r1 r2 => Cat (ungroup r1) (ungroup r2)
  | Alt r1 r2 => Alt (ungroup r1) (ungroup r2)
  | Star g r1 => Star g (ungroup r1)
  | Group _ r1 => Group 0 (ungroup r1)
  | Bol => Bol
  | Eol => Eol
  end.

(** A pattern that matches no empty text. *)
Definition consumes (input : list ascii) (r : regex) : Prop :=
  forall s c s' c', Match input r s c s' c' -> (length s' < length s)%nat.

(** The text [rest] does not go on with a character of the class [p]. *)
Definition stops (p : ascii -> bool) (rest : list ascii) : Prop :=
  match rest with
  | [] => True
  | b :: _ => p b = false
  end.

End regexp.

(** ** parser.go: the two version patterns and [parseVersion]

    Each pattern is quoted above its definition, with a blank between a
    star and a closing parenthesis that follows it. *)

Import regexp.

(** [^\D*?(?P<major>\d+)(\.(?P<minor>\d+))?(\.(?P<patch>\d+))?(?:-(?P<prerelease>[^+\n]* ))?(\+(?P<buildmetadata>.* ))?[^\n]*$] *)
Definition versionRegex : Regexp :=
  mkRegexp
    (Cat Bol
    (Cat (Star false (Class nonDigit))
    (Cat (Group 1 (Plus (Class digit)))
    (Cat (Opt (Group 2 (Cat (Chr ".") (Group 3 (Plus (Class digit))))))
    (Cat (Opt (Group 4 (Cat (Chr ".") (Group 5 (Plus (Class digit))))))
    (Cat (Opt (Cat (Chr "-") (Group 6 (Star true (Class notPlusNewline)))))
    (Cat (Opt (Group 7 (Cat (Chr "+") (Group 8 (Star true (Class anyChar))))))
    (Cat (Star true (Class anyChar))
         Eol))))))))
    [""; "major"; ""; "minor"; ""; "patch"; "prerelease"; ""; "buildmetadata"].

(** [0|[1-9]\d*] *)
Definition numericIdent : regex :=
  Alt (Chr "0") (Cat (Class digit19) (Star true (Class digit))).

(** [0|[1-9]\d*|\d*[a-zA-Z-][0-9a-zA-Z-]*] *)
Definition preReleaseIdent : regex :=
  Alt (Chr "0")
  (Alt (Cat (Class digit19) (Star true (Class digit)))
       (Cat (Star true (Class digit))
            (Cat (Class letterHyphen) (Star true (Class alnumHyphen))))).

(** [[0-9a-zA-Z-]+] *)
Definition buildIdent : regex := Plus (Class alnumHyphen).

(** [^(?P<major>0|[1-9]\d* )\.(?P<minor>0|[1-9]\d* )\.(?P<patch>0|[1-9]\d* )(?:-(?P<prerelease>(?:0|[1-9]\d*|\d*[a-zA-Z-][0-9a-zA-Z-]* )(?:\.(?:0|[1-9]\d*|\d*[a-zA-Z-][0-9a-zA-Z-]* ))* ))?(?:\+(?P<buildmetadata>[0-9a-zA-Z-]+(?:\.[0-9a-zA-Z-]+)* ))?$] *)
Definition semVerRegex : Regexp :=
  mkRegexp
    (Cat Bol
    (Cat (Group 1 numericIdent)
    (Cat (Chr ".")
    (Cat (Group 2 numericIdent)
    (Cat (Chr ".")
    (Cat (Group 3 numericIdent)
    (Cat (Opt (Cat (Chr "-")
                   (Group 4 (Cat preReleaseIdent
                                 (Star true (Cat (Chr ".") preReleaseIdent))))))
    (Cat (Opt (Cat (Chr "+")
                   (Group 5 (Cat buildIdent
                                 (Star true (Cat (Chr ".") buildIdent))))))
         Eol))))))))
    [""; "major"; "minor"; "patch"; "prerelease"; "buildmetadata"].

Definition setMajor (x : Z) (v : Version) : Version :=
  mkVersion x (minor v) (patch v) (preRelease v) (buildMetadata v).
Definition setMinor (x : option Z) (v : Version) : Version :=
  mkVersion (major v) x (patch v) (preRelease v) (buildMetadata v).
Definition setPatch (x : option Z) (v : Version) : Version :=
  mkVersion (major v) (minor v) x (preRelease v) (buildMetadata v).
Definition setPreRelease (s : string) (v : Version) : Version :=
  mkVersion (major v) (minor v) (patch v) s (buildMetadata v).
Definition setBuildMetadata (s : string) (v : Version) : Version :=
  mkVersion (major v) (minor v) (patch v) (preRelease v) s.

(** The loop [for i, subMatch := range matches] of [parseVersion];
    [subExpNames] is what is left of the names from index [i] on. *)
Fixpoint parseFields (subExpNames matches : list string) (ver : Version)
  : result Version :=
  match matches with
  | [] => Ok ver
  | subMatch :: matches' =>
      match subExpNames with
      | [] => Err (ErrPanic "index out of range")
      | name :: names' =>
          if (name =? "major")%string then
            match strconv.ParseUint subMatch with
            | Err e => Err (ErrComponent "major" e)
            | Ok major => parseFields names' matches' (setMajor major ver)
            end
          else if (name =? "minor")%string then
            if (subMatch =? "")%string then parseFields names' matches' ver
            else
              match strconv.ParseUint subMatch with
              | Err e => Err (ErrComponent "minor" e)
              | Ok minor => parseFields names' matches' (setMinor (Some minor) ver)
              end
          else if (name =? "patch")%string then
            if (subMatch =? "")%string then parseFields names' matches' ver
            else
              match strconv.ParseUint subMatch with
              | Err e => Err (ErrComponent "patch" e)
              | Ok patch => parseFields names' matches' (setPatch (Some patch) ver)
              end
          else if (name =? "prerelease")%string then
            parseFields names' matches' (setPreRelease subMatch ver)
          else if (name =? "buildmetadata")%string then
            parseFields names' matches' (setBuildMetadata subMatch ver)
          else parseFields names' matches' ver
      end
  end.

(** The zero value [Version{}]. *)
Definition zeroVersion : Version := mkVersion 0 None None "" "".

Definition parseVersion (r : Regexp) (versionString : string) : result Version :=
  let matches := FindStringSubmatch r versionString in
  if (length matches =? 0)%nat then Err ErrNoMatch
  else
    let subExpNames := SubexpNames r in
    if (length subExpNames <? length matches)%nat
    then Err (ErrPanic "length of matches > length of sub-expression names")
    else parseFields subExpNames matches zeroVersion.

Definition ParseVersion (version : string) : result Version :=
  parseVersion versionRegex version.

Definition ParseSemVer (semanticVersion : string) : result Version :=
  parseVersion semVerRegex semanticVersion.

(** ** version.go: rendering *)

(** The method [String] of [Version]. *)
Definition Version_String (v : Version) : string :=
  let versionStr := strconv.FormatUint (major v) in
  let versionStr :=
    match minor v with
    | Some mi =>
        let versionStr := versionStr ++ "." ++ strconv.FormatUint mi in
        match patch v with
        | Some pa => versionStr ++ "." ++ strconv.FormatUint pa
        | None => versionStr
        end
    | None => versionStr
    end in
  let versionStr :=
    if negb (preRelease v =? "")%string
    then versionStr ++ "-" ++ preRelease v else versionStr in
  if negb (buildMetadata v =? "")%string
  then versionStr ++ "+" ++ buildMetadata v else versionStr.

Definition StrictString (v : Version) : result string :=
  let versionStr := strconv.FormatUint (major v) in
  let versionStr :=
    match minor v with
    | Some mi => versionStr ++ "." ++ strconv.FormatUint mi
    | None => versionStr ++ ".0"
    end in
  let versionStr :=
    match patch v with
    | Some pa => versionStr ++ "." ++ strconv.FormatUint pa
    | None => versionStr ++ ".0"
    end in
  let checked (what : string) (versionStr : string) (k : string -> result string) :=
    match ParseSemVer versionStr with
    | Err e => Err (ErrStrict what e)
    | Ok _ => k versionStr
    end in
  let withBuild (versionStr : string) : result string :=
    if negb (buildMetadata v =? "")%string
    then checked "build metadata" (versionStr ++ "+" ++ buildMetadata v) Ok
    else Ok versionStr in
  if negb (preRelease v =? "")%string
  then checked "pre-release label" (versionStr ++ "-" ++ preRelease v) withBuild
  else withBuild versionStr.

(** ** constraint.go *)

(** [type Operator string]: any string is an operator; seven of them have
    a meaning. *)
Definition Operator : Type := string.

Definition EQ : Operator := "=".
Definition NE : Operator := "!=".
Definition GT : Operator := ">".
Definition GE : Operator := ">=".
Definition LT : Operator := "<".
Definition LE : Operator := "<=".
Definition GEPessimistic : Operator := "~>".

(** [==] on operators. *)
Definition opEq (o1 o2 : Operator) : bool := (o1 =? o2)%string.

Record Constraint : Type := mkConstraint {
  operator : Operator;
  version : Version
}.

(** [type Constraints []Constraint] *)
Abbreviation Constraints := (list Constraint).

Definition NewConstraint (operator : Operator) (version : Version) : Constraint :=
  mkConstraint operator version.

Definition Constraint_String (c : Constraint) : string :=
  operator c ++ " " ++ Version_String (version c).

(** [None] is a panic: the one of [IncrementPessimistic]. *)
Definition Satisfies (v : Version) (c : Constraint) : option bool :=
  if opEq (operator c) EQ then Some (Equal v (version c))
  else if opEq (operator c) NE then Some (negb (Equal v (version c)))
  else if opEq (operator c) GT then Some (Greater v (version c))
  else if opEq (operator c) GE then Some (GreaterEqual v (version c))
  else if opEq (operator c) LT then Some (Less v (version c))
  else if opEq (operator c) LE then Some (LessEqual v (version c))
  else if opEq (operator c) GEPessimistic then
    if GreaterEqual v (version c) then
      match IncrementPessimistic (version c) with
      | Some next => Some (Less v next)
      | None => None
      end
    else Some false
  else Some false.

Definition Overlaps (c c2 : Constraint) : option bool :=
  if opEq (operator c) EQ then Satisfies (version c) c2
  else if opEq (operator c) NE then
    match Satisfies (version c) c2 with
    | Some b => Some (negb b)
    | None => None
    end
  else if opEq (operator c) GT then
    Some (LessEqual (version c) (version c2))
  else if opEq (operator c) GE && opEq (operator c2) GEPessimistic then
    Some (GreaterEqual (version c) (version c2)
          && Less (version c) (Increment (version c2)))
  else if opEq (operator c2) GE && opEq (operator c) GEPessimistic then
    Some (GreaterEqual (version c2) (version c)
          && Less (version c2) (Increment (version c)))
  else if opEq (operator c) GE then
    Some (Less (version c) (version c2))
  else if opEq (operator c) LT && opEq (operator c2) LE then
    Some (Less (version c2) (version c))
  else if opEq (operator c) LE && opEq (operator c2) LT then
    Some (Less (version c) (version c2))
  else if opEq (operator c) LT && opEq (operator c2) GEPessimistic then
    Some (Less (version c2) (version c) || Equal (version c2) (version c))
  else if opEq (operator c2) LT && opEq (operator c) GEPessimistic then
    Some (Less (version c) (version c2) || Equal (version c) (version c2))
  else if opEq (operator c) LT then
    Some (GreaterEqual (version c) (version c2))
  else if opEq (operator c) LE then
    Some (Greater (version c) (version c2))
  else if opEq (operator c) GEPessimistic then
    Some (GreaterEqual (version c2) (version c)
          && Less (version c2) (Increment (version c)))
  else Some false.

(** ** contradiction.go *)

(** The errors that [Contradicts] builds: a [ContradictionErr] and the
    wrapper that [errors.Join] returns. *)
#[local] Set Warnings "-register-all".
Inductive goError : Type :=
| ContradictionErr (c1 c2 : Constraint)
| joinError (errs : list goError).

Definition ContradictionErr_Error (c1 c2 : Constraint) : string :=
  "constraints '" ++ Constraint_String c1 ++ "' and '"
  ++ Constraint_String c2 ++ "' are contradictory".

(** [errors.Join]: [nil] arguments are dropped, and the result is [nil]
    when nothing is left. *)
Definition Join (errs : list (option goError)) : option goError :=
  match omap id errs with
  | [] => None
  | l => Some (joinError l)
  end.

(** The tree of errors under an error, depth first and from left to right
    (the order in which [errors.Is] and [errors.As] visit it), restricted
    to the [ContradictionErr] values, each given by its pair of
    constraints. *)
Fixpoint contradictionsOf (e : goError) : list (Constraint * Constraint) :=
  match e with
  | ContradictionErr c1 c2 => [(c1, c2)]
  | joinError errs =>
      (fix walk (l : list goError) : list (Constraint * Constraint) :=
         match l with
         | [] => []
         | e' :: l' => (contradictionsOf e' ++ walk l')%list
         end) errs
  end.

Definition contradictions (err : option goError) : list (Constraint * Constraint) :=
  match err with
  | None => []
  | Some e => contradictionsOf e
  end.

Definition checkContradict (c1 c2 : Constraint) : option bool :=
  if opEq (operator c1) (operator c2) && Equal (version c1) (version c2)
  then Some false
  else if opEq (operator c1) ">" && opEq (operator c2) ">="
          && LessEqual (version c1) (version c2)
  then Some false
  else if opEq (operator c1) ">=" && opEq (operator c2) ">"
          && Greater (version c1) (version c2)
  then Some false
  else if opEq (operator c1) "!=" && opEq (operator c2) "!="
  then Some (Equal (version c1) (version c2))
  else if opEq (operator c1) "!=" then Satisfies (version c1) c2
  else if opEq (operator c2) "!=" then Satisfies (version c2) c1
  else
    match Overlaps c1 c2 with
    | Some b => Some (negb b)
    | None => None
    end.

(** The condition of the [if] in the inner loop of [Contradicts]:
    [checkContradict(c1, c2) || checkContradict(c2, c1)]. *)
Definition eitherContradicts (c1 c2 : Constraint) : option bool :=
  match checkContradict c1 c2 with
  | Some true => Some true
  | Some false => checkContradict c2 c1
  | None => None
  end.

(** [for j := ...; j < len(allConstraints); j++] with [n] rounds to go. *)
Fixpoint innerLoop (allConstraints : Constraints) (i : nat) (n j : nat)
  (err : option goError) : option (option goError) :=
  match n with
  | O => Some err
  | S n' =>
      match allConstraints !! i, allConstraints !! j with
      | Some c1, Some c2 =>
          match eitherContradicts c1 c2 with
          | Some true =>
              innerLoop allConstraints i n' (S j)
                (Join [err; Some (ContradictionErr c1 c2)])
          | Some false => innerLoop allConstraints i n' (S j) err
          | None => None
          end
      | _, _ => None
      end
  end.

(** [for i := 0; i < len(allConstraints); i++] with [n] rounds to go. *)
Fixpoint outerLoop (allConstraints : Constraints) (n i : nat)
  (err : option goError) : option (option goError) :=
  match n with
  | O => Some err
  | S n' =>
      match innerLoop allConstraints i (length allConstraints - (i + 1))
              (i + 1) err with
      | Some err' => outerLoop allConstraints n' (S i) err'
      | None => None
      end
  end.

(** The outer [option] is the panic, the inner one the [error] ([nil] is
    [None]). *)
Definition Contradicts (c : Constraints) (additional : list Constraints)
  : option (option goError) :=
  let allConstraints := fold_left (fun acc set => (acc ++ set)%list) additional ([] ++ c)%list in
  outerLoop allConstraints (length allConstraints) 0%nat None.

(** ** strings.TrimSpace, strings.Split and strings.Join

    The package [strings] belongs to Go's standard library, not to the
    repository.  [TrimSpace] removes the leading and the trailing white
    space of a string, as Unicode defines it: the six ASCII characters
    tab, line feed, vertical tab, form feed, carriage return and blank, and
    the runes U+0085, U+00A0, U+1680, U+2000 to U+200A, U+2028, U+2029,
    U+202F, U+205F and U+3000 in their UTF-8 encoding.  A byte sequence
    that is not the encoding of one of these runes is left in place. *)

Module strings.

Definition byte (n : Z) : ascii := ascii_of_N (Z.to_N n).

Definition isAsciiSpace (c : ascii) : bool :=
  ((9 <=? strconv.code c) && (strconv.code c <=? 13)) || (strconv.code c =? 32).

Definition unicodeSpaces : list (list ascii) :=
  [ [byte 0xC2; byte 0x85]; [byte 0xC2; byte 0xA0];
    [byte 0xE1; byte 0x9A; byte 0x80];
    [byte 0xE2; byte 0x80; byte 0x80]; [byte 0xE2; byte 0x80; byte 0x81];
    [byte 0xE2; byte 0x80; byte 0x82]; [byte 0xE2; byte 0x80; byte 0x83];
    [byte 0xE2; byte 0x80; byte 0x84]; [byte 0xE2; byte 0x80; byte 0x85];
    [byte 0xE2; byte 0x80; byte 0x86]; [byte 0xE2; byte 0x80; byte 0x87];
    [byte 0xE2; byte 0x80; byte 0x88]; [byte 0xE2; byte 0x80; byte 0x89];
    [byte 0xE2; byte 0x80; byte 0x8A];
    [byte 0xE2; byte 0x80; byte 0xA8]; [byte 0xE2; byte 0x80; byte 0xA9];
    [byte 0xE2; byte 0x80; byte 0xAF]; [byte 0xE2; byte 0x81; byte 0x9F];
    [byte 0xE3; byte 0x80; byte 0x80] ].

Fixpoint startsWith (t s : list ascii) : bool :=
  match t, s with
  | [], _ => true
  | a :: t', b :: s' => Ascii.eqb a b && startsWith t' s'
  | _ :: _, [] => false
  end.

(** The number of bytes of the white-space rune at the head of [s], read
    with the encodings [tokens]; 0 when [s] does not begin with one. *)
Definition spaceWidth (tokens : list (list ascii)) (s : list ascii) : nat :=
  match s with
  | [] => 0%nat
  | a :: _ =>
      if isAsciiSpace a then 1%nat
      else match List.find (fun t => startsWith t s) tokens with
           | Some t => length t
           | None => 0%nat
           end
  end.

Fixpoint trimLeft (tokens : list (list ascii)) (fuel : nat) (s : list ascii)
  : list ascii :=
  match fuel with
  | O => s
  | S fuel' =>
      match spaceWidth tokens s with
      | O => s
      | n => trimLeft tokens fuel' (skipn n s)
      end
  end.

Definition TrimSpace (s : string) : string :=
  let l := list_ascii_of_string s in
  let l := trimLeft unicodeSpaces (length l) l in
  let r := trimLeft (map (@rev ascii) unicodeSpaces) (length l) (rev l) in
  string_of_list_ascii (rev r).

(** [Split s sep] for a separator of one byte. *)
Fixpoint Split (s : string) (sep : ascii) : list string :=
  match s with
  | EmptyString => [""]
  | String a s' =>
      if Ascii.eqb a sep then "" :: Split s' sep
      else match Split s' sep with
           | piece :: pieces => String a piece :: pieces
           | [] => [String a ""]
           end
  end.

Fixpoint Join (elems : list string) (sep : string) : string :=
  match elems with
  | [] => ""
  | [e] => e
  | e :: elems' => e ++ sep ++ Join elems' sep
  end.

End strings.

(** ** parser.go: constraints *)

Definition space (c : ascii) : bool :=                                (* \s *)
  Ascii.eqb c (ascii_of_nat 9) || Ascii.eqb c (ascii_of_nat 10)
  || Ascii.eqb c (ascii_of_nat 12) || Ascii.eqb c (ascii_of_nat 13)
  || Ascii.eqb c " ".
Definition nonSpace (c : ascii) : bool := negb (space c).            (* \S *)
Definition notDigitNewline (c : ascii) : bool :=                      (* [^\d\n] *)
  negb (digit c) && negb (Ascii.eqb c newline).

(** [!=|=|>=|>|<=|<|~>] *)
Definition operatorPattern : regex :=
  Alt (Cat (Chr "!") (Chr "="))
  (Alt (Chr "=")
  (Alt (Cat (Chr ">") (Chr "="))
  (Alt (Chr ">")
  (Alt (Cat (Chr "<") (Chr "="))
  (Alt (Chr "<")
       (Cat (Chr "~") (Chr ">"))))))).

(** [^(!=|=|>=|>|<=|<|~>)?[^\d\n]*(\d+\S* )$] *)
Definition constraintRegex : Regexp :=
  mkRegexp
    (Cat Bol
    (Cat (Opt (Group 1 operatorPattern))
    (Cat (Star true (Class notDigitNewline))
    (Cat (Group 2 (Cat (Plus (Class digit)) (Star true (Class nonSpace))))
         Eol))))
    [""; ""; ""].

(** The pattern of the group [semver]: the one of [semVerRegex] without
    its anchors and with groups that do not capture. *)
Definition semVerBody : regex :=
  Cat numericIdent
  (Cat (Chr ".")
  (Cat numericIdent
  (Cat (Chr ".")
  (Cat numericIdent
  (Cat (Opt (Cat (Chr "-")
                 (Cat preReleaseIdent
                      (Star true (Cat (Chr ".") preReleaseIdent)))))
       (Opt (Cat (Chr "+")
                 (Cat buildIdent
                      (Star true (Cat (Chr ".") buildIdent)))))))))).

(** [^(?P<operator>!=|=|>=|>|<=|<|~>)?\s*(?P<semver>...)?$] *)
Definition strictConstraintRegex : Regexp :=
  mkRegexp
    (Cat Bol
    (Cat (Opt (Group 1 operatorPattern))
    (Cat (Star true (Class space))
    (Cat (Opt (Group 2 semVerBody))
         Eol))))
    [""; "operator"; "semver"].

Inductive constraintError : Type :=
| ErrConstraintNoMatch (verConstraint : string)
                                (* failed to parse version constraint *)
| ErrInvalidOperator (parsedOperator : Operator) (verConstraint : string)
                                (* invalid operator in constraint *)
| ErrConstraintVersion (cause : error)
                                (* failed to parse version in constraint *)
| ErrStrictConstraintNoMatch (verConstraint : string)
                                (* failed to parse strict version constraint *)
| ErrInvalidStrictOperator (parsedOperator : Operator) (verConstraint : string)
                                (* invalid operator in strict constraint *)
| ErrStrictConstraintSemVer (cause : error)
                                (* failed to parse semver in strict constraint *)
| ErrConstraintPanic (msg : string)
                                (* an explicit panic(...) of the source *)
| ErrSetMember (rawConstraint : string) (cause : constraintError)
                                (* failed to parse constraint *)
| ErrStrictSetMember (rawConstraint : string) (cause : constraintError)
                                (* failed to parse strict constraint *)
| ErrConstraintStrictString (cause : error)
                 (* failed to generate strict string for constraint version *)
| ErrConstraintsStrictString (cause : constraintError).
                 (* failed to generate strict string for constraint *)

Inductive outcome (A : Type) : Type :=
| Done (a : A)
| Failed (e : constraintError).

Arguments Done {A} a.
Arguments Failed {A} e.

(** [case EQ, NE, GT, GE, LT, LE, GEPessimistic:] *)
Definition knownOperator (o : Operator) : bool :=
  opEq o EQ || opEq o NE || opEq o GT || opEq o GE || opEq o LT || opEq o LE
  || opEq o GEPessimistic.

Definition MustParseVersion (version : string) : option Version :=
  match ParseVersion version with
  | Ok v => Some v
  | Err _ => None
  end.

Definition MustParseSemVer (version : string) : option Version :=
  match ParseSemVer version with
  | Ok v => Some v
  | Err _ => None
  end.

Definition ParseConstraint (verConstraint : string) : outcome Constraint :=
  let verConstraint := strings.TrimSpace verConstraint in
  let constraintMatches := FindStringSubmatch constraintRegex verConstraint in
  if negb (length constraintMatches =? 3)%nat
  then Failed (ErrConstraintNoMatch verConstraint)
  else
    let parsedOperator : Operator := nth 1 constraintMatches "" in
    let rawVersion := nth 2 constraintMatches "" in
    let parsedOperator := if opEq parsedOperator "" then EQ else parsedOperator in
    if negb (knownOperator parsedOperator)
    then Failed (ErrInvalidOperator parsedOperator verConstraint)
    else
      match ParseVersion rawVersion with
      | Err e => Failed (ErrConstraintVersion e)
      | Ok version => Done (mkConstraint parsedOperator version)
      end.

Definition MustParseConstraint (verConstraint : string) : option Constraint :=
  match ParseConstraint verConstraint with
  | Done c => Some c
  | Failed _ => None
  end.

(** The loop [for i, subMatch := range matches] of [ParseStrictConstraint];
    [subExpNames] is what is left of the names from index [i] on. *)
Fixpoint strictFields (subExpNames matches : list string)
  (parsedOperator : Operator) (rawVersion : string)
  : outcome (Operator * string) :=
  match matches with
  | [] => Done (parsedOperator, rawVersion)
  | subMatch :: matches' =>
      match subExpNames with
      | [] => Failed (ErrConstraintPanic "index out of range")
      | name :: names' =>
          if (name =? "operator")%string then
            let subMatch := if (subMatch =? "")%string then "=" else subMatch in
            strictFields names' matches' subMatch rawVersion
          else if (name =? "semver")%string then
            strictFields names' matches' parsedOperator subMatch
          else strictFields names' matches' parsedOperator rawVersion
      end
  end.

Definition ParseStrictConstraint (verConstraint : string) : outcome Constraint :=
  let verConstraint := strings.TrimSpace verConstraint in
  let matches := FindStringSubmatch strictConstraintRegex verConstraint in
  let subExpNames := SubexpNames strictConstraintRegex in
  if (length subExpNames <? length matches)%nat
  then Failed (ErrConstraintPanic
                 "length of matches > length of sub-expression names")
  else
    match strictFields subExpNames matches "" "" with
    | Failed e => Failed e
    | Done (parsedOperator, rawVersion) =>
        if opEq parsedOperator "" || (rawVersion =? "")%string
        then Failed (ErrStrictConstraintNoMatch verConstraint)
        else if negb (knownOperator parsedOperator)
        then Failed (ErrInvalidStrictOperator parsedOperator verConstraint)
        else
          match ParseSemVer rawVersion with
          | Err e => Failed (ErrStrictConstraintSemVer e)
          | Ok version => Done (mkConstraint parsedOperator version)
          end
    end.

(** The loop [for _, rawConstraint := range versionConstraints] of the two
    set parsers; [parse] is the parser of one constraint and [wrap] the
    error of the set. *)
Fixpoint parseEach (parse : string -> outcome Constraint)
  (wrap : string -> constraintError -> constraintError)
  (versionConstraints : list string) (result : Constraints)
  : outcome Constraints :=
  match versionConstraints with
  | [] => Done result
  | rawConstraint :: rest =>
      match parse rawConstraint with
      | Failed e => Failed (wrap rawConstraint e)
      | Done constraint => parseEach parse wrap rest (result ++ [constraint])%list
      end
  end.

Definition ParseConstraintSet (constraintString : string) : outcome Constraints :=
  let versionConstraints := strings.Split constraintString "," in
  parseEach ParseConstraint ErrSetMember versionConstraints [].

Definition MustParseConstraintSet (constraintString : string) : option Constraints :=
  match ParseConstraintSet constraintString with
  | Done cs => Some cs
  | Failed _ => None
  end.

Definition ParseStrictConstraintSet (constraintString : string)
  : outcome Constraints :=
  let versionConstraints := strings.Split constraintString "," in
  parseEach ParseStrictConstraint ErrStrictSetMember versionConstraints [].

Definition MustParseStrictConstraintSet (constraintString : string)
  : option Constraints :=
  match ParseStrictConstraintSet constraintString with
  | Done cs => Some cs
  | Failed _ => None
  end.

(** ** constraint.go: rendering *)

Definition Operator_String (o : Operator) : string := o.

(** The method [StrictString] of [Constraint]. *)
Definition Constraint_StrictString (c : Constraint) : outcome string :=
  match StrictString (version c) with
  | Err e => Failed (ErrConstraintStrictString e)
  | Ok versionString => Done (Operator_String (operator c) ++ " " ++ versionString)
  end.

(** The method [String] of [Constraints]. *)
Definition Constraints_String (c : Constraints) : string :=
  strings.Join (map Constraint_String c) ", ".

(** The loop of the method [StrictString] of [Constraints]. *)
Fixpoint strictStrings (c : Constraints) (constraintStrings : list string)
  : outcome (list string) :=
  match c with
  | [] => Done constraintStrings
  | constraint :: rest =>
      match Constraint_StrictString constraint with
      | Failed e => Failed (ErrConstraintsStrictString e)
      | Done constraintString =>
          strictStrings rest (constraintStrings ++ [constraintString])%list
      end
  end.

Definition Constraints_StrictString (c : Constraints) : outcome string :=
  match strictStrings c [] with
  | Failed e => Failed e
  | Done constraintStrings => Done (strings.Join constraintStrings ", ")
  end.

(** ** Vocabulary of the properties

    The definitions below are not part of the package: they name what the
    properties in the second half of this file are about. *)

(** *** Stores *)

(** The optional components of [v] that are stored at [l]. *)
Definition pointsTo (v : Ptr.Version) (l : Ptr.loc) : Prop :=
  Ptr.minor v = Some l \/ Ptr.patch v = Some l.

(** Run in the store [h], [m] returns a version that reads as [expected];
    every location of [h] keeps its content, so [v] reads as before; and
    the locations of the result are new, so none is one of [v]. *)
Definition returnsCopy (h : Ptr.heap) (v : Ptr.Version) (m : Ptr.M Ptr.Version)
  (expected : Version) : Prop :=
  exists v' h',
    m h = Some (v', h')
    /\ h ⊆ h'
    /\ read h' v = read h v
    /\ read h' v' = Some expected
    /\ (forall l, pointsTo v' l -> h !! l = None)
    /\ (forall l, pointsTo v' l -> ~ pointsTo v l).

(** [m] runs without panic in [h], and its result and final store
    satisfy [Q]. *)
Definition wp {A} (m : Ptr.M A) (h : Ptr.heap) (Q : A -> Ptr.heap -> Prop) : Prop :=
  exists a h', m h = Some (a, h') /\ Q a h'.

(** A store and a version in it, for examples. *)
Definition exampleHeap : Ptr.heap := <[2%positive := 3]> (<[1%positive := 2]> ∅).
Definition exampleVersion : Ptr.Version :=
  Ptr.mkVersion 1 (Some 1%positive) (Some 2%positive) "rc.1" "".

(** *** Decimal numerals *)

Definition digitValue (c : ascii) : Z := strconv.code c - 48.

Fixpoint valueFrom (n : Z) (ds : list ascii) : Z :=
  match ds with
  | [] => n
  | c :: ds' => valueFrom (10 * n + digitValue c) ds'
  end.

(** [ds] is the decimal numeral of [u]: digits, of value [u], with no
    leading zero unless it is the numeral of 0. *)
Definition decimal (ds : list ascii) (u : Z) : Prop :=
  Forall (fun c => digit c = true) ds
  /\ valueFrom 0 ds = u
  /\ match ds with
     | [] => False
     | c :: _ => if u =? 0 then ds = ["0"%char] else digit19 c = true
     end.

(** *** The pieces of [versionRegex] *)

Definition lenientMinor : regex :=
  Group 2 (Cat (Chr ".") (Group 3 (Plus (Class digit)))).
Definition lenientPatch : regex :=
  Group 4 (Cat (Chr ".") (Group 5 (Plus (Class digit)))).
Definition lenientTail : regex :=
  Cat (Opt (Cat (Chr "-") (Group 6 (Star true (Class notPlusNewline)))))
  (Cat (Opt (Group 7 (Cat (Chr "+") (Group 8 (Star true (Class anyChar))))))
  (Cat (Star true (Class anyChar)) Eol)).

(** *** Versions of the public interface *)

(** The versions a caller outside the package can hold: the zero value,
    the results of the constructors and of the two parsers, and what the
    copying methods return on such versions. *)
Inductive obtainable : Version -> Prop :=
| ob_zero : obtainable zeroVersion
| ob_NewVersion major minor patch : obtainable (NewVersion major minor patch)
| ob_NewPreReleaseVersion major minor patch pre :
    obtainable (NewPreReleaseVersion major minor patch pre)
| ob_ParseVersion s v : ParseVersion s = Ok v -> obtainable v
| ob_ParseSemVer s v : ParseSemVer s = Ok v -> obtainable v
| ob_SetPreRelease v pre : obtainable v -> obtainable (SetPreRelease v pre)
| ob_SetBuildMetadata v build : obtainable v -> obtainable (SetBuildMetadata v build)
| ob_Increment v : obtainable v -> obtainable (Increment v)
| ob_IncrementMajor v : obtainable v -> obtainable (IncrementMajor v)
| ob_IncrementMinor v : obtainable v -> obtainable (IncrementMinor v)
| ob_IncrementPatch v : obtainable v -> obtainable (IncrementPatch v)
| ob_IncrementPessimistic v v' :
    obtainable v -> IncrementPessimistic v = Some v' -> obtainable v'.

Definition wellFormedAll (cs : Constraints) : Prop :=
  Forall (fun c => wellFormed (version c) = true) cs.

(** *** The pairs that [Contradicts] examines *)

(** The pairs [(i, j)] with [i < j < n], in the order of the two loops. *)
Definition pairsFrom (n : nat) (i : nat) : list (nat * nat) :=
  map (pair i) (seq (i + 1) (n - (i + 1))).

Definition indexPairs (n : nat) : list (nat * nat) :=
  flat_map (pairsFrom n) (seq 0 n).

Definition pairAt (all : Constraints) (ij : nat * nat)
  : option (Constraint * Constraint) :=
  match all !! ij.1, all !! ij.2 with
  | Some c1, Some c2 => Some (c1, c2)
  | _, _ => None
  end.

(** The pair is one that [Contradicts] reports. *)
Definition contradictory (p : Constraint * Constraint) : bool :=
  match eitherContradicts p.1 p.2 with
  | Some true => true
  | _ => false
  end.

(** One round of the inner loop on the pair [p], and the rounds on a list
    of pairs. *)
Definition record (err : option goError) (p : Constraint * Constraint)
  : option (option goError) :=
  match eitherContradicts p.1 p.2 with
  | Some true => Some (Join [err; Some (ContradictionErr p.1 p.2)])
  | Some false => Some err
  | None => None
  end.

Fixpoint recordAll (ps : list (Constraint * Constraint)) (err : option goError)
  : option (option goError) :=
  match ps with
  | [] => Some err
  | p :: ps' =>
      match record err p with
      | Some err' => recordAll ps' err'
      | None => None
      end
  end.

(** *** Helpers of the examples *)

Definition majorMinorPatch (r : result Version) : option (Z * Z * Z) :=
  match r with
  | Ok v => Some (Major v, Minor v, Patch v)
  | Err _ => None
  end.

Definition strictStringOf (r : option Version) : option string :=
  match r with
  | Some v => match StrictString v with
              | Ok s => Some s
              | Err _ => None
              end
  | None => None
  end.

Definition parsed (s : string) : option Version :=
  match ParseVersion s with
  | Ok v => Some v
  | Err _ => None
  end.

Definition lessParsed (s1 s2 : string) : option bool :=
  match parsed s1, parsed s2 with
  | Some v1, Some v2 => Some (Less v1 v2)
  | _, _ => None
  end.

(** ** Vocabulary of the further properties *)

(** *** Versions *)

(** The three numbers of a version are [uint64] values. *)
Definition inRangeVersion (v : Version) : Prop :=
  U64.inRange (Major v) /\ U64.inRange (Minor v) /\ U64.inRange (Patch v).

(** The component that [Increment] bumps: the rightmost one present. *)
Definition lastComponent (v : Version) : Z :=
  match patch v with
  | Some x => x
  | None => match minor v with
            | Some x => x
            | None => major v
            end
  end.

(** The component that [IncrementPessimistic] bumps. *)
Definition pessimisticComponent (v : Version) : Z :=
  match patch v with
  | Some _ => Minor v
  | None => Major v
  end.

(** *** Sets of constraints *)

(** [Contradicts] returns an error for the set [cs]. *)
Definition reported (cs : Constraints) : Prop :=
  exists e, Contradicts cs [] = Some (Some e).

(** The pairs of a sequence of constraints, each constraint with every
    later one. *)
Fixpoint pairsOf (cs : Constraints) : list (Constraint * Constraint) :=
  match cs with
  | [] => []
  | c :: cs' => (map (pair c) cs' ++ pairsOf cs')%list
  end.

(** The seven operators of constraint.go. *)
Definition operators : list Operator := [EQ; NE; GT; GE; LT; LE; GEPessimistic].

(** *** Patterns *)

(** Every character class of the pattern is inside the class [P]. *)
Fixpoint within (P : ascii -> bool) (r : regex) : Prop :=
  match r with
  | Class p => forall a, p a = true -> P a = true
  | Cat r1 r2 | Alt r1 r2 => within P r1 /\ within P r2
  | Star _ r1 | Group _ r1 => within P r1
  | Empty | Bol | Eol => True
  end.

(** A match of the pattern holds a digit. *)
Definition needsDigit (r : regex) : Prop :=
  forall input s res,
    matchK input (Group 0 r) s noCaptures (fun _ c => Some c) = Some res ->
    exists a, In a s /\ digit a = true.

(** Every group numbered [i] of the pattern captures a text in [Q]. *)
Fixpoint capturesOnly (Q : list ascii -> Prop) (i : nat) (r : regex) : Prop :=
  match r with
  | Group j r1 =>
      (j = i -> forall input x s' c c',
                  Match input r1 (x ++ s') c s' c' -> Q x)
      /\ capturesOnly Q i r1
  | Cat r1 r2 | Alt r1 r2 => capturesOnly Q i r1 /\ capturesOnly Q i r2
  | Star _ r1 => capturesOnly Q i r1
  | Empty | Class _ | Bol | Eol => True
  end.

(** A pattern without [^] and [$]. *)
Fixpoint anchorFree (r : regex) : Prop :=
  match r with
  | Empty | Class _ => True
  | Cat r1 r2 | Alt r1 r2 => anchorFree r1 /\ anchorFree r2
  | Star _ r1 | Group _ r1 => anchorFree r1
  | Bol | Eol => False
  end.

(** The text [x] matches [r] wherever it stands. *)
Definition matches (r : regex) (x : list ascii) : Prop :=
  forall input t c, exists c', Match input r (x ++ t)%list c t c'.

(** The two labels of [semVerRegex], and what follows its three numbers. *)
Definition strictPreRelease : regex :=
  Cat preReleaseIdent (Star true (Cat (Chr ".") preReleaseIdent)).
Definition strictBuild : regex :=
  Cat buildIdent (Star true (Cat (Chr ".") buildIdent)).
Definition strictTail : regex :=
  Cat (Opt (Cat (Chr "-") (Group 4 strictPreRelease)))
  (Cat (Opt (Cat (Chr "+") (Group 5 strictBuild))) Eol).

(** *** Texts *)

(** A text without decimal digit. *)
Definition noDigit (s : string) : Prop :=
  Forall (fun a => digit a = false) (list_ascii_of_string s).

(** A text without comma. *)
Definition noComma (s : string) : Prop :=
  Forall (fun a => a <> ","%char) (list_ascii_of_string s).

Definition digits (x : list ascii) : Prop := Forall (fun a => digit a = true) x.

(** A sequence of digits that is not empty. *)
Definition numeral (x : list ascii) : Prop := digits x /\ x <> [].

(** The text of an operator, or no text. *)
Definition operatorText (x : list ascii) : Prop :=
  x = [] \/ In (string_of_list_ascii x) operators.

(** The characters between [-] and [z], which include those of the labels
    of a strict version. *)
Definition labelChar (a : ascii) : bool :=
  (45 <=? strconv.code a) && (strconv.code a <=? 122).

(** The visible characters of ASCII. *)
Definition visible (a : ascii) : bool :=
  (33 <=? strconv.code a) && (strconv.code a <=? 126).

(** The first byte of a text is not an ASCII character. *)
Definition highHead (t : list ascii) : bool :=
  match t with
  | b :: _ => 128 <=? strconv.code b
  | [] => false
  end.

(** The text of an optional part that begins with the character [mark]. *)
Definition marked (mark : ascii) (o : option (list ascii)) : list ascii :=
  match o with
  | Some x => mark :: x
  | None => []
  end.

Definition textOf (o : option (list ascii)) : list ascii :=
  match o with
  | Some x => x
  | None => []
  end.

(** major[.minor[.patch]][-prerelease][+buildmetadata] *)
Definition versionText (M : list ascii) (mo po pre build : option (list ascii))
  : list ascii :=
  (M ++ marked "." mo ++ marked "." po ++ marked "-" pre ++ marked "+" build)%list.

(** major.minor.patch *)
Definition tripleText (M m p : list ascii) : list ascii :=
  (M ++ "."%char :: m ++ "."%char :: p)%list.

(** The parts of a text that [versionRegex] reads in full: numerals, a
    patch only after a minor, a pre-release label without [+] and newline,
    build metadata without newline. *)
Definition wellShaped (M : list ascii) (mo po pre build : option (list ascii))
  : Prop :=
  numeral M
  /\ (forall x, mo = Some x -> numeral x)
  /\ (forall x, po = Some x -> numeral x)
  /\ (mo = None -> po = None)
  /\ (forall x, pre = Some x -> Forall (fun a => notPlusNewline a = true) x)
  /\ (forall x, build = Some x -> Forall (fun a => anyChar a = true) x).

(** A label of a strict version: not empty, of characters between [-] and
    [z], and matched by [r] wherever it stands. *)
Definition strictLabel (r : regex) (o : option (list ascii)) : Prop :=
  forall x, o = Some x ->
    x <> [] /\ Forall (fun a => labelChar a = true) x /\ matches r x.

(** The texts that [versionRegex] matches: characters that are no digits,
    then a digit, then characters that are no newlines. *)
Definition lenientSyntax (s : string) : Prop :=
  exists pre d rest,
    list_ascii_of_string s = (pre ++ d :: rest)%list
    /\ Forall (fun a => nonDigit a = true) pre
    /\ digit d = true
    /\ Forall (fun a => anyChar a = true) rest.

(** *** Parsing and rendering *)

(** The error of a component that does not fit in [uint64]. *)
Definition rangeError (e : error) : Prop :=
  exists name, (name = "major" \/ name = "minor" \/ name = "patch")
               /\ e = ErrComponent name ErrRange.

(** The text of a label, when the label is not empty. *)
Definition labelText (s : string) : option (list ascii) :=
  if (s =? "")%string then None else Some (list_ascii_of_string s).

(** A component of a submatch: absent when the submatch is empty. *)
Definition readComponent (x : string) (o : option Z) : Prop :=
  match o with
  | None => x = ""
  | Some u => x <> "" /\ strconv.ParseUint x = Ok u
  end.

(** The numeral of a component that is present. *)
Definition numeralOf (o : option Z) : option (list ascii) :=
  match o with
  | Some u => Some (list_ascii_of_string (strconv.FormatUint u))
  | None => None
  end.

(** The labels that [ParseVersion] reads back: a pre-release label without
    [+] and newline, build metadata without newline. *)
Definition plainLabels (v : Version) : Prop :=
  Forall (fun a => notPlusNewline a = true) (list_ascii_of_string (preRelease v))
  /\ Forall (fun a => anyChar a = true) (list_ascii_of_string (buildMetadata v)).

(** The labels of a version are made of characters between [-] and [z]. *)
Definition labelled (v : Version) : Prop :=
  Forall (fun a => labelChar a = true) (list_ascii_of_string (preRelease v))
  /\ Forall (fun a => labelChar a = true) (list_ascii_of_string (buildMetadata v)).

(** A constraint that [ParseConstraint] reads back from its rendering. *)
Definition printable (c : Constraint) : Prop :=
  In (operator c) operators /\ wellFormed (version c) = true
  /\ inRangeVersion (version c) /\ labelled (version c).

(** A constraint on a version with its three components and no label. *)
Definition onTriple (c : Constraint) : Prop :=
  exists op ma mi pa,
    c = NewConstraint op (NewVersion ma mi pa)
    /\ In op operators
    /\ U64.inRange ma /\ U64.inRange mi /\ U64.inRange pa.

(** *** Helpers of the examples of the constraint parsers *)

Definition strictStringOfConstraint (c : outcome Constraint) : option string :=
  match c with
  | Done c => match Constraint_StrictString c with
              | Done s => Some s
              | Failed _ => None
              end
  | Failed _ => None
  end.

Definition strictStringOfSet (cs : outcome Constraints) : option string :=
  match cs with
  | Done cs => match Constraints_StrictString cs with
               | Done s => Some s
               | Failed _ => None
               end
  | Failed _ => None
  end.

(** * Properties *)

(** ** The order on versions *)

Section VersionOrder.

Lemma string_ltb_asym (s1 s2 : string) :
  (s1 <? s2)%string = true -> (s2 <? s1)%string = false.
Proof.
  unfold String.ltb. rewrite (String.compare_antisym s1 s2).
  now destruct (String.compare s2 s1).
Qed.

Lemma string_ltb_irrefl (s : string) : (s <? s)%string = false.
Proof.
  destruct (s <? s)%string eqn:E; [|reflexivity].
  now rewrite (string_ltb_asym _ _ E) in E.
Qed.

Lemma neq_sym (x y : Z) : neq x y = neq y x.
Proof. unfold neq. now rewrite Z.eqb_sym. Qed.

Lemma Less_irrefl (v : Version) : Less v v = false.
Proof.
  unfold Less, neq. rewrite !Z.eqb_refl. simpl.
  destruct (preRelease v =? "")%string; simpl; auto using string_ltb_irrefl.
Qed.

Lemma Less_asym (a b : Version) : Less a b = true -> Less b a = false.
Proof.
  unfold Less.
  rewrite (neq_sym (Major b)), (neq_sym (Minor b)), (neq_sym (Patch b)).
  unfold neq.
  destruct (Major a =? Major b) eqn:E1; simpl; [|lia].
  destruct (Minor a =? Minor b) eqn:E2; simpl; [|lia].
  destruct (Patch a =? Patch b) eqn:E3; simpl; [|lia].
  destruct (preRelease a =? "")%string, (preRelease b =? "")%string; simpl;
    auto using string_ltb_asym; congruence.
Qed.

(** Since [Less] is asymmetric, the second conjunct of [Greater] adds
    nothing, and [LessEqual] is the negation of the converse of [Less]. *)
Lemma Greater_spec (a b : Version) : Greater a b = Less b a.
Proof.
  unfold Greater.
  destruct (Less b a) eqn:E; simpl; [|reflexivity].
  now rewrite (Less_asym _ _ E).
Qed.

Lemma LessEqual_spec (a b : Version) : LessEqual a b = negb (Less b a).
Proof. unfold LessEqual. now rewrite Greater_spec. Qed.

Lemma Equal_refl (v : Version) : Equal v v = true.
Proof. unfold Equal. now rewrite Less_irrefl. Qed.

End VersionOrder.

(** C7.  For all versions [a] and [b], exactly one of [Less a b],
    [Equal a b] and [Greater a b] holds, where [Equal] and [Greater] are
    the combinations of [Less] that the source gives: [Equal a b] is
    [!Less a b && !Less b a] and [Greater a b] is [Less b a && !Less a b]. *)
Theorem Less_Equal_Greater_exactly_one (a b : Version) :
  Equal a b = negb (Less a b) && negb (Less b a)
  /\ Greater a b = Less b a && negb (Less a b)
  /\ ((Less a b = true /\ Equal a b = false /\ Greater a b = false)
      \/ (Less a b = false /\ Equal a b = true /\ Greater a b = false)
      \/ (Less a b = false /\ Equal a b = false /\ Greater a b = true)).
Proof.
  split; [reflexivity|]. split; [reflexivity|].
  unfold Equal, Greater.
  destruct (Less a b) eqn:Hab, (Less b a) eqn:Hba; simpl; auto.
Qed.

(** ** Satisfaction and overlap *)

Section Pessimistic.

Lemma wellFormed_IncrementPessimistic (v : Version) :
  wellFormed v = true -> exists next, IncrementPessimistic v = Some next.
Proof.
  unfold wellFormed, IncrementPessimistic; simpl.
  destruct (patch v), (minor v); intros H; try discriminate; eauto.
Qed.

Lemma IncrementPessimistic_panics_iff (v : Version) :
  IncrementPessimistic v = None <-> wellFormed v = false.
Proof.
  unfold wellFormed, IncrementPessimistic; simpl.
  destruct (patch v), (minor v); split; intros H; try discriminate; auto.
Qed.

Lemma Satisfies_GEPessimistic (v : Version) (c : Constraint) :
  operator c = GEPessimistic ->
  Satisfies v c =
    if GreaterEqual v (version c) then
      match IncrementPessimistic (version c) with
      | Some next => Some (Less v next)
      | None => None
      end
    else Some false.
Proof. intros H. unfold Satisfies. rewrite H. reflexivity. Qed.

End Pessimistic.

(** C1.  For a constraint [c] with operator [~>], [Satisfies v c] returns
    true exactly when [v >= c.version] and [v < c.version.IncrementPessimistic()];
    it returns (does not panic) whenever the version of [c] keeps the
    invariant of the data model.  In particular 1.8.999 satisfies [~> 1.8.0]
    and 1.2.3 does not satisfy [~> 1.3.0]. *)
Theorem Satisfies_pessimistic_range (v : Version) (c : Constraint) :
  operator c = GEPessimistic ->
  (Satisfies v c = Some true <->
   GreaterEqual v (version c) = true /\
   exists next, IncrementPessimistic (version c) = Some next /\ Less v next = true)
  /\ (wellFormed (version c) = true ->
      exists next, IncrementPessimistic (version c) = Some next /\
        Satisfies v c = Some (GreaterEqual v (version c) && Less v next))
  /\ Satisfies (NewVersion 1 8 999) (NewConstraint GEPessimistic (NewVersion 1 8 0))
     = Some true
  /\ Satisfies (NewVersion 1 2 3) (NewConstraint GEPessimistic (NewVersion 1 3 0))
     = Some false.
Proof.
  intros Hop. rewrite (Satisfies_GEPessimistic _ _ Hop).
  repeat split.
  - destruct (GreaterEqual v (version c)); [reflexivity|discriminate].
  - destruct (GreaterEqual v (version c)); [|discriminate].
    destruct (IncrementPessimistic (version c)) as [next|]; [|discriminate].
    exists next. split; [reflexivity|congruence].
  - intros [Hge (next & Hnext & Hlt)]. now rewrite Hge, Hnext, Hlt.
  - intros Hwf. destruct (wellFormed_IncrementPessimistic _ Hwf) as [next Hnext].
    exists next. split; [assumption|]. rewrite Hnext.
    now destruct (GreaterEqual v (version c)).
Qed.

Lemma Satisfies_pessimistic_range_witness :
  operator (NewConstraint GEPessimistic (NewVersion 1 8 0)) = GEPessimistic
  /\ (Satisfies (NewVersion 1 8 999) (NewConstraint GEPessimistic (NewVersion 1 8 0))
      = Some true <->
      GreaterEqual (NewVersion 1 8 999) (NewVersion 1 8 0) = true /\
      exists next, IncrementPessimistic (NewVersion 1 8 0) = Some next
                   /\ Less (NewVersion 1 8 999) next = true).
Proof.
  split; [reflexivity|].
  apply (Satisfies_pessimistic_range (NewVersion 1 8 999)
           (NewConstraint GEPessimistic (NewVersion 1 8 0))).
  reflexivity.
Defined.

(** C4, as the specification states it, fails: [> 2.0.0] and [> 1.9.9]
    (a case of [TestCheckOverlap]) do not overlap although the version of
    the second is less than or equal to the version of the first. *)
Lemma Overlaps_GT_other_le_this_counterexample :
  operator (NewConstraint GT (NewVersion 2 0 0)) = GT
  /\ LessEqual (version (NewConstraint GT (NewVersion 1 9 9)))
               (version (NewConstraint GT (NewVersion 2 0 0))) = true
  /\ Overlaps (NewConstraint GT (NewVersion 2 0 0))
              (NewConstraint GT (NewVersion 1 9 9)) = Some false.
Proof. repeat split. Qed.

(** C4, amended.  For every constraint [c1] whose operator is [>] and every
    constraint [c2], [Overlaps c1 c2] returns true if and only if the
    version of [c1] is less than or equal to the version of [c2] (this
    version <= the other's version), that is, unless the version of [c2]
    is less than the version of [c1]. *)
Theorem Overlaps_GT_this_le_other (c1 c2 : Constraint) :
  operator c1 = GT ->
  Overlaps c1 c2 = Some (LessEqual (version c1) (version c2))
  /\ (Overlaps c1 c2 = Some true <-> Less (version c2) (version c1) = false).
Proof.
  intros Hop.
  assert (H : Overlaps c1 c2 = Some (LessEqual (version c1) (version c2))).
  { unfold Overlaps. rewrite Hop. reflexivity. }
  split; [exact H|]. rewrite H, LessEqual_spec.
  destruct (Less (version c2) (version c1)); simpl; split; congruence.
Qed.

Lemma Overlaps_GT_this_le_other_witness :
  operator (NewConstraint GT (NewVersion 2 0 0)) = GT
  /\ Overlaps (NewConstraint GT (NewVersion 2 0 0))
       (NewConstraint LT (NewVersion 1 9 9))
     = Some (LessEqual (NewVersion 2 0 0) (NewVersion 1 9 9)).
Proof.
  split; [reflexivity|].
  apply (Overlaps_GT_this_le_other (NewConstraint GT (NewVersion 2 0 0))
           (NewConstraint LT (NewVersion 1 9 9))).
  reflexivity.
Defined.

(** C5.  For a [>=] constraint [g] and a [~>] constraint [p], [Overlaps]
    in either argument order returns true exactly when
    [g.version >= p.version] and [g.version < p.version.Increment()].
    [Increment] bumps the rightmost component that is present: on 1.2.0 it
    gives 1.2.1, so [>= 1.2.5] and [~> 1.2.0] do not overlap, although
    1.2.5 satisfies [~> 1.2.0], whose bound is the pessimistic 1.3.0. *)
Theorem Overlaps_GE_pessimistic_plain_increment (g p : Constraint) :
  operator g = GE -> operator p = GEPessimistic ->
  Overlaps g p = Some (GreaterEqual (version g) (version p)
                       && Less (version g) (Increment (version p)))
  /\ Overlaps p g = Some (GreaterEqual (version g) (version p)
                          && Less (version g) (Increment (version p)))
  /\ (forall a b c, Increment (NewVersion a b c) = NewVersion a b (U64.succ c))
  /\ Overlaps (NewConstraint GE (NewVersion 1 2 5))
              (NewConstraint GEPessimistic (NewVersion 1 2 0)) = Some false
  /\ Satisfies (NewVersion 1 2 5)
              (NewConstraint GEPessimistic (NewVersion 1 2 0)) = Some true.
Proof.
  intros Hg Hp. unfold Overlaps. rewrite Hg, Hp. repeat split.
Qed.

Lemma Overlaps_GE_pessimistic_plain_increment_witness :
  operator (NewConstraint GE (NewVersion 1 2 3)) = GE
  /\ operator (NewConstraint GEPessimistic (NewVersion 1 2 3)) = GEPessimistic
  /\ Overlaps (NewConstraint GE (NewVersion 1 2 3))
              (NewConstraint GEPessimistic (NewVersion 1 2 3)) = Some true
  /\ Overlaps (NewConstraint GEPessimistic (NewVersion 1 2 3))
              (NewConstraint GE (NewVersion 1 2 3)) = Some true.
Proof.
  split; [reflexivity|]. split; [reflexivity|].
  pose proof (Overlaps_GE_pessimistic_plain_increment
                (NewConstraint GE (NewVersion 1 2 3))
                (NewConstraint GEPessimistic (NewVersion 1 2 3))
                eq_refl eq_refl) as (H1 & H2 & _).
  split; [exact H1|exact H2].
Defined.

(** ** Contradiction of a pair of constraints *)

Section Operators.

Lemma opEq_sym (o1 o2 : Operator) : opEq o1 o2 = opEq o2 o1.
Proof. apply String.eqb_sym. Qed.

Lemma opEq_false (o1 o2 : Operator) : o1 <> o2 -> opEq o1 o2 = false.
Proof. intros H. now apply String.eqb_neq. Qed.

End Operators.

(** A set of two constraints: the loops make one round. *)
Lemma Contradicts_pair (c1 c2 : Constraint) :
  Contradicts [c1; c2] [] =
    match eitherContradicts c1 c2 with
    | Some true => Some (Some (joinError [ContradictionErr c1 c2]))
    | Some false => Some None
    | None => None
    end.
Proof.
  unfold Contradicts. simpl.
  destruct (eitherContradicts c1 c2) as [[|]|]; reflexivity.
Qed.

Section GreaterAndGreaterEqual.

Variables gt ge : Constraint.
Hypothesis Hgt : operator gt = ">".
Hypothesis Hge : operator ge = ">=".

Lemma checkContradict_GT_GE :
  checkContradict gt ge = Some (negb (LessEqual (version gt) (version ge))).
Proof.
  unfold checkContradict, Overlaps. rewrite Hgt, Hge. simpl.
  now destruct (LessEqual (version gt) (version ge)).
Qed.

Lemma checkContradict_GE_GT :
  checkContradict ge gt =
    Some (negb (Greater (version ge) (version gt))
          && negb (Less (version ge) (version gt))).
Proof.
  unfold checkContradict, Overlaps. rewrite Hgt, Hge. simpl.
  now destruct (Greater (version ge) (version gt)).
Qed.

(** In either order the pair is reported unless the bound of [>] is
    strictly below the bound of [>=]. *)
Lemma eitherContradicts_GT_GE :
  eitherContradicts gt ge = Some (negb (Less (version gt) (version ge)))
  /\ eitherContradicts ge gt = Some (negb (Less (version gt) (version ge))).
Proof.
  unfold eitherContradicts.
  rewrite checkContradict_GT_GE, checkContradict_GE_GT.
  rewrite LessEqual_spec, Greater_spec, negb_involutive.
  destruct (Less (version gt) (version ge)) eqn:E1; simpl.
  - rewrite (Less_asym _ _ E1). auto.
  - destruct (Less (version ge) (version gt)); auto.
Qed.

End GreaterAndGreaterEqual.

(** C2, as the specification states it, fails: in the set
    [{>= 1.0.0, > 1.0.0}] the bound of [>] is less than or equal to the
    bound of [>=], and the pair is reported (the case
    [Test_greater_than_greater_than_equals_sad] of the test suite expects
    the error for equal bounds). *)
Lemma Contradicts_GT_GE_equal_bounds_counterexample :
  operator (NewConstraint ">" (NewVersion 1 0 0)) = ">"
  /\ operator (NewConstraint ">=" (NewVersion 1 0 0)) = ">="
  /\ LessEqual (version (NewConstraint ">" (NewVersion 1 0 0)))
               (version (NewConstraint ">=" (NewVersion 1 0 0))) = true
  /\ Contradicts [NewConstraint ">=" (NewVersion 1 0 0);
                  NewConstraint ">" (NewVersion 1 0 0)] []
     = Some (Some (joinError
                     [ContradictionErr (NewConstraint ">=" (NewVersion 1 0 0))
                                       (NewConstraint ">" (NewVersion 1 0 0))])).
Proof. repeat split. Qed.

(** C2, amended.  For a [>] constraint and a [>=] constraint, in either
    order, if the version of the [>] constraint is strictly less than the
    version of the [>=] constraint then [checkContradict] is false in both
    argument orders and [Contradicts] reports no contradiction for the
    pair. *)
Theorem Contradicts_GT_GE_strictly_below (gt ge : Constraint) :
  operator gt = ">" -> operator ge = ">=" ->
  Less (version gt) (version ge) = true ->
  checkContradict gt ge = Some false
  /\ checkContradict ge gt = Some false
  /\ Contradicts [gt; ge] [] = Some None
  /\ Contradicts [ge; gt] [] = Some None.
Proof.
  intros Hgt Hge Hlt.
  destruct (eitherContradicts_GT_GE _ _ Hgt Hge) as [H1 H2].
  rewrite Hlt in H1, H2. simpl in H1, H2.
  rewrite !Contradicts_pair, H1, H2.
  rewrite (checkContradict_GT_GE _ _ Hgt Hge), (checkContradict_GE_GT _ _ Hgt Hge).
  rewrite LessEqual_spec, Greater_spec, Hlt, (Less_asym _ _ Hlt). auto.
Qed.

Lemma Contradicts_GT_GE_strictly_below_witness :
  operator (NewConstraint ">" (NewVersion 1 2 0)) = ">"
  /\ operator (NewConstraint ">=" (NewVersion 1 2 1)) = ">="
  /\ Less (NewVersion 1 2 0) (NewVersion 1 2 1) = true
  /\ Contradicts [NewConstraint ">" (NewVersion 1 2 0);
                  NewConstraint ">=" (NewVersion 1 2 1)] [] = Some None.
Proof.
  split; [reflexivity|]. split; [reflexivity|]. split; [reflexivity|].
  apply (Contradicts_GT_GE_strictly_below (NewConstraint ">" (NewVersion 1 2 0))
           (NewConstraint ">=" (NewVersion 1 2 1))); reflexivity.
Defined.

Section NotEqual.

Variables a b : Constraint.
Hypothesis Ha : operator a = "!=".

Lemma checkContradict_NE_l :
  operator b <> "!=" -> checkContradict a b = Satisfies (version a) b.
Proof.
  intros Hb. unfold checkContradict. rewrite Ha.
  rewrite (opEq_sym "!=" (operator b)), (opEq_false _ _ Hb). reflexivity.
Qed.

Lemma checkContradict_NE_r :
  operator b <> "!=" -> checkContradict b a = Satisfies (version a) b.
Proof.
  intros Hb. unfold checkContradict. rewrite Ha, (opEq_false _ _ Hb).
  simpl. rewrite !andb_false_r. reflexivity.
Qed.

Lemma eitherContradicts_NE :
  operator b <> "!=" ->
  eitherContradicts a b = Satisfies (version a) b
  /\ eitherContradicts b a = Satisfies (version a) b.
Proof.
  intros Hb. unfold eitherContradicts.
  rewrite (checkContradict_NE_l Hb), (checkContradict_NE_r Hb).
  now destruct (Satisfies (version a) b) as [[|]|].
Qed.

(** The first case of [checkContradict] answers for two [!=] constraints
    on equal versions, the fourth for the others. *)
Lemma checkContradict_NE_NE :
  operator b = "!=" ->
  checkContradict a b = Some false /\ checkContradict b a = Some false.
Proof.
  intros Hb. unfold checkContradict. rewrite Ha, Hb. simpl.
  destruct (Equal (version a) (version b)) eqn:E1;
    destruct (Equal (version b) (version a)) eqn:E2; auto.
Qed.

End NotEqual.

(** C3, as the specification states it, fails in both parts.  The version
    of [>= 2.3.4] satisfies [!= 1.2.3], and the pair is not reported (the
    case [Test_not_equals_greater_than_equals] of the test suite expects no
    error); and two [!=] constraints on the same version are not reported
    either. *)
Lemma Contradicts_NE_other_satisfies_counterexample :
  (operator (NewConstraint "!=" (NewVersion 1 2 3)) = "!="
   /\ operator (NewConstraint ">=" (NewVersion 2 3 4)) <> "!="
   /\ Satisfies (version (NewConstraint ">=" (NewVersion 2 3 4)))
                (NewConstraint "!=" (NewVersion 1 2 3)) = Some true
   /\ Contradicts [NewConstraint "!=" (NewVersion 1 2 3);
                   NewConstraint ">=" (NewVersion 2 3 4)] [] = Some None)
  /\ (Equal (version (NewConstraint "!=" (NewVersion 1 2 3)))
            (version (NewConstraint "!=" (NewVersion 1 2 3))) = true
      /\ Contradicts [NewConstraint "!=" (NewVersion 1 2 3);
                      NewConstraint "!=" (NewVersion 1 2 3)] [] = Some None).
Proof. repeat split. discriminate. Qed.

(** C3, amended.  For a pair of constraints in which exactly one has
    operator [!=], a contradiction is reported if and only if the version
    of the [!=] constraint satisfies the other constraint; for a pair in
    which both operators are [!=], no contradiction is reported. *)
Theorem Contradicts_NE_own_version_satisfies (a b : Constraint) :
  operator a = "!=" ->
  (operator b <> "!=" ->
   eitherContradicts a b = Satisfies (version a) b
   /\ eitherContradicts b a = Satisfies (version a) b
   /\ ((exists e, Contradicts [a; b] [] = Some (Some e))
       <-> Satisfies (version a) b = Some true)
   /\ ((exists e, Contradicts [b; a] [] = Some (Some e))
       <-> Satisfies (version a) b = Some true)
   /\ (Contradicts [a; b] [] = Some None <-> Satisfies (version a) b = Some false)
   /\ (Contradicts [b; a] [] = Some None <-> Satisfies (version a) b = Some false))
  /\ (operator b = "!=" ->
      eitherContradicts a b = Some false
      /\ Contradicts [a; b] [] = Some None).
Proof.
  intros Ha. split.
  - intros Hb. destruct (eitherContradicts_NE a b Ha Hb) as [H1 H2].
    rewrite !Contradicts_pair, H1, H2.
    repeat split; trivial;
      destruct (Satisfies (version a) b) as [[|]|];
      try congruence; try (intros [e He]; congruence); eauto.
  - intros Hb. destruct (checkContradict_NE_NE a b Ha Hb) as [H1 H2].
    assert (H : eitherContradicts a b = Some false).
    { unfold eitherContradicts. now rewrite H1, H2. }
    rewrite Contradicts_pair, H. auto.
Qed.

Lemma Contradicts_NE_own_version_satisfies_witness :
  operator (NewConstraint "!=" (NewVersion 1 2 3)) = "!="
  /\ operator (NewConstraint ">" (NewVersion 1 2 0)) <> "!="
  /\ eitherContradicts (NewConstraint "!=" (NewVersion 1 2 3))
       (NewConstraint ">" (NewVersion 1 2 0))
     = Satisfies (NewVersion 1 2 3) (NewConstraint ">" (NewVersion 1 2 0)).
Proof.
  split; [reflexivity|]. split; [discriminate|].
  destruct (Contradicts_NE_own_version_satisfies
              (NewConstraint "!=" (NewVersion 1 2 3))
              (NewConstraint ">" (NewVersion 1 2 0)) eq_refl) as [H _].
  assert (Hb : operator (NewConstraint ">" (NewVersion 1 2 0)) <> "!=")
    by discriminate.
  exact (proj1 (H Hb)).
Defined.

(** ** [Contradicts] on a set of constraints *)

Section Pairs.

Lemma elem_of_pairsFrom (n i a b : nat) :
  (a, b) ∈ pairsFrom n i <-> a = i /\ (i < b < n)%nat.
Proof.
  unfold pairsFrom. rewrite list_elem_of_In, in_map_iff. split.
  - intros (j & Heq & Hin). apply in_seq in Hin. inversion Heq; subst. lia.
  - intros [-> H]. exists b. split; [reflexivity|]. apply in_seq. lia.
Qed.

Lemma NoDup_pairsFrom (n i : nat) : NoDup (pairsFrom n i).
Proof. unfold pairsFrom. apply (NoDup_fmap_2 (pair i)), NoDup_seq. Qed.

Lemma elem_of_flat_pairsFrom (n i k a b : nat) :
  (a, b) ∈ flat_map (pairsFrom n) (seq i k) <->
  (i <= a < i + k)%nat /\ (a < b < n)%nat.
Proof.
  rewrite list_elem_of_In, in_flat_map. split.
  - intros (x & Hx & Hin). apply in_seq in Hx.
    apply list_elem_of_In, elem_of_pairsFrom in Hin. lia.
  - intros [H1 H2]. exists a. split; [apply in_seq; lia|].
    apply list_elem_of_In, elem_of_pairsFrom. lia.
Qed.

Lemma NoDup_flat_pairsFrom (n k i : nat) :
  NoDup (flat_map (pairsFrom n) (seq i k)).
Proof.
  revert i. induction k as [|k IH]; intros i; simpl; [constructor|].
  apply NoDup_app. split; [apply NoDup_pairsFrom|]. split; [|apply IH].
  intros [a b] H1 H2.
  apply elem_of_pairsFrom in H1. apply elem_of_flat_pairsFrom in H2. lia.
Qed.

(** Every pair of positions [i < j] is listed, once. *)
Lemma indexPairs_each_once (n : nat) :
  NoDup (indexPairs n)
  /\ forall i j, (i, j) ∈ indexPairs n <-> (i < j < n)%nat.
Proof.
  split; [apply NoDup_flat_pairsFrom|].
  intros i j. unfold indexPairs. rewrite elem_of_flat_pairsFrom. lia.
Qed.

Lemma pairAt_defined (all : Constraints) (i j : nat) :
  (i, j) ∈ indexPairs (length all) -> is_Some (pairAt all (i, j)).
Proof.
  intros H. apply indexPairs_each_once in H. unfold pairAt. simpl.
  destruct (lookup_lt_is_Some_2 all i ltac:(lia)) as [c1 ->].
  destruct (lookup_lt_is_Some_2 all j ltac:(lia)) as [c2 ->].
  eauto.
Qed.

Lemma omap_defined_length {A B} (f : A -> option B) (l : list A) :
  (forall x, x ∈ l -> is_Some (f x)) -> length (omap f l) = length l.
Proof.
  induction l as [|x l IH]; intros H; simpl; [reflexivity|].
  destruct (H x ltac:(left)) as [y ->]. simpl. f_equal.
  apply IH. intros z Hz. apply H. now right.
Qed.

(** No pair of positions is lost when the constraints are looked up. *)
Lemma examined_length (all : Constraints) :
  length (omap (pairAt all) (indexPairs (length all)))
  = length (indexPairs (length all)).
Proof. apply omap_defined_length. intros [i j]. apply pairAt_defined. Qed.

Lemma pairAt_elem_of (all : Constraints) (ps : list (nat * nat)) (c1 c2 : Constraint) :
  (c1, c2) ∈ omap (pairAt all) ps -> c1 ∈ all /\ c2 ∈ all.
Proof.
  rewrite list_elem_of_omap. intros ([i j] & _ & H). unfold pairAt in H. simpl in H.
  destruct (all !! i) eqn:E1, (all !! j) eqn:E2; try discriminate.
  inversion H; subst. eauto using list_elem_of_lookup_2.
Qed.

End Pairs.

Section Loops.

Variable allConstraints : Constraints.

Lemma recordAll_app (ps qs : list (Constraint * Constraint)) (err : option goError) :
  recordAll (ps ++ qs) err =
    match recordAll ps err with
    | Some err' => recordAll qs err'
    | None => None
    end.
Proof.
  revert err. induction ps as [|p ps IH]; intros err; simpl; [reflexivity|].
  destruct (record err p); [apply IH|reflexivity].
Qed.

(** The inner loop started at [j] with [n] rounds to go visits the pairs
    [(i, j)], ..., [(i, j + n - 1)]. *)
Lemma innerLoop_recordAll (i n j : nat) (err : option goError) :
  (i < length allConstraints)%nat -> (j + n <= length allConstraints)%nat ->
  innerLoop allConstraints i n j err =
    recordAll (omap (pairAt allConstraints) (map (pair i) (seq j n))) err.
Proof.
  intros Hi. revert j err. induction n as [|n IH]; intros j err Hj.
  - reflexivity.
  - cbn [innerLoop seq map].
    destruct (lookup_lt_is_Some_2 allConstraints i Hi) as [c1 Hc1].
    destruct (lookup_lt_is_Some_2 allConstraints j ltac:(lia)) as [c2 Hc2].
    rewrite Hc1, Hc2.
    assert (Hp : pairAt allConstraints (i, j) = Some (c1, c2)).
    { unfold pairAt. simpl. now rewrite Hc1, Hc2. }
    cbn [omap list_omap]. rewrite Hp. cbn [recordAll]. unfold record. simpl.
    destruct (eitherContradicts c1 c2) as [[|]|]; try reflexivity;
      apply IH; lia.
Qed.

Lemma outerLoop_recordAll (n i : nat) (err : option goError) :
  (i + n <= length allConstraints)%nat ->
  outerLoop allConstraints n i err =
    recordAll (omap (pairAt allConstraints)
                 (flat_map (pairsFrom (length allConstraints)) (seq i n))) err.
Proof.
  revert i err. induction n as [|n IH]; intros i err Hi; simpl.
  - reflexivity.
  - rewrite omap_app, recordAll_app.
    unfold pairsFrom at 1.
    rewrite <- innerLoop_recordAll by lia.
    destruct (innerLoop _ _ _ _ _); [|reflexivity].
    apply IH. lia.
Qed.

End Loops.

Lemma flatten_sets (c : Constraints) (additional : list Constraints) :
  fold_left (fun acc set => (acc ++ set)%list) additional c
  = (c ++ concat additional)%list.
Proof.
  revert c. induction additional as [|a l IH]; intros c; simpl.
  - now rewrite app_nil_r.
  - now rewrite IH, app_assoc.
Qed.

(** [Contradicts] is one round per pair of positions of the flattened
    sequence. *)
Lemma Contradicts_recordAll (c : Constraints) (additional : list Constraints) :
  Contradicts c additional =
    recordAll (omap (pairAt (c ++ concat additional)%list)
                 (indexPairs (length (c ++ concat additional)%list))) None.
Proof.
  unfold Contradicts. simpl. rewrite flatten_sets.
  now rewrite outerLoop_recordAll by lia.
Qed.

Lemma contradictions_Join (err : option goError) (c1 c2 : Constraint) :
  contradictions (Join [err; Some (ContradictionErr c1 c2)])
  = (contradictions err ++ [(c1, c2)])%list
  /\ Join [err; Some (ContradictionErr c1 c2)] <> None.
Proof. destruct err; simpl; split; try discriminate; now rewrite ?app_nil_r. Qed.

Lemma recordAll_contradictions (ps : list (Constraint * Constraint))
  (err err' : option goError) :
  recordAll ps err = Some err' ->
  contradictions err' = (contradictions err ++ List.filter contradictory ps)%list
  /\ (err' = None <-> err = None /\ List.filter contradictory ps = []).
Proof.
  revert err. induction ps as [|[c1 c2] ps IH]; intros err; simpl.
  - intros [= <-]. rewrite app_nil_r. tauto.
  - change (contradictory (c1, c2)) with
      (match eitherContradicts c1 c2 with Some true => true | _ => false end).
    unfold record. simpl.
    destruct (eitherContradicts c1 c2) as [[|]|]; [| |discriminate].
    + intros H. apply IH in H as [H1 H2].
      destruct (contradictions_Join err c1 c2) as [E1 E2].
      rewrite H1, E1, <- app_assoc. split; [reflexivity|].
      rewrite H2. split; [intros [? _]; contradiction|intros [_ ?]; discriminate].
    + intros H. apply IH in H as [H1 H2]. now rewrite H1, H2.
Qed.

Section Defined.

Lemma Satisfies_defined (v : Version) (c : Constraint) :
  wellFormed (version c) = true -> is_Some (Satisfies v c).
Proof.
  intros Hwf. unfold Satisfies.
  destruct (wellFormed_IncrementPessimistic _ Hwf) as [next ->].
  repeat match goal with
         | |- context [if ?b then _ else _] => destruct b
         end; eauto.
Qed.

Lemma Overlaps_defined (c c2 : Constraint) :
  wellFormed (version c2) = true -> is_Some (Overlaps c c2).
Proof.
  intros Hwf. unfold Overlaps.
  destruct (Satisfies_defined (version c) c2 Hwf) as [b ->].
  repeat match goal with
         | |- context [if ?b then _ else _] => destruct b
         end; eauto.
Qed.

Lemma checkContradict_defined (c1 c2 : Constraint) :
  wellFormed (version c1) = true -> wellFormed (version c2) = true ->
  is_Some (checkContradict c1 c2).
Proof.
  intros H1 H2. unfold checkContradict.
  destruct (Satisfies_defined (version c1) c2 H2) as [b1 ->].
  destruct (Satisfies_defined (version c2) c1 H1) as [b2 ->].
  destruct (Overlaps_defined c1 c2 H2) as [b3 ->].
  repeat match goal with
         | |- context [if ?b then _ else _] => destruct b
         end; eauto.
Qed.

Lemma eitherContradicts_defined (c1 c2 : Constraint) :
  wellFormed (version c1) = true -> wellFormed (version c2) = true ->
  is_Some (eitherContradicts c1 c2)
  /\ (eitherContradicts c1 c2 = Some true <->
      checkContradict c1 c2 = Some true \/ checkContradict c2 c1 = Some true).
Proof.
  intros H1 H2. unfold eitherContradicts.
  destruct (checkContradict_defined c1 c2 H1 H2) as [[|] ->];
    destruct (checkContradict_defined c2 c1 H2 H1) as [[|] ->];
    split; eauto; split; auto; intros [?|?]; congruence.
Qed.

Lemma recordAll_defined (ps : list (Constraint * Constraint)) (err : option goError) :
  Forall (fun p => wellFormed (version p.1) = true
                   /\ wellFormed (version p.2) = true) ps ->
  is_Some (recordAll ps err).
Proof.
  intros H. revert err. induction H as [|[c1 c2] ps [H1 H2] _ IH]; intros err; simpl.
  - eauto.
  - unfold record. simpl in *.
    destruct (eitherContradicts_defined c1 c2 H1 H2) as [[[|] ->] _]; apply IH.
Qed.

End Defined.

(** C6.  [Contradicts] flattens the receiver and the additional sets into
    one sequence [all]; the pairs it examines are those at the positions
    [i < j] of [all], each once; a pair is marked contradictory exactly when
    [checkContradict] holds in one of the two argument orders; the result
    is [nil] exactly when no pair is contradictory, and otherwise the tree
    of joined errors holds, in order, one [ContradictionErr] with both
    constraints for every contradictory pair.  [{>= 2.0.0, < 2.0.0}] yields
    that one pair and [{>= 2.0.0, <= 3.0.0}] yields [nil]. *)
Theorem Contradicts_reports_every_contradictory_pair
  (c : Constraints) (additional : list Constraints) :
  let all := (c ++ concat additional)%list in
  let examined := omap (pairAt all) (indexPairs (length all)) in
  (NoDup (indexPairs (length all))
   /\ (forall i j, (i, j) ∈ indexPairs (length all) <-> (i < j < length all)%nat)
   /\ length examined = length (indexPairs (length all)))
  /\ (forall err, Contradicts c additional = Some err ->
        contradictions err = List.filter contradictory examined
        /\ (err = None <-> List.filter contradictory examined = []))
  /\ (wellFormedAll all ->
      (exists err, Contradicts c additional = Some err)
      /\ forall c1 c2, c1 ∈ all -> c2 ∈ all ->
           (contradictory (c1, c2) = true <->
            checkContradict c1 c2 = Some true \/ checkContradict c2 c1 = Some true))
  /\ (exists e,
        Contradicts [NewConstraint ">=" (NewVersion 2 0 0);
                     NewConstraint "<" (NewVersion 2 0 0)] [] = Some (Some e)
        /\ contradictionsOf e = [(NewConstraint ">=" (NewVersion 2 0 0),
                                  NewConstraint "<" (NewVersion 2 0 0))])
  /\ Contradicts [NewConstraint ">=" (NewVersion 2 0 0);
                  NewConstraint "<=" (NewVersion 3 0 0)] [] = Some None.
Proof.
  intros all examined.
  split; [split; [|split]; [apply indexPairs_each_once..|apply examined_length]|].
  split; [|split; [|split; [eexists; split; reflexivity|reflexivity]]].
  - intros err H. rewrite Contradicts_recordAll in H.
    apply recordAll_contradictions in H as [H1 H2]. simpl in H1.
    split; [exact H1|]. rewrite H2. tauto.
  - intros Hwf. split.
    + rewrite Contradicts_recordAll. apply recordAll_defined.
      apply Forall_forall. intros [c1 c2] Hin.
      apply pairAt_elem_of in Hin as [H1 H2].
      unfold wellFormedAll in Hwf. rewrite Forall_forall in Hwf. simpl. auto.
    + intros c1 c2 H1 H2. unfold wellFormedAll in Hwf. rewrite Forall_forall in Hwf.
      destruct (eitherContradicts_defined c1 c2 (Hwf _ H1) (Hwf _ H2)) as [[b Hb] Hiff].
      rewrite <- Hiff. unfold contradictory. simpl. rewrite Hb.
      destruct b; split; congruence.
Qed.

Lemma Contradicts_reports_every_contradictory_pair_witness :
  wellFormedAll ([NewConstraint ">=" (NewVersion 2 0 0)]
                 ++ concat [[NewConstraint "<" (NewVersion 2 0 0)]])%list
  /\ exists err, Contradicts [NewConstraint ">=" (NewVersion 2 0 0)]
                   [[NewConstraint "<" (NewVersion 2 0 0)]] = Some err.
Proof.
  assert (Hwf : wellFormedAll
                  ([NewConstraint ">=" (NewVersion 2 0 0)]
                   ++ concat [[NewConstraint "<" (NewVersion 2 0 0)]])%list)
    by (repeat constructor).
  split; [exact Hwf|].
  destruct (Contradicts_reports_every_contradictory_pair
              [NewConstraint ">=" (NewVersion 2 0 0)]
              [[NewConstraint "<" (NewVersion 2 0 0)]])
    as (_ & _ & Htotal & _).
  exact (proj1 (Htotal Hwf)).
Defined.

(** ** Copies in the store *)

Section WeakestPrecondition.

Import Ptr.

Lemma wp_ret {A} (a : A) h (Q : A -> heap -> Prop) : Q a h -> wp (ret a) h Q.
Proof. intros H. exists a, h. auto. Qed.

Lemma wp_bind {A B} (m : M A) (f : A -> M B) h (Q : B -> heap -> Prop) :
  wp m h (fun a h1 => wp (f a) h1 Q) -> wp (bind m f) h Q.
Proof.
  intros (a & h1 & Hm & (b & h2 & Hf & HQ)). exists b, h2.
  unfold bind. rewrite Hm. auto.
Qed.

(** The location that [new] returns is not in the store. *)
Lemma wp_new (x : Z) h (Q : loc -> heap -> Prop) :
  (forall l, h !! l = None -> Q l (<[l:=x]> h)) -> wp (new x) h Q.
Proof.
  intros H. eexists _, _. split; [reflexivity|].
  apply H, not_elem_of_dom, is_fresh.
Qed.

Lemma wp_load (l : loc) (x : Z) h (Q : Z -> heap -> Prop) :
  h !! l = Some x -> Q x h -> wp (load l) h Q.
Proof. intros Hl H. exists x, h. unfold load. rewrite Hl. auto. Qed.

Lemma wp_store (l : loc) (x : Z) h (Q : unit -> heap -> Prop) :
  is_Some (h !! l) -> Q tt (<[l:=x]> h) -> wp (store l x) h Q.
Proof. intros [y Hl] H. eexists _, _. unfold store. rewrite Hl. auto. Qed.

End WeakestPrecondition.

(** What is known of the locations: one that was not in the store before
    an insertion is not the inserted one. *)
Ltac heap_facts :=
  repeat match goal with
         | H : <[_:=_]> _ !! _ = None |- _ =>
             apply lookup_insert_None in H; destruct H
         end.

Ltac heap_lookup :=
  heap_facts;
  repeat first
    [ rewrite lookup_insert_eq
    | rewrite lookup_insert_ne by congruence ];
  try (eauto; congruence).

(** One statement of a computation in the store. *)
Ltac wp_step :=
  lazymatch goal with
  | |- wp (Ptr.bind _ _) _ _ => apply wp_bind
  | |- wp (Ptr.ret _) _ _ => apply wp_ret
  | |- wp (Ptr.new _) _ _ => apply wp_new; intros ? ?
  | |- wp (Ptr.load _) _ _ => eapply wp_load; [solve [heap_lookup]|]
  | |- wp (Ptr.store _ _) _ _ => apply wp_store; [solve [heap_lookup]|]
  | |- wp (Ptr.clone _) _ _ => unfold Ptr.clone
  | |- wp _ _ _ =>
      progress cbn [Ptr.minor Ptr.patch Ptr.major Ptr.preRelease
                    Ptr.buildMetadata Ptr.with_major Ptr.with_minor
                    Ptr.with_patch Ptr.with_preRelease Ptr.with_buildMetadata
                    Ptr.nonnil Ptr.clonePtr Ptr.clone]
  end.

Lemma heap_extends (h h' : Ptr.heap) :
  (forall l x, h !! l = Some x -> h' !! l = Some x) -> h ⊆ h'.
Proof. intros H. now apply map_subseteq_spec. Qed.

Lemma readPtr_extends (h h' : Ptr.heap) (p : option Ptr.loc) (o : option Z) :
  h ⊆ h' -> readPtr h p = Some o -> readPtr h' p = Some o.
Proof.
  rewrite map_subseteq_spec. intros Hsub. unfold readPtr.
  destruct p as [l|]; [|auto].
  destruct (h !! l) as [y|] eqn:E; [|discriminate].
  now rewrite (Hsub _ _ E).
Qed.

(** A version reads the same in a larger store. *)
Lemma read_extends (h h' : Ptr.heap) (v : Ptr.Version) (x : Version) :
  h ⊆ h' -> read h v = Some x -> read h' v = Some x.
Proof.
  intros Hsub. unfold read.
  destruct (readPtr h (Ptr.minor v)) as [mi|] eqn:E1; [|discriminate].
  destruct (readPtr h (Ptr.patch v)) as [pa|] eqn:E2; [|discriminate].
  now rewrite (readPtr_extends _ _ _ _ Hsub E1), (readPtr_extends _ _ _ _ Hsub E2).
Qed.

Lemma returnsCopy_intro (h : Ptr.heap) (v : Ptr.Version) (x expected : Version)
  (m : Ptr.M Ptr.Version) :
  read h v = Some x ->
  wp m h (fun v' h' =>
            h ⊆ h' /\ read h' v' = Some expected
            /\ forall l, pointsTo v' l -> h !! l = None) ->
  returnsCopy h v m expected.
Proof.
  intros Hx (v' & h' & Hm & Hsub & Hread & Hfresh).
  exists v', h'. repeat split; auto.
  - rewrite Hx. eauto using read_extends.
  - intros l Hl Hv. specialize (Hfresh l Hl).
    unfold read, readPtr in Hx.
    destruct Hv as [Hv|Hv]; rewrite Hv in Hx; rewrite Hfresh in Hx;
      [|destruct (Ptr.minor v) as [lm|]; [destruct (h !! lm)|]]; discriminate.
Qed.

(** The three parts of the postcondition of [returnsCopy_intro]. *)
Ltac heap_post :=
  split; [|split];
  [ apply heap_extends; intros; heap_lookup
  | unfold read, readPtr; cbn; heap_lookup
  | unfold pointsTo; cbn; intros ? [?|?]; simplify_eq; heap_lookup ].

Section Frame.

Variables (h : Ptr.heap) (v : Ptr.Version) (x : Version).
Hypothesis Hread : read h v = Some x.

(** By cases on which components of [v] are present. *)
Ltac start :=
  apply (returnsCopy_intro h v x); [exact Hread|];
  revert Hread; destruct v as [ma [lm|] [lp|] pre bm]; unfold read, readPtr; simpl;
  repeat match goal with
         | |- context [h !! ?l] => destruct (h !! l) eqn:?; try discriminate
         end;
  intros [= <-].

Lemma SetPreRelease_copy (s : string) :
  returnsCopy h v (Ptr.SetPreRelease v s) (SetPreRelease x s).
Proof.
  start; unfold Ptr.SetPreRelease; repeat wp_step; heap_post.
Qed.

Lemma SetBuildMetadata_copy (s : string) :
  returnsCopy h v (Ptr.SetBuildMetadata v s) (SetBuildMetadata x s).
Proof.
  start; unfold Ptr.SetBuildMetadata; repeat wp_step; heap_post.
Qed.

Lemma Increment_copy :
  returnsCopy h v (Ptr.Increment v) (Increment x).
Proof.
  start; unfold Ptr.Increment; repeat wp_step; heap_post.
Qed.

Lemma IncrementMajor_copy :
  returnsCopy h v (Ptr.IncrementMajor v) (IncrementMajor x).
Proof.
  start; unfold Ptr.IncrementMajor; repeat wp_step; heap_post.
Qed.

Lemma IncrementMinor_copy :
  returnsCopy h v (Ptr.IncrementMinor v) (IncrementMinor x).
Proof.
  start; unfold Ptr.IncrementMinor; repeat wp_step; heap_post.
Qed.

Lemma IncrementPatch_copy :
  returnsCopy h v (Ptr.IncrementPatch v) (IncrementPatch x).
Proof.
  start; unfold Ptr.IncrementPatch; repeat wp_step; heap_post.
Qed.

Lemma IncrementPessimistic_copy (x' : Version) :
  IncrementPessimistic x = Some x' ->
  returnsCopy h v (Ptr.IncrementPessimistic v) x'.
Proof.
  intros Hx'.
  start; unfold Ptr.IncrementPessimistic; unfold IncrementPessimistic in Hx';
    cbn in Hx'; simplify_eq; repeat wp_step; heap_post.
Qed.

(** The value-level [None] is the panic of the pointer-level function. *)
Lemma IncrementPessimistic_panics :
  IncrementPessimistic x = None -> Ptr.IncrementPessimistic v h = None.
Proof.
  revert Hread. destruct v as [ma [lm|] [lp|] pre bm]; unfold read, readPtr; simpl;
  repeat match goal with
         | |- context [h !! ?l] => destruct (h !! l) eqn:?; try discriminate
         end;
  intros [= <-]; unfold IncrementPessimistic; cbn; try discriminate.
  intros _. unfold Ptr.IncrementPessimistic, Ptr.clone, Ptr.bind; cbn.
  unfold Ptr.bind, Ptr.load, Ptr.new, Ptr.ret, Ptr.store, Ptr.nonnil, Ptr.panic.
  rewrite Heqo. cbn. now rewrite lookup_insert_eq.
Qed.

End Frame.

(** The constructors allocate the two components. *)
Lemma NewVersion_reads (h : Ptr.heap) (major minor patch : Z) :
  wp (Ptr.NewVersion major minor patch) h
    (fun v' h' => h ⊆ h' /\ read h' v' = Some (NewVersion major minor patch)
                  /\ forall l, pointsTo v' l -> h !! l = None).
Proof. unfold Ptr.NewVersion. repeat wp_step. heap_post. Qed.

Lemma NewPreReleaseVersion_reads (h : Ptr.heap) (major minor patch : Z)
  (pre : string) :
  wp (Ptr.NewPreReleaseVersion major minor patch pre) h
    (fun v' h' => h ⊆ h'
                  /\ read h' v' = Some (NewPreReleaseVersion major minor patch pre)
                  /\ forall l, pointsTo v' l -> h !! l = None).
Proof. unfold Ptr.NewPreReleaseVersion. repeat wp_step. heap_post. Qed.


(** ** Decimal numerals: [FormatUint] and [ParseUint] *)

Section Digits.

Lemma digitChar_spec (d : Z) :
  0 <= d < 10 ->
  digit (strconv.digitChar d) = true
  /\ digitValue (strconv.digitChar d) = d
  /\ (d <> 0 -> digit19 (strconv.digitChar d) = true)
  /\ (d = 0 -> strconv.digitChar d = "0"%char).
Proof.
  intros H.
  assert (E : d = 0 \/ d = 1 \/ d = 2 \/ d = 3 \/ d = 4 \/ d = 5 \/ d = 6
              \/ d = 7 \/ d = 8 \/ d = 9) by lia.
  repeat (destruct E as [->|E]); try subst d; repeat split; intros; try reflexivity; lia.
Qed.

Lemma digit_range (c : ascii) : digit c = true -> 0 <= digitValue c < 10.
Proof.
  unfold digit, strconv.isDigit, digitValue. intros H.
  apply andb_true_iff in H as [H1 H2]. lia.
Qed.

Lemma valueFrom_app (n : Z) (ds : list ascii) (c : ascii) :
  valueFrom n (ds ++ [c]) = 10 * valueFrom n ds + digitValue c.
Proof. revert n. induction ds as [|a ds IH]; intros n; simpl; auto. Qed.

Lemma valueFrom_ge (n : Z) (ds : list ascii) :
  0 <= n -> Forall (fun c => digit c = true) ds -> n <= valueFrom n ds.
Proof.
  intros Hn H. revert n Hn. induction H as [|c ds Hc _ IH]; intros n Hn; simpl.
  - lia.
  - apply digit_range in Hc. specialize (IH (10 * n + digitValue c)). lia.
Qed.

Lemma formatBits_S (fuel : nat) (u : Z) (acc : list ascii) :
  strconv.formatBits (S fuel) u acc =
    if u <? 10 then strconv.digitChar (u mod 10) :: acc
    else strconv.formatBits fuel (u / 10) (strconv.digitChar (u mod 10) :: acc).
Proof. reflexivity. Qed.

(** [formatBits] writes the decimal numeral of its argument in front of
    [acc]. *)
Lemma formatBits_decimal (fuel : nat) (u : Z) (acc : list ascii) :
  0 <= u < 10 ^ Z.of_nat (S fuel) ->
  exists ds, strconv.formatBits (S fuel) u acc = (ds ++ acc)%list /\ decimal ds u.
Proof.
  revert u acc. induction fuel as [|fuel IH]; intros u acc Hu.
  - change (10 ^ Z.of_nat 1) with 10 in Hu.
    rewrite formatBits_S. destruct (Z.ltb_spec u 10); [|lia].
    rewrite Z.mod_small by lia.
    destruct (digitChar_spec u Hu) as (H1 & H2 & H3 & H4).
    exists [strconv.digitChar u]. split; [reflexivity|].
    split; [repeat constructor; exact H1|]. split; [simpl; lia|].
    destruct (Z.eqb_spec u 0); [now rewrite H4|auto].
  - rewrite formatBits_S. destruct (Z.ltb_spec u 10) as [Hlt|Hge].
    + rewrite Z.mod_small by lia.
      destruct (digitChar_spec u ltac:(lia)) as (H1 & H2 & H3 & H4).
      exists [strconv.digitChar u]. split; [reflexivity|].
      split; [repeat constructor; exact H1|]. split; [simpl; lia|].
      destruct (Z.eqb_spec u 0); [now rewrite H4|auto].
    + assert (Hdiv : 0 <= u / 10 < 10 ^ Z.of_nat (S fuel)).
      { split; [apply Z.div_pos; lia|].
        apply Z.div_lt_upper_bound; [lia|].
        rewrite <- Z.pow_succ_r by lia. rewrite <- Nat2Z.inj_succ. lia. }
      destruct (IH (u / 10) (strconv.digitChar (u mod 10) :: acc) Hdiv)
        as (ds & Hds & Hall & Hval & Hhead).
      assert (Hmod : 0 <= u mod 10 < 10) by (apply Z.mod_pos_bound; lia).
      destruct (digitChar_spec _ Hmod) as (H1 & H2 & _).
      exists (ds ++ [strconv.digitChar (u mod 10)])%list.
      split; [rewrite Hds, <- app_assoc; reflexivity|].
      split; [apply Forall_app; split; [exact Hall|repeat constructor; exact H1]|].
      split.
      * rewrite valueFrom_app, Hval, H2. symmetry. apply Z.div_mod. lia.
      * destruct ds as [|c ds]; [contradiction|]. simpl.
        assert (Hq : u / 10 <> 0).
        { intros E. pose proof (Z.div_mod u 10 ltac:(lia)). lia. }
        destruct (Z.eqb_spec u 0); [lia|].
        destruct (Z.eqb_spec (u / 10) 0); [contradiction|exact Hhead].
Qed.

Lemma FormatUint_decimal (u : Z) :
  U64.inRange u ->
  exists ds, strconv.FormatUint u = string_of_list_ascii ds /\ decimal ds u.
Proof.
  intros [H1 H2]. unfold strconv.FormatUint.
  destruct (formatBits_decimal 19 u []) as (ds & Hds & Hdec).
  - split; [exact H1|]. eapply Z.lt_trans; [exact H2|]. reflexivity.
  - exists ds. rewrite Hds, app_nil_r. auto.
Qed.

Lemma parseStep_digit (n : Z) (c : ascii) :
  digit c = true -> 0 <= n -> 10 * n + digitValue c <= U64.maxVal ->
  strconv.parseStep n c = Ok (10 * n + digitValue c).
Proof.
  intros Hc Hn Hmax. pose proof (digit_range c Hc) as Hd.
  unfold strconv.parseStep. unfold digit in Hc. rewrite Hc. cbn [negb].
  change strconv.cutoff with 1844674407370955162.
  change U64.maxVal with 18446744073709551615 in *.
  unfold digitValue in *. unfold U64.wrap.
  change U64.modulus with 18446744073709551616.
  destruct (Z.leb_spec 1844674407370955162 n); [lia|].
  rewrite (Z.mod_small (n * 10)) by lia.
  rewrite (Z.mod_small (n * 10 + _)) by lia.
  destruct (Z.ltb_spec (n * 10 + (strconv.code c - 48)) (n * 10)); [lia|].
  destruct (Z.ltb_spec 18446744073709551615 (n * 10 + (strconv.code c - 48))); [lia|].
  cbn [orb]. f_equal. lia.
Qed.

(** On a numeral whose value fits in 64 bits no check of [ParseUint]
    fires. *)
Lemma parseLoop_digits (ds : list ascii) (n : Z) :
  Forall (fun c => digit c = true) ds -> 0 <= n ->
  valueFrom n ds <= U64.maxVal ->
  strconv.parseLoop ds n = Ok (valueFrom n ds).
Proof.
  intros H. revert n. induction H as [|c ds Hc Hds IH]; intros n Hn Hmax.
  - reflexivity.
  - cbn [strconv.parseLoop valueFrom] in *.
    pose proof (digit_range c Hc) as Hd.
    pose proof (valueFrom_ge (10 * n + digitValue c) ds ltac:(lia) Hds).
    rewrite parseStep_digit by (auto; lia). apply IH; lia.
Qed.

Lemma ParseUint_decimal (ds : list ascii) (u : Z) :
  decimal ds u -> u <= U64.maxVal ->
  strconv.ParseUint (string_of_list_ascii ds) = Ok u.
Proof.
  intros (Hall & Hval & Hhead) Hmax. unfold strconv.ParseUint.
  destruct ds as [|c ds]; [contradiction|].
  cbn [string_of_list_ascii String.eqb].
  change (list_ascii_of_string (String c (string_of_list_ascii ds)))
    with (c :: list_ascii_of_string (string_of_list_ascii ds)).
  rewrite list_ascii_of_string_of_list_ascii.
  rewrite parseLoop_digits; [now rewrite Hval|assumption|lia|now rewrite Hval].
Qed.

End Digits.

(** ** The matcher *)

Section Matcher.

Variable input : list ascii.

Lemma starLoop_sound (r : regex) (g : bool) (k : cont) (res : captures) :
  (forall s c k', matchK input r s c k' = Some res ->
     exists s' c', Match input r s c s' c' /\ k' s' c' = Some res) ->
  forall fuel s c,
    starLoop (fun s' c' k' => matchK input r s' c' k') g k fuel s c = Some res ->
    exists s' c', Match input (Star g r) s c s' c' /\ k s' c' = Some res.
Proof.
  intros IHr. induction fuel as [|fuel IH]; intros s c; cbn [starLoop].
  - intros H. exists s, c. split; [constructor|exact H].
  - set (next := fun (s' : list ascii) (c' : captures) =>
                   if (length s' <? length s)%nat
                   then starLoop (fun s'0 c'0 k' => matchK input r s'0 c'0 k')
                          g k fuel s' c'
                   else None).
    assert (Hround : matchK input r s c next = Some res ->
              exists s' c', Match input (Star g r) s c s' c' /\ k s' c' = Some res).
    { intros H. apply IHr in H as (s1 & c1 & Hm & Hn). unfold next in Hn.
      destruct (Nat.ltb_spec (length s1) (length s)) as [Hlt|]; [|discriminate].
      apply IH in Hn as (s2 & c2 & Hm2 & Hk).
      exists s2, c2. split; [|exact Hk]. eapply MStarRound; eauto. }
    assert (Hstop : k s c = Some res ->
              exists s' c', Match input (Star g r) s c s' c' /\ k s' c' = Some res).
    { intros H. exists s, c. split; [constructor|exact H]. }
    destruct g.
    + destruct (matchK input r s c next) eqn:E; [intros [= ->]|]; auto.
    + destruct (k s c) eqn:E; [intros [= ->]|]; auto.
Qed.

(** Whatever [matchK] returns comes from a match of the pattern followed
    by a success of the continuation. *)
Lemma matchK_sound (r : regex) (s : list ascii) (c : captures) (k : cont)
  (res : captures) :
  matchK input r s c k = Some res ->
  exists s' c', Match input r s c s' c' /\ k s' c' = Some res.
Proof.
  revert s c k. induction r as [|p|r1 IH1 r2 IH2|r1 IH1 r2 IH2|g r IH|i r IH| |];
    intros s c k; cbn [matchK].
  - intros H. exists s, c. split; [constructor|exact H].
  - destruct s as [|a s]; [discriminate|]. destruct (p a) eqn:E; [|discriminate].
    intros H. exists s, c. split; [now constructor|exact H].
  - intros H. apply IH1 in H as (s1 & c1 & Hm1 & H).
    apply IH2 in H as (s2 & c2 & Hm2 & H).
    exists s2, c2. split; [econstructor; eauto|exact H].
  - destruct (matchK input r1 s c k) eqn:E.
    + intros [= ->]. apply IH1 in E as (s' & c' & Hm & H).
      exists s', c'. split; [now apply MAltL|exact H].
    + intros H. apply IH2 in H as (s' & c' & Hm & H).
      exists s', c'. split; [now apply MAltR|exact H].
  - apply starLoop_sound. intros s0 c0 k'. apply IH.
  - intros H. apply IH in H as (s' & c' & Hm & H).
    eexists _, _. split; [apply MGroup, Hm|exact H].
  - destruct (Nat.eqb_spec (length s) (length input)); [|discriminate].
    intros H. exists s, c. split; [now constructor|exact H].
  - destruct s; [|discriminate].
    intros H. exists [], c. split; [constructor|exact H].
Qed.

(** A match changes the submatches of the groups of the pattern only. *)
Lemma Match_frame (r : regex) s c s' c' :
  Match input r s c s' c' ->
  forall i, ~ In i (groups r) -> c' i = c i.
Proof.
  induction 1; intros j Hj; cbn [groups] in Hj; try reflexivity.
  - rewrite in_app_iff in Hj. rewrite IHMatch2, IHMatch1; tauto.
  - rewrite in_app_iff in Hj. apply IHMatch; tauto.
  - rewrite in_app_iff in Hj. apply IHMatch; tauto.
  - cbn [groups] in *. rewrite IHMatch2, IHMatch1; tauto.
  - simpl in Hj. unfold setCapture.
    destruct (Nat.eqb_spec j i); [subst; tauto|apply IHMatch; tauto].
Qed.

Lemma Match_length (r : regex) s c s' c' :
  Match input r s c s' c' -> (length s' <= length s)%nat.
Proof. induction 1; simpl in *; lia. Qed.

Lemma starLoop_fails_together (r1 r2 : regex) (g : bool) (k1 k2 : cont) :
  (forall s c1 c2 k1' k2',
     (forall s' c1' c2', k1' s' c1' = None -> k2' s' c2' = None) ->
     matchK input r1 s c1 k1' = None -> matchK input r2 s c2 k2' = None) ->
  (forall s' c1' c2', k1 s' c1' = None -> k2 s' c2' = None) ->
  forall fuel s c1 c2,
    starLoop (fun s' c' k' => matchK input r1 s' c' k') g k1 fuel s c1 = None ->
    starLoop (fun s' c' k' => matchK input r2 s' c' k') g k2 fuel s c2 = None.
Proof.
  intros IHr Hk. induction fuel as [|fuel IH]; intros s c1 c2; cbn [starLoop].
  - apply Hk.
  - match goal with
    | |- (if g then match matchK _ _ _ _ ?n1 with _ => _ end else _) = None ->
         (if g then match matchK _ _ _ _ ?n2 with _ => _ end else _) = None =>
        assert (Hn : forall s' c1' c2', n1 s' c1' = None -> n2 s' c2' = None)
    end.
    { intros s' c1' c2'. simpl. destruct (length s' <? length s)%nat; [apply IH|auto]. }
    destruct g.
    + destruct (matchK input r1 s c1 _) eqn:E1; [discriminate|].
      intros H. rewrite (IHr _ _ c2 _ _ Hn E1). now apply Hk with (c1' := c1).
    + destruct (k1 s c1) eqn:E1; [discriminate|].
      intros H. rewrite (Hk _ _ c2 E1). now apply (IHr _ c1 c2 _ _ Hn).
Qed.

(** Two patterns that differ in the numbers of their groups only fail
    together, whatever the submatches, when their continuations do. *)
Lemma matchK_fails_together (r1 r2 : regex) :
  ungroup r1 = ungroup r2 ->
  forall s c1 c2 (k1 k2 : cont),
    (forall s' c1' c2', k1 s' c1' = None -> k2 s' c2' = None) ->
    matchK input r1 s c1 k1 = None -> matchK input r2 s c2 k2 = None.
Proof.
  revert r2.
  induction r1 as [|p|r11 IH1 r12 IH2|r11 IH1 r12 IH2|g r1 IH|i r1 IH| |];
    intros r2 Hr; destruct r2; try discriminate Hr; cbn [ungroup] in Hr;
    inversion Hr; subst; clear Hr; intros s c1 c2 k1 k2 Hk; cbn [matchK].
  - apply Hk.
  - destruct s as [|a s]; [reflexivity|]. destruct (p0 a); [apply Hk|reflexivity].
  - apply IH1; [assumption|]. intros s' c1' c2'. now apply IH2.
  - destruct (matchK input r11 s c1 k1) eqn:E; [discriminate|].
    intros H2.
    match goal with
    | Ha : ungroup r11 = _, Hb : ungroup r12 = _ |- _ =>
        rewrite (IH1 _ Ha _ _ c2 _ _ Hk E); now apply (IH2 _ Hb _ c1 c2 k1 k2)
    end.
  - apply starLoop_fails_together; [|assumption].
    intros s0 c10 c20 k1' k2'. now apply IH.
  - apply IH; [assumption|]. intros s' c1' c2'. apply Hk.
  - destruct (length s =? length input)%nat; [apply Hk|reflexivity].
  - destruct s; [apply Hk|reflexivity].
Qed.

End Matcher.

Section Captures.

Variable input : list ascii.

Lemma Class_consumes (p : ascii -> bool) : consumes input (Class p).
Proof. intros s c s' c' H. inversion H; subst. simpl. lia. Qed.

Lemma Cat_consumes_l (r1 r2 : regex) : consumes input r1 -> consumes input (Cat r1 r2).
Proof.
  intros H1 s c s' c' H. inversion H; subst.
  match goal with
  | Ha : Match _ r1 _ _ _ _, Hb : Match _ r2 _ _ _ _ |- _ =>
      apply H1 in Ha; apply Match_length in Hb; lia
  end.
Qed.

Lemma Alt_consumes (r1 r2 : regex) :
  consumes input r1 -> consumes input r2 -> consumes input (Alt r1 r2).
Proof. intros H1 H2 s c s' c' H. inversion H; subst; eauto. Qed.

Lemma Group_consumes (i : nat) (r : regex) : consumes input r -> consumes input (Group i r).
Proof. intros H1 s c s' c' H. inversion H; subst; eauto. Qed.

Lemma Plus_consumes (r : regex) : consumes input r -> consumes input (Plus r).
Proof. apply Cat_consumes_l. Qed.

Lemma numericIdent_consumes : consumes input numericIdent.
Proof.
  apply Alt_consumes; [apply Class_consumes|].
  apply Cat_consumes_l, Class_consumes.
Qed.

Lemma Group_captures (i : nat) (r : regex) s c s' c' :
  consumes input r -> Match input (Group i r) s c s' c' -> c' i <> [].
Proof.
  intros Hr H. inversion H; subst.
  match goal with Ha : Match _ r _ _ _ _ |- _ => apply Hr in Ha end.
  unfold setCapture. rewrite Nat.eqb_refl.
  destruct s as [|a s]; [simpl in *; lia|].
  destruct (length (a :: s) - length s')%nat eqn:E; [lia|discriminate].
Qed.

Lemma matchK_fails_regardless (r : regex) (s : list ascii) (c1 c2 : captures)
  (k : cont) :
  (forall s' c1' c2', k s' c1' = None -> k s' c2' = None) ->
  matchK input r s c1 k = None -> matchK input r s c2 k = None.
Proof. now apply matchK_fails_together. Qed.

End Captures.

Lemma versionRegex_pieces :
  syntax versionRegex =
  Cat Bol (Cat (Star false (Class nonDigit)) (Cat (Group 1 (Plus (Class digit)))
    (Cat (Opt lenientMinor) (Cat (Opt lenientPatch) lenientTail)))).
Proof. reflexivity. Qed.

Section Equations.

Variable input : list ascii.

Lemma matchK_Cat r1 r2 s c k :
  matchK input (Cat r1 r2) s c k
  = matchK input r1 s c (fun s' c' => matchK input r2 s' c' k).
Proof. reflexivity. Qed.

Lemma matchK_Alt r1 r2 s c k :
  matchK input (Alt r1 r2) s c k
  = match matchK input r1 s c k with
    | Some res => Some res
    | None => matchK input r2 s c k
    end.
Proof. reflexivity. Qed.

Lemma matchK_Opt r s c k :
  matchK input (Opt r) s c k
  = match matchK input r s c k with
    | Some res => Some res
    | None => k s c
    end.
Proof. reflexivity. Qed.

Lemma matchK_Group i r s c k :
  matchK input (Group i r) s c k
  = matchK input r s c
      (fun s' c' => k s' (setCapture i (firstn (length s - length s') s) c')).
Proof. reflexivity. Qed.

End Equations.

(** [peel H]: in [H : matchK input (Cat r1 r2) s c k = Some res], replace
    the match of [r1] by what it consumed and captured. *)
Ltac peel H s1 c1 Hm :=
  rewrite matchK_Cat in H;
  apply matchK_sound in H as (s1 & c1 & Hm & H);
  cbv beta in H.

(** In a match of [versionRegex], a patch component is captured only
    after a minor component: where the group of the minor component fails,
    the group of the patch component, which is the same pattern at the
    same place, fails too. *)
Lemma versionRegex_patch_needs_minor (input s : list ascii) (res : captures) :
  matchK input (Group 0 (syntax versionRegex)) s noCaptures (fun _ c => Some c)
  = Some res ->
  res 5%nat <> [] -> res 3%nat <> [].
Proof.
  rewrite versionRegex_pieces, matchK_Group.
  set (k0 := fun (s' : list ascii) (c' : captures) =>
               Some (setCapture 0 (firstn (length s - length s') s) c')).
  assert (Hk0 : forall s' c1' c2', k0 s' c1' = None -> k0 s' c2' = None)
    by discriminate.
  assert (Hres0 : forall s' c', k0 s' c' = Some res ->
                    forall i, i <> 0%nat -> res i = c' i).
  { intros s' c' [= <-] i Hi. unfold setCapture.
    now destruct (Nat.eqb_spec i 0). }
  intros H.
  (* ^, the prefix and the major component *)
  peel H s0 c0 Hm0. peel H s1 c1 Hm1. peel H s2 c2 Hm2.
  assert (Hc2 : forall i, i <> 1%nat -> c2 i = []).
  { intros i Hi.
    rewrite (Match_frame _ _ _ _ _ _ Hm2), (Match_frame _ _ _ _ _ _ Hm1),
      (Match_frame _ _ _ _ _ _ Hm0); simpl; [reflexivity|lia..]. }
  clear Hm0 Hm1 Hm2.
  (* the optional minor component *)
  rewrite matchK_Cat, matchK_Opt in H.
  set (afterMinor := fun (s' : list ascii) (c' : captures) =>
         matchK input (Cat (Opt lenientPatch) lenientTail) s' c' k0) in H.
  assert (HafterMinor : forall s' c',
            afterMinor s' c' =
            match matchK input lenientPatch s' c'
                    (fun s'0 c'0 => matchK input lenientTail s'0 c'0 k0) with
            | Some r => Some r
            | None => matchK input lenientTail s' c' k0
            end) by reflexivity.
  destruct (matchK input lenientMinor s2 c2 afterMinor) eqn:Eminor.
  - (* minor matched *)
    injection H as ->. intros _.
    apply matchK_sound in Eminor as (s3 & c3 & Hm3 & H). unfold afterMinor in H.
    assert (Hc3 : c3 3%nat <> []).
    { unfold lenientMinor in Hm3. inversion Hm3; subst.
      match goal with Ha : Match _ (Cat _ _) _ _ _ _ |- _ => inversion Ha; subst end.
      unfold setCapture at 1. simpl.
      match goal with
      | Ha : Match _ (Group 3 _) _ _ _ _ |- _ =>
          apply Group_captures in Ha; [exact Ha|]
      end.
      apply Plus_consumes, Class_consumes. }
    apply matchK_sound in H as (s4 & c4 & Hm4 & H).
    rewrite (Hres0 _ _ H), (Match_frame _ _ _ _ _ _ Hm4); [exact Hc3| |lia].
    simpl. lia.
  - (* minor did not match: neither does patch *)
    change (afterMinor s2 c2 = Some res) in H. rewrite HafterMinor in H.
    assert (Epatch : matchK input lenientPatch s2 c2
                       (fun s' c' => matchK input lenientTail s' c' k0) = None).
    { eapply (matchK_fails_together input lenientMinor lenientPatch);
        [reflexivity| |exact Eminor].
      intros s' c1' c2'. rewrite HafterMinor.
      destruct (matchK input lenientPatch s' c1' _); [discriminate|].
      now apply matchK_fails_regardless. }
    rewrite Epatch in H.
    apply matchK_sound in H as (s5 & c5 & Hm5 & H).
    intros Hpatch. exfalso. apply Hpatch.
    rewrite (Hres0 _ _ H), (Match_frame _ _ _ _ _ _ Hm5); [apply Hc2; lia| |lia].
    simpl. lia.
Qed.

(** ** The strict pattern on a rendered triple *)

Section Deterministic.

Variable input : list ascii.

Lemma matchK_Chr (a : ascii) s c k :
  matchK input (Chr a) (a :: s) c k = k s c.
Proof. cbn [matchK Chr]. now rewrite Ascii.eqb_refl. Qed.

Lemma matchK_Bol s c k :
  length s = length input -> matchK input Bol s c k = k s c.
Proof. intros H. cbn [matchK]. now rewrite H, Nat.eqb_refl. Qed.

Lemma matchK_Class_fails (p : ascii -> bool) s c k :
  stops p s -> matchK input (Class p) s c k = None.
Proof. destruct s as [|b s]; cbn; [reflexivity|]. now intros ->. Qed.

Lemma starLoop_greedy_run (p : ascii -> bool) (k : cont) (res : captures)
  (ds rest : list ascii) (c : captures) :
  Forall (fun a => p a = true) ds -> stops p rest -> k rest c = Some res ->
  forall fuel, (length (ds ++ rest) <= fuel)%nat ->
    starLoop (fun s' c' k' => matchK input (Class p) s' c' k') true k fuel
      (ds ++ rest) c = Some res.
Proof.
  intros Hds Hrest Hk. induction Hds as [|a ds Ha _ IH]; intros fuel Hfuel.
  - destruct fuel as [|fuel]; cbn [starLoop app]; [exact Hk|].
    now rewrite matchK_Class_fails.
  - destruct fuel as [|fuel]; [simpl in Hfuel; lia|].
    cbn [starLoop app matchK]. rewrite Ha.
    destruct (Nat.ltb_spec (length (ds ++ rest)) (length (a :: ds ++ rest)));
      [|simpl in *; lia].
    rewrite IH; [reflexivity|simpl in Hfuel; lia].
Qed.

Lemma matchK_greedy_run (p : ascii -> bool) (k : cont) (res : captures)
  (ds rest : list ascii) (c : captures) :
  Forall (fun a => p a = true) ds -> stops p rest -> k rest c = Some res ->
  matchK input (Star true (Class p)) (ds ++ rest) c k = Some res.
Proof.
  intros. cbn [matchK]. now apply starLoop_greedy_run.
Qed.

Lemma digit19_not_zero (a : ascii) : digit19 a = true -> Ascii.eqb "0" a = false.
Proof.
  intros H. destruct (Ascii.eqb_spec "0" a) as [<-|]; [discriminate H|reflexivity].
Qed.

Lemma matchK_numericIdent (ds rest : list ascii) (u : Z) (c : captures)
  (k : cont) (res : captures) :
  decimal ds u -> stops digit rest -> k rest c = Some res ->
  matchK input numericIdent (ds ++ rest) c k = Some res.
Proof.
  intros (Hall & _ & Hhead) Hrest Hk. unfold numericIdent. rewrite matchK_Alt.
  destruct ds as [|a ds]; [contradiction|].
  destruct (u =? 0).
  - injection Hhead as -> ->. cbn [app]. now rewrite matchK_Chr, Hk.
  - cbn [matchK Chr app]. rewrite (digit19_not_zero _ Hhead), Hhead.
    inversion Hall; subst.
    now apply starLoop_greedy_run.
Qed.

Lemma matchK_Group_numericIdent (i : nat) (ds rest : list ascii) (u : Z)
  (c : captures) (k : cont) (res : captures) :
  decimal ds u -> stops digit rest -> k rest (setCapture i ds c) = Some res ->
  matchK input (Group i numericIdent) (ds ++ rest) c k = Some res.
Proof.
  intros Hdec Hrest Hk. rewrite matchK_Group.
  eapply matchK_numericIdent; eauto. cbv beta.
  rewrite length_app, Nat.add_sub, firstn_app, Nat.sub_diag, firstn_all.
  simpl. now rewrite app_nil_r.
Qed.

Lemma matchK_Group_numericIdent_end (i : nat) (ds : list ascii) (u : Z)
  (c : captures) (k : cont) (res : captures) :
  decimal ds u -> k [] (setCapture i ds c) = Some res ->
  matchK input (Group i numericIdent) ds c k = Some res.
Proof.
  intros Hdec Hk. rewrite <- (app_nil_r ds) at 1.
  eapply matchK_Group_numericIdent; eauto. exact I.
Qed.

End Deterministic.

Lemma findFrom_first (input : list ascii) (r : regex) (s : list ascii)
  (res : captures) :
  matchK input (Group 0 r) s noCaptures (fun _ c => Some c) = Some res ->
  findFrom input r s = Some res.
Proof. intros H. destruct s; cbn [findFrom]; now rewrite H. Qed.

Lemma list_ascii_of_string_app (s1 s2 : string) :
  list_ascii_of_string (s1 ++ s2)
  = (list_ascii_of_string s1 ++ list_ascii_of_string s2)%list.
Proof. induction s1 as [|a s1 IH]; simpl; [reflexivity|now rewrite IH]. Qed.

Lemma semVerRegex_matches_triple (M m p : list ascii) (major minor patch : Z) :
  decimal M major -> decimal m minor -> decimal p patch ->
  let input := (M ++ "."%char :: m ++ "."%char :: p)%list in
  exists c,
    findFrom input (syntax semVerRegex) input = Some c
    /\ c 1%nat = M /\ c 2%nat = m /\ c 3%nat = p /\ c 4%nat = [] /\ c 5%nat = [].
Proof.
  intros HM Hm Hp input.
  exists (setCapture 0 (firstn (length input - length (@nil ascii)) input)
            (setCapture 3 p (setCapture 2 m (setCapture 1 M noCaptures)))).
  split.
  - apply findFrom_first. unfold semVerRegex. cbn [syntax].
    rewrite matchK_Group, matchK_Cat, matchK_Bol by reflexivity.
    rewrite matchK_Cat. unfold input at 2.
    eapply matchK_Group_numericIdent; [exact HM|reflexivity|]. cbv beta.
    rewrite matchK_Cat, matchK_Chr, matchK_Cat.
    eapply matchK_Group_numericIdent; [exact Hm|reflexivity|]. cbv beta.
    rewrite matchK_Cat, matchK_Chr, matchK_Cat.
    eapply matchK_Group_numericIdent_end; [exact Hp|]. cbv beta.
    reflexivity.
  - repeat split.
Qed.

(** ** Strict rendering and strict parsing *)

Lemma parseFields_strict_triple (m0 m1 m2 m3 : string) (a b c : Z) :
  strconv.ParseUint m1 = Ok a ->
  strconv.ParseUint m2 = Ok b ->
  strconv.ParseUint m3 = Ok c ->
  parseFields (SubexpNames semVerRegex) [m0; m1; m2; m3; ""; ""] zeroVersion
  = Ok (NewVersion a b c).
Proof.
  intros H1 H2 H3. cbn. rewrite H1.
  destruct (String.eqb_spec m2 "") as [->|_]; [discriminate H2|]. rewrite H2.
  destruct (String.eqb_spec m3 "") as [->|_]; [discriminate H3|]. rewrite H3.
  reflexivity.
Qed.

Lemma inRange_maxVal (u : Z) : U64.inRange u -> u <= U64.maxVal.
Proof. unfold U64.inRange, U64.maxVal. lia. Qed.

(** C8.  For every version produced by [NewVersion major minor patch]
    (three [uint64] values), [StrictString] succeeds, and [ParseSemVer] on
    its result succeeds with a version whose major, minor and patch
    components, pre-release label and build metadata are those of the
    version rendered. *)
Theorem StrictString_ParseSemVer_roundtrip (major minor patch : Z) :
  U64.inRange major -> U64.inRange minor -> U64.inRange patch ->
  exists s v,
    StrictString (NewVersion major minor patch) = Ok s
    /\ ParseSemVer s = Ok v
    /\ Major v = major /\ Minor v = minor /\ Patch v = patch
    /\ PreRelease v = PreRelease (NewVersion major minor patch)
    /\ BuildMetadata v = BuildMetadata (NewVersion major minor patch)
    /\ v = NewVersion major minor patch.
Proof.
  intros Hma Hmi Hpa.
  destruct (FormatUint_decimal _ Hma) as (M & EM & HM).
  destruct (FormatUint_decimal _ Hmi) as (m & Em & Hm).
  destruct (FormatUint_decimal _ Hpa) as (p & Ep & Hp).
  exists ((strconv.FormatUint major ++ "." ++ strconv.FormatUint minor)
          ++ "." ++ strconv.FormatUint patch), (NewVersion major minor patch).
  split; [reflexivity|]. split; [|repeat split].
  unfold ParseSemVer, parseVersion, FindStringSubmatch.
  rewrite EM, Em, Ep, !list_ascii_of_string_app, !list_ascii_of_string_of_list_ascii.
  change (list_ascii_of_string ".") with ["."%char].
  rewrite <- app_assoc. cbn [app].
  destruct (semVerRegex_matches_triple M m p _ _ _ HM Hm Hp)
    as (c & -> & E1 & E2 & E3 & E4 & E5).
  cbv [SubexpNames subexpNames semVerRegex map seq length Nat.eqb Nat.ltb Nat.leb].
  rewrite E1, E2, E3, E4, E5.
  apply parseFields_strict_triple; apply ParseUint_decimal;
    auto using inRange_maxVal.
Qed.

Lemma StrictString_ParseSemVer_roundtrip_witness :
  U64.inRange 1 /\ U64.inRange 2 /\ U64.inRange 18446744073709551615
  /\ exists s v,
       StrictString (NewVersion 1 2 18446744073709551615) = Ok s
       /\ ParseSemVer s = Ok v
       /\ Major v = 1 /\ Minor v = 2 /\ Patch v = 18446744073709551615
       /\ PreRelease v = PreRelease (NewVersion 1 2 18446744073709551615)
       /\ BuildMetadata v = BuildMetadata (NewVersion 1 2 18446744073709551615)
       /\ v = NewVersion 1 2 18446744073709551615.
Proof.
  assert (H : forall u, 0 <= u -> u < U64.modulus -> U64.inRange u)
    by (intros u H1 H2; split; assumption).
  split; [apply H; [lia|reflexivity]|].
  split; [apply H; [lia|reflexivity]|].
  split; [apply H; [lia|reflexivity]|].
  apply (StrictString_ParseSemVer_roundtrip 1 2 18446744073709551615);
    apply H; try lia; reflexivity.
Defined.

(** ** The invariant of the versions of the public interface *)

Lemma semVerRegex_minor_captured (input s : list ascii) (res : captures) :
  matchK input (Group 0 (syntax semVerRegex)) s noCaptures (fun _ c => Some c)
  = Some res ->
  res 2%nat <> [].
Proof.
  unfold semVerRegex. cbn [syntax]. rewrite matchK_Group.
  set (k0 := fun (s' : list ascii) (c' : captures) =>
               Some (setCapture 0 (firstn (length s - length s') s) c')).
  intros H.
  peel H s0 c0 Hm0. peel H s1 c1 Hm1. peel H s2 c2 Hm2. peel H s3 c3 Hm3.
  apply matchK_sound in H as (s4 & c4 & Hm4 & H). injection H as <-.
  unfold setCapture at 1. simpl.
  rewrite (Match_frame _ _ _ _ _ _ Hm4) by (simpl; lia).
  eapply Group_captures; [|exact Hm3]. apply numericIdent_consumes.
Qed.

(** What holds of every match holds of the leftmost one. *)
Lemma findFrom_result (input : list ascii) (r : regex) (P : captures -> Prop) :
  (forall s res,
     matchK input (Group 0 r) s noCaptures (fun _ c => Some c) = Some res -> P res) ->
  forall s res, findFrom input r s = Some res -> P res.
Proof.
  intros HP. induction s as [|a s IH]; intros res; cbn [findFrom].
  - destruct (matchK input (Group 0 r) [] noCaptures _) eqn:E; [|discriminate].
    intros [= <-]. eauto.
  - destruct (matchK input (Group 0 r) (a :: s) noCaptures _) eqn:E.
    + intros [= <-]. eauto.
    + apply IH.
Qed.

Lemma string_of_list_ascii_empty (l : list ascii) :
  string_of_list_ascii l = "" <-> l = [].
Proof. destruct l; simpl; split; congruence. Qed.

Lemma parseFields_lenient (m0 m1 m2 m3 m4 m5 m6 m7 m8 : string) (v : Version) :
  parseFields (SubexpNames versionRegex) [m0; m1; m2; m3; m4; m5; m6; m7; m8]
    zeroVersion = Ok v ->
  (m5 <> "" -> m3 <> "") -> wellFormed v = true.
Proof.
  cbn. intros H Hm.
  destruct (strconv.ParseUint m1); [|discriminate].
  destruct (String.eqb_spec m3 "") as [->|E3].
  - destruct (String.eqb_spec m5 "") as [->|E5]; [|tauto].
    now injection H as <-.
  - destruct (strconv.ParseUint m3); [|discriminate].
    destruct (m5 =? "")%string; [now injection H as <-|].
    destruct (strconv.ParseUint m5); [|discriminate]. now injection H as <-.
Qed.

Lemma parseFields_strict (m0 m1 m2 m3 m4 m5 : string) (v : Version) :
  parseFields (SubexpNames semVerRegex) [m0; m1; m2; m3; m4; m5]
    zeroVersion = Ok v ->
  m2 <> "" -> wellFormed v = true.
Proof.
  cbn. intros H Hm.
  destruct (strconv.ParseUint m1); [|discriminate].
  destruct (String.eqb_spec m2 "") as [->|E2]; [tauto|].
  destruct (strconv.ParseUint m2); [|discriminate].
  destruct (m3 =? "")%string; [now injection H as <-|].
  destruct (strconv.ParseUint m3); [|discriminate]. now injection H as <-.
Qed.

Lemma ParseVersion_wellFormed (s : string) (v : Version) :
  ParseVersion s = Ok v -> wellFormed v = true.
Proof.
  unfold ParseVersion, parseVersion, FindStringSubmatch.
  destruct (findFrom _ (syntax versionRegex) _) as [c|] eqn:E; [|discriminate].
  cbv [SubexpNames subexpNames versionRegex map seq length Nat.eqb Nat.ltb Nat.leb].
  intros H. apply parseFields_lenient in H; [exact H|].
  rewrite !string_of_list_ascii_empty.
  exact (findFrom_result _ _ (fun c => c 5%nat <> [] -> c 3%nat <> [])
           (versionRegex_patch_needs_minor _) _ _ E).
Qed.

Lemma ParseSemVer_wellFormed (s : string) (v : Version) :
  ParseSemVer s = Ok v -> wellFormed v = true.
Proof.
  unfold ParseSemVer, parseVersion, FindStringSubmatch.
  destruct (findFrom _ (syntax semVerRegex) _) as [c|] eqn:E; [|discriminate].
  cbv [SubexpNames subexpNames semVerRegex map seq length Nat.eqb Nat.ltb Nat.leb].
  intros H. apply parseFields_strict in H; [exact H|].
  rewrite string_of_list_ascii_empty.
  exact (findFrom_result _ _ (fun c => c 2%nat <> [])
           (semVerRegex_minor_captured _) _ _ E).
Qed.

Lemma obtainable_wellFormed (v : Version) : obtainable v -> wellFormed v = true.
Proof.
  induction 1 as [ | | |s v H|s v H|v pre _ IH|v build _ IH|v _ IH|v _ IH
                 |v _ IH|v _ IH|v v' _ IH H].
  - reflexivity.
  - reflexivity.
  - reflexivity.
  - exact (ParseVersion_wellFormed s v H).
  - exact (ParseSemVer_wellFormed s v H).
  - exact IH.
  - exact IH.
  - unfold Increment, wellFormed in *; simpl.
    destruct (patch v), (minor v); simpl; auto.
  - reflexivity.
  - reflexivity.
  - unfold IncrementPatch, wellFormed in *; simpl.
    destruct (patch v), (minor v); simpl; auto.
  - unfold IncrementPessimistic, wellFormed in *; simpl in *.
    destruct (patch v), (minor v); simplify_eq; auto.
Qed.

(** C9.  Let [v] be a version whose optional components are allocated in
    the store [h], and let [x] be what it reads as.  Each of
    [SetPreRelease], [SetBuildMetadata], [Increment], [IncrementMajor],
    [IncrementMinor] and [IncrementPatch], and [IncrementPessimistic] when
    [x] keeps the invariant of the data model (as every version of the
    public interface does), returns a version [v'] such that: every
    location of [h] keeps its content, so that [v] reads as before (major,
    minor, patch, their presence, pre-release and build metadata); [v']
    reads as the value-level function says; and the locations of the
    optional components of [v'] are not in [h], so that none of them is a
    location of [v]. *)
Theorem mutators_return_independent_copies
  (h : Ptr.heap) (v : Ptr.Version) (x : Version) (s : string) :
  read h v = Some x ->
  returnsCopy h v (Ptr.SetPreRelease v s) (SetPreRelease x s)
  /\ returnsCopy h v (Ptr.SetBuildMetadata v s) (SetBuildMetadata x s)
  /\ returnsCopy h v (Ptr.Increment v) (Increment x)
  /\ returnsCopy h v (Ptr.IncrementMajor v) (IncrementMajor x)
  /\ returnsCopy h v (Ptr.IncrementMinor v) (IncrementMinor x)
  /\ returnsCopy h v (Ptr.IncrementPatch v) (IncrementPatch x)
  /\ (wellFormed x = true ->
      exists x', IncrementPessimistic x = Some x'
                 /\ returnsCopy h v (Ptr.IncrementPessimistic v) x')
  /\ (obtainable x ->
      exists x', IncrementPessimistic x = Some x'
                 /\ returnsCopy h v (Ptr.IncrementPessimistic v) x').
Proof.
  intros Hread.
  repeat split;
    eauto using SetPreRelease_copy, SetBuildMetadata_copy, Increment_copy,
      IncrementMajor_copy, IncrementMinor_copy, IncrementPatch_copy.
  - intros Hwf. destruct (wellFormed_IncrementPessimistic _ Hwf) as [x' Hx'].
    exists x'. split; [exact Hx'|]. eapply IncrementPessimistic_copy; eauto.
  - intros Hx. apply obtainable_wellFormed in Hx.
    destruct (wellFormed_IncrementPessimistic _ Hx) as [x' Hx'].
    exists x'. split; [exact Hx'|]. eapply IncrementPessimistic_copy; eauto.
Qed.

Lemma mutators_return_independent_copies_witness :
  read exampleHeap exampleVersion = Some (NewPreReleaseVersion 1 2 3 "rc.1")
  /\ returnsCopy exampleHeap exampleVersion (Ptr.Increment exampleVersion)
       (Increment (NewPreReleaseVersion 1 2 3 "rc.1")).
Proof.
  split; [reflexivity|].
  apply (mutators_return_independent_copies exampleHeap exampleVersion
           (NewPreReleaseVersion 1 2 3 "rc.1") "").
  reflexivity.
Defined.

(** C10.  Every version obtainable through the public interface
    ([NewVersion], [NewPreReleaseVersion], [ParseVersion], [ParseSemVer],
    and the results of [SetPreRelease], [SetBuildMetadata] and the
    increments on such versions) has a minor component whenever it has a
    patch component; so [IncrementPessimistic] returns on it, at the level
    of values and, for any store in which the version is allocated, at the
    level of pointers: the dereference of [minor] in the branch of a
    present patch does not panic. *)
Theorem obtainable_versions_keep_minor_with_patch (v : Version) :
  obtainable v ->
  wellFormed v = true
  /\ (forall x, patch v = Some x -> exists y, minor v = Some y)
  /\ (exists next, IncrementPessimistic v = Some next)
  /\ (forall h pv, read h pv = Some v ->
        exists r, Ptr.IncrementPessimistic pv h = Some r).
Proof.
  intros Hv. pose proof (obtainable_wellFormed v Hv) as Hwf.
  destruct (wellFormed_IncrementPessimistic _ Hwf) as [next Hnext].
  split; [exact Hwf|]. split; [|split; [eauto|]].
  - intros x Hx. unfold wellFormed in Hwf. rewrite Hx in Hwf.
    destruct (minor v); [eauto|discriminate].
  - intros h pv Hread.
    destruct (IncrementPessimistic_copy h pv v Hread next Hnext)
      as (v' & h' & Hrun & _).
    eauto.
Qed.

Lemma obtainable_versions_keep_minor_with_patch_witness :
  obtainable (Increment (NewVersion 1 2 3))
  /\ wellFormed (Increment (NewVersion 1 2 3)) = true.
Proof.
  split; [apply ob_Increment, ob_NewVersion|].
  apply (obtainable_versions_keep_minor_with_patch (Increment (NewVersion 1 2 3))).
  apply ob_Increment, ob_NewVersion.
Defined.

(** ** Bounds that meet, and a panic *)

(** A version satisfies [>=] itself and does not satisfy [>] itself. *)
Theorem Satisfies_own_bound (a : Version) :
  Satisfies a (NewConstraint GE a) = Some true
  /\ Satisfies a (NewConstraint GT a) = Some false.
Proof.
  unfold Satisfies, NewConstraint, GreaterEqual; simpl.
  now rewrite Greater_spec, Less_irrefl.
Qed.

(** X1.  A [>] constraint and a [>=] constraint are reported as a
    contradictory pair, in either order, exactly when the bound of [>] is
    not strictly below the bound of [>=]. *)
Theorem Contradicts_GT_GE_reported_iff (gt ge : Constraint) :
  operator gt = ">" -> operator ge = ">=" ->
  ((exists e, Contradicts [gt; ge] [] = Some (Some e))
   <-> Less (version gt) (version ge) = false)
  /\ ((exists e, Contradicts [ge; gt] [] = Some (Some e))
      <-> Less (version gt) (version ge) = false).
Proof.
  intros Hgt Hge. destruct (eitherContradicts_GT_GE _ _ Hgt Hge) as [H1 H2].
  rewrite !Contradicts_pair, H1, H2.
  destruct (Less (version gt) (version ge)); simpl;
    split; split; try congruence; try (intros [e He]; congruence); eauto.
Qed.

Lemma Contradicts_GT_GE_reported_iff_witness :
  operator (NewConstraint ">" (NewVersion 1 2 3)) = ">"
  /\ operator (NewConstraint ">=" (NewVersion 1 2 3)) = ">="
  /\ ((exists e, Contradicts [NewConstraint ">" (NewVersion 1 2 3);
                              NewConstraint ">=" (NewVersion 1 2 3)] []
                 = Some (Some e))
      <-> Less (NewVersion 1 2 3) (NewVersion 1 2 3) = false).
Proof.
  split; [reflexivity|]. split; [reflexivity|].
  exact (proj1 (Contradicts_GT_GE_reported_iff
                  (NewConstraint ">" (NewVersion 1 2 3))
                  (NewConstraint ">=" (NewVersion 1 2 3)) eq_refl eq_refl)).
Defined.

(** X2.  On a version with a patch component and no minor component,
    [IncrementPessimistic] panics, and so does [Satisfies] on a [~>]
    constraint with such a version when the first test succeeds. *)
Theorem IncrementPessimistic_panics_without_minor
  (h : Ptr.heap) (v : Ptr.Version) (x : Version) :
  read h v = Some x -> wellFormed x = false ->
  Ptr.IncrementPessimistic v h = None
  /\ forall w, GreaterEqual w x = true ->
       Satisfies w (NewConstraint GEPessimistic x) = None.
Proof.
  intros Hread Hwf. apply IncrementPessimistic_panics_iff in Hwf. split.
  - eapply IncrementPessimistic_panics; eauto.
  - intros w Hw. rewrite Satisfies_GEPessimistic by reflexivity.
    simpl. now rewrite Hw, Hwf.
Qed.

Lemma IncrementPessimistic_panics_without_minor_witness :
  read exampleHeap (Ptr.mkVersion 1 None (Some 2%positive) "" "")
  = Some (mkVersion 1 None (Some 3) "" "")
  /\ wellFormed (mkVersion 1 None (Some 3) "" "") = false
  /\ Ptr.IncrementPessimistic (Ptr.mkVersion 1 None (Some 2%positive) "" "")
       exampleHeap = None.
Proof.
  split; [reflexivity|]. split; [reflexivity|].
  exact (proj1 (IncrementPessimistic_panics_without_minor exampleHeap
                  (Ptr.mkVersion 1 None (Some 2%positive) "" "")
                  (mkVersion 1 None (Some 3) "" "") eq_refl eq_refl)).
Defined.

(** * Further properties *)

Ltac in_range := split; vm_compute; [discriminate|reflexivity].

(** ** The order on versions is a strict weak order *)

Section StringOrder.

Lemma ascii_compare_lt_trans (a b c : ascii) :
  Ascii.compare a b = Lt -> Ascii.compare b c = Lt -> Ascii.compare a c = Lt.
Proof.
  unfold Ascii.compare. rewrite !N.compare_lt_iff. lia.
Qed.

Lemma string_compare_lt_trans (s1 s2 s3 : string) :
  String.compare s1 s2 = Lt -> String.compare s2 s3 = Lt ->
  String.compare s1 s3 = Lt.
Proof.
  revert s2 s3. induction s1 as [|a s1 IH]; intros [|b s2] [|c s3]; simpl;
    try congruence.
  destruct (Ascii.compare a b) eqn:Eab; try discriminate.
  - apply Ascii.compare_eq_iff in Eab as ->.
    destruct (Ascii.compare b c); try discriminate; eauto.
  - intros _. destruct (Ascii.compare b c) eqn:Ebc; try discriminate.
    + apply Ascii.compare_eq_iff in Ebc as <-. now rewrite Eab.
    + intros _. now rewrite (ascii_compare_lt_trans _ _ _ Eab Ebc).
Qed.

Lemma string_ltb_trans (s1 s2 s3 : string) :
  (s1 <? s2)%string = true -> (s2 <? s3)%string = true -> (s1 <? s3)%string = true.
Proof.
  unfold String.ltb.
  destruct (String.compare s1 s2) eqn:E1; try discriminate.
  destruct (String.compare s2 s3) eqn:E2; try discriminate.
  now rewrite (string_compare_lt_trans _ _ _ E1 E2).
Qed.

Lemma string_ltb_total (s1 s2 : string) :
  (s1 <? s2)%string = false -> (s2 <? s1)%string = false -> s1 = s2.
Proof.
  unfold String.ltb. rewrite (String.compare_antisym s1 s2).
  destruct (String.compare s2 s1) eqn:E; simpl; try discriminate.
  intros _ _. symmetry. now apply String.compare_eq_iff.
Qed.

Lemma string_ltb_empty (s : string) : (s <? "")%string = false.
Proof. now destruct s. Qed.

End StringOrder.

(** The key of a version in the order: the three numbers and the label. *)
Lemma Less_unfold (a b : Version) :
  Less a b =
    if Major a =? Major b then
      if Minor a =? Minor b then
        if Patch a =? Patch b then
          if (preRelease a =? "")%string then false
          else if (preRelease b =? "")%string then true
          else (preRelease a <? preRelease b)%string
        else Patch a <? Patch b
      else Minor a <? Minor b
    else Major a <? Major b.
Proof.
  unfold Less, neq.
  destruct (Major a =? Major b); simpl; [|reflexivity].
  destruct (Minor a =? Minor b); simpl; [|reflexivity].
  destruct (Patch a =? Patch b); simpl; [|reflexivity].
  destruct (String.eqb_spec (preRelease a) "") as [->|Ha];
    destruct (String.eqb_spec (preRelease b) "") as [->|Hb]; simpl; auto.
Qed.

Ltac by_numbers :=
  try solve [ let H1 := fresh in let H2 := fresh in
              intros H1 H2;
              try apply Z.ltb_lt in H1; try apply Z.ltb_lt in H2;
              try apply Z.ltb_lt; lia ].

Lemma Less_trans (a b c : Version) :
  Less a b = true -> Less b c = true -> Less a c = true.
Proof.
  rewrite !Less_unfold.
  destruct (Z.eqb_spec (Major a) (Major b)), (Z.eqb_spec (Major b) (Major c)),
    (Z.eqb_spec (Major a) (Major c)); by_numbers.
  destruct (Z.eqb_spec (Minor a) (Minor b)), (Z.eqb_spec (Minor b) (Minor c)),
    (Z.eqb_spec (Minor a) (Minor c)); by_numbers.
  destruct (Z.eqb_spec (Patch a) (Patch b)), (Z.eqb_spec (Patch b) (Patch c)),
    (Z.eqb_spec (Patch a) (Patch c)); by_numbers.
  destruct (preRelease a =? "")%string; [discriminate|].
  destruct (preRelease b =? "")%string; [discriminate|].
  destruct (preRelease c =? "")%string; [reflexivity|].
  apply string_ltb_trans.
Qed.

Lemma Equal_iff (a b : Version) :
  Equal a b = true <->
  Major a = Major b /\ Minor a = Minor b /\ Patch a = Patch b
  /\ preRelease a = preRelease b.
Proof.
  unfold Equal. rewrite andb_true_iff, !negb_true_iff, !Less_unfold.
  rewrite (Z.eqb_sym (Major b)), (Z.eqb_sym (Minor b)), (Z.eqb_sym (Patch b)).
  destruct (Z.eqb_spec (Major a) (Major b)) as [E1|N1].
  2:{ split; [intros [H1 H2]; lia|tauto]. }
  destruct (Z.eqb_spec (Minor a) (Minor b)) as [E2|N2].
  2:{ split; [intros [H1 H2]; lia|tauto]. }
  destruct (Z.eqb_spec (Patch a) (Patch b)) as [E3|N3].
  2:{ split; [intros [H1 H2]; lia|tauto]. }
  destruct (String.eqb_spec (preRelease a) "") as [Ea|Na];
    destruct (String.eqb_spec (preRelease b) "") as [Eb|Nb].
  - rewrite Ea, Eb. tauto.
  - split; [intros [_ H]; discriminate|]. intros (_ & _ & _ & H). congruence.
  - split; [intros [H _]; discriminate|]. intros (_ & _ & _ & H). congruence.
  - split.
    + intros [H1 H2]. repeat split; auto. now apply string_ltb_total.
    + intros (_ & _ & _ & ->). now rewrite string_ltb_irrefl.
Qed.

(** ** Increments and overflow *)

Lemma succ_small (x : Z) : 0 <= x < U64.maxVal -> U64.succ x = x + 1.
Proof.
  unfold U64.succ, U64.wrap, U64.maxVal. intros H.
  apply Z.mod_small. lia.
Qed.

Lemma succ_maxVal : U64.succ U64.maxVal = 0.
Proof. reflexivity. Qed.

Lemma succ_cases (x : Z) :
  U64.inRange x ->
  (x < U64.maxVal /\ U64.succ x = x + 1) \/ (x = U64.maxVal /\ U64.succ x = 0).
Proof.
  unfold U64.inRange. intros H.
  destruct (Z.eq_dec x U64.maxVal) as [->|Hne].
  - right. split; reflexivity.
  - left. assert (x < U64.maxVal) by (unfold U64.maxVal in *; lia).
    split; [assumption|]. apply succ_small. lia.
Qed.

Lemma maxVal_pos : 0 < U64.maxVal.
Proof. reflexivity. Qed.

Ltac bump x H :=
  destruct (succ_cases x H) as [[? ->]|[? ->]].

Ltac exceed :=
  rewrite ?Less_unfold;
  unfold Increment, IncrementMajor, IncrementMinor, IncrementPatch,
    lastComponent, pessimisticComponent, clone, Major, Minor, Patch;
  cbn [major minor patch preRelease buildMetadata];
  rewrite ?Z.eqb_refl;
  repeat match goal with
    | H : U64.inRange ?x |- context [U64.succ ?x] =>
        destruct (succ_cases x H) as [[? ->]|[? ->]]
    end;
  repeat match goal with
    | |- context [?a =? ?b] => destruct (Z.eqb_spec a b); try lia
    | |- context [?a <? ?b] => destruct (Z.ltb_spec a b); try lia
    end;
  try match goal with
    | |- context [(?p =? "")%string] => destruct (p =? "")%string
    end;
  split; intros; try lia; try discriminate; try reflexivity.

(** X3.  For a version whose numbers are [uint64] values, each of
    [Increment], [IncrementMajor], [IncrementMinor] and [IncrementPatch]
    returns a version greater than its receiver exactly when the
    component it bumps is below 2^64-1: at 2^64-1 the component wraps to 0
    and the result is not greater.  The same holds for
    [IncrementPessimistic] where it returns. *)
Theorem increments_exceed_unless_overflow (v : Version) :
  inRangeVersion v ->
  (Less v (Increment v) = true <-> lastComponent v < U64.maxVal)
  /\ (Less v (IncrementMajor v) = true <-> Major v < U64.maxVal)
  /\ (Less v (IncrementMinor v) = true <-> Minor v < U64.maxVal)
  /\ (Less v (IncrementPatch v) = true <-> Patch v < U64.maxVal)
  /\ (forall next, IncrementPessimistic v = Some next ->
        (Less v next = true <-> pessimisticComponent v < U64.maxVal)).
Proof.
  pose proof maxVal_pos as Hmax.
  destruct v as [ma mi pa pre bm].
  unfold inRangeVersion, Major, Minor, Patch; cbn [major minor patch].
  intros (Hma & Hmi & Hpa).
  assert (H0 : U64.inRange 0) by (split; [lia|reflexivity]).
  split; [|split; [|split; [|split]]].
  - destruct mi as [mi|], pa as [pa|]; exceed.
  - destruct mi as [mi|], pa as [pa|]; exceed.
  - destruct mi as [mi|], pa as [pa|]; exceed.
  - destruct mi as [mi|], pa as [pa|]; exceed.
  - intros next.
    destruct mi as [mi|], pa as [pa|]; cbn; intros E; try discriminate;
      injection E as <-; exceed.
Qed.

Lemma increments_exceed_unless_overflow_witness :
  inRangeVersion (NewVersion 1 2 18446744073709551615)
  /\ (Less (NewVersion 1 2 18446744073709551615)
           (Increment (NewVersion 1 2 18446744073709551615)) = true
      <-> lastComponent (NewVersion 1 2 18446744073709551615) < U64.maxVal).
Proof.
  assert (H : inRangeVersion (NewVersion 1 2 18446744073709551615))
    by (split; [|split]; in_range).
  split; [exact H|].
  exact (proj1 (increments_exceed_unless_overflow _ H)).
Defined.

(** ** Comparisons *)

(** [Less] looks at the three numbers and the pre-release label only. *)
Lemma Less_Equal_l (a b c : Version) :
  Equal a b = true -> Less a c = Less b c.
Proof.
  rewrite Equal_iff. intros (E1 & E2 & E3 & E4).
  now rewrite !Less_unfold, E1, E2, E3, E4.
Qed.

Lemma Less_Equal_r (a b c : Version) :
  Equal a b = true -> Less c a = Less c b.
Proof.
  rewrite Equal_iff. intros (E1 & E2 & E3 & E4).
  now rewrite !Less_unfold, E1, E2, E3, E4.
Qed.

Lemma Equal_sym (a b : Version) : Equal a b = Equal b a.
Proof. unfold Equal. apply andb_comm. Qed.

Lemma Equal_trans (a b c : Version) :
  Equal a b = true -> Equal b c = true -> Equal a c = true.
Proof. rewrite !Equal_iff. intuition congruence. Qed.

(** a < b <= c *)
Lemma Less_LessEqual_trans (a b c : Version) :
  Less a b = true -> Less c b = false -> Less a c = true.
Proof.
  intros Hab Hcb.
  destruct (Less b c) eqn:Hbc; [exact (Less_trans _ _ _ Hab Hbc)|].
  assert (E : Equal b c = true) by (unfold Equal; now rewrite Hbc, Hcb).
  now rewrite <- (Less_Equal_r _ _ _ E).
Qed.

(** a <= b < c *)
Lemma LessEqual_Less_trans (a b c : Version) :
  Less b a = false -> Less b c = true -> Less a c = true.
Proof.
  intros Hba Hbc.
  destruct (Less a b) eqn:Hab; [exact (Less_trans _ _ _ Hab Hbc)|].
  assert (E : Equal a b = true) by (unfold Equal; now rewrite Hab, Hba).
  now rewrite (Less_Equal_l _ _ _ E).
Qed.

(** X4.  [Less] is a strict weak order: irreflexive, transitive, and if
    neither a < b nor b < c then not a < c.  [GreaterEqual] is [Greater]
    or [Equal], and [LessEqual] is [Less] or [Equal]. *)
Theorem Less_strict_order (a b c : Version) :
  Less a a = false
  /\ (Less a b = true -> Less b c = true -> Less a c = true)
  /\ (Less a b = false -> Less b c = false -> Less a c = false)
  /\ GreaterEqual a b = Greater a b || Equal a b
  /\ LessEqual a b = Less a b || Equal a b.
Proof.
  split; [apply Less_irrefl|]. split; [apply Less_trans|]. split.
  - intros Hab Hbc. destruct (Less a c) eqn:Hac; [|reflexivity].
    rewrite <- Hab. symmetry. eapply Less_LessEqual_trans; eauto.
  - unfold GreaterEqual, LessEqual. rewrite !Greater_spec. unfold Equal.
    destruct (Less a b) eqn:E1, (Less b a) eqn:E2; split; try reflexivity;
      now rewrite (Less_asym _ _ E1) in E2.
Qed.

(** X5.  Two versions are [Equal] exactly when their major, minor and
    patch numbers (an absent component counts as 0) and their pre-release
    labels are the same: build metadata is ignored, and a version without
    minor and patch components equals the one with both set to 0. *)
Theorem Equal_same_numbers_and_label (a b : Version) :
  (Equal a b = true <->
   Major a = Major b /\ Minor a = Minor b /\ Patch a = Patch b
   /\ PreRelease a = PreRelease b)
  /\ (forall build, Equal (SetBuildMetadata a build) a = true)
  /\ Equal (mkVersion (major a) None None (preRelease a) "")
           (mkVersion (major a) (Some 0) (Some 0) (preRelease a) "") = true.
Proof.
  split; [apply Equal_iff|]. split.
  - intros build. apply Equal_iff. repeat split.
  - apply Equal_iff. repeat split.
Qed.

(** X6.  [Satisfies] does not tell versions that are [Equal] apart: if v
    and w are equal, v satisfies a constraint exactly when w does, and
    the call panics for v exactly when it panics for w. *)
Theorem Satisfies_respects_Equal (v w : Version) (c : Constraint) :
  Equal v w = true -> Satisfies v c = Satisfies w c.
Proof.
  intros E. unfold Satisfies, Equal, Greater, GreaterEqual, LessEqual, Greater.
  pose proof (fun x => Less_Equal_l v w x E) as Hl.
  pose proof (fun x => Less_Equal_r v w x E) as Hr.
  rewrite !Hl, !Hr.
  repeat (destruct (opEq _ _); [reflexivity|]).
  destruct (opEq _ _); [|reflexivity].
  destruct (negb _); [|reflexivity].
  destruct (IncrementPessimistic _); [|reflexivity].
  now rewrite Hl.
Qed.

Lemma Satisfies_respects_Equal_witness :
  Equal (mkVersion 1 None None "" "b1") (NewVersion 1 0 0) = true
  /\ Satisfies (mkVersion 1 None None "" "b1")
       (NewConstraint GEPessimistic (NewVersion 1 0 0))
     = Satisfies (NewVersion 1 0 0)
         (NewConstraint GEPessimistic (NewVersion 1 0 0)).
Proof.
  split; [reflexivity|].
  exact (Satisfies_respects_Equal (mkVersion 1 None None "" "b1") (NewVersion 1 0 0)
           (NewConstraint GEPessimistic (NewVersion 1 0 0)) eq_refl).
Defined.

(** ** [Satisfies] and [Overlaps] *)

Lemma Increment_le_IncrementPessimistic (v next : Version) :
  inRangeVersion v -> pessimisticComponent v < U64.maxVal ->
  IncrementPessimistic v = Some next ->
  Less next (Increment v) = false.
Proof.
  pose proof maxVal_pos as Hmax.
  destruct v as [ma mi pa pre bm].
  unfold inRangeVersion, Major, Minor, Patch, pessimisticComponent;
    cbn [major minor patch].
  intros (Hma & Hmi & Hpa) Hlt.
  destruct mi as [mi|], pa as [pa|]; cbn; intros E; try discriminate;
    injection E as <-; rewrite Less_unfold;
    unfold Increment, clone, Major, Minor, Patch;
    cbn [major minor patch preRelease buildMetadata] in *;
    repeat match goal with
      | H : U64.inRange ?x |- context [U64.succ ?x] =>
          destruct (succ_cases x H) as [[? ->]|[? ->]]
      end;
    repeat match goal with
      | |- context [?a =? ?b] => destruct (Z.eqb_spec a b); try lia
      | |- context [?a <? ?b] => destruct (Z.ltb_spec a b); try lia
      end; try reflexivity;
    unfold Minor, Major in Hlt; cbn in Hlt; lia.
Qed.

(** X7.  Where [Overlaps] answers true for a [>=] constraint g and a [~>]
    constraint p whose bumped component does not overflow, the version of
    g satisfies both g and p: the overlap is a real one. *)
Theorem Overlaps_GE_pessimistic_witnessed (g p : Constraint) :
  operator g = GE -> operator p = GEPessimistic ->
  wellFormed (version p) = true -> inRangeVersion (version p) ->
  pessimisticComponent (version p) < U64.maxVal ->
  Overlaps g p = Some true ->
  Satisfies (version g) g = Some true /\ Satisfies (version g) p = Some true.
Proof.
  intros Hg Hp Hwf Hrange Hlt Hov.
  unfold Overlaps in Hov. rewrite Hg, Hp in Hov. cbn in Hov.
  injection Hov as Hov. apply andb_true_iff in Hov as [Hge Hless].
  split.
  - unfold Satisfies. rewrite Hg. cbn. unfold GreaterEqual.
    now rewrite Less_irrefl.
  - rewrite Satisfies_GEPessimistic by assumption. rewrite Hge.
    destruct (wellFormed_IncrementPessimistic _ Hwf) as [next Hnext].
    rewrite Hnext. f_equal.
    eapply Less_LessEqual_trans; [exact Hless|].
    now apply Increment_le_IncrementPessimistic.
Qed.

Lemma Overlaps_GE_pessimistic_witnessed_witness :
  operator (NewConstraint GE (NewVersion 1 2 3)) = GE
  /\ operator (NewConstraint GEPessimistic (NewVersion 1 2 3)) = GEPessimistic
  /\ wellFormed (NewVersion 1 2 3) = true
  /\ inRangeVersion (NewVersion 1 2 3)
  /\ pessimisticComponent (NewVersion 1 2 3) < U64.maxVal
  /\ Overlaps (NewConstraint GE (NewVersion 1 2 3))
       (NewConstraint GEPessimistic (NewVersion 1 2 3)) = Some true
  /\ Satisfies (NewVersion 1 2 3) (NewConstraint GE (NewVersion 1 2 3)) = Some true
  /\ Satisfies (NewVersion 1 2 3) (NewConstraint GEPessimistic (NewVersion 1 2 3))
     = Some true.
Proof.
  assert (H : inRangeVersion (NewVersion 1 2 3)) by (split; [|split]; in_range).
  assert (Hlt : pessimisticComponent (NewVersion 1 2 3) < U64.maxVal) by reflexivity.
  do 3 (split; [reflexivity|]). split; [exact H|]. split; [exact Hlt|].
  split; [reflexivity|].
  exact (Overlaps_GE_pessimistic_witnessed
           (NewConstraint GE (NewVersion 1 2 3))
           (NewConstraint GEPessimistic (NewVersion 1 2 3))
           eq_refl eq_refl eq_refl H Hlt eq_refl).
Defined.

(** X8.  For all versions v and x, exactly one of [v < x], [v = x] and
    [v > x] is satisfied; [v != x] is the negation of [v = x], [v <= x] is
    [v < x] or [v = x], and [v >= x] is [v > x] or [v = x]. *)
Theorem Satisfies_three_way (v x : Version) :
  exists lt eq gt : bool,
    Satisfies v (NewConstraint LT x) = Some lt
    /\ Satisfies v (NewConstraint EQ x) = Some eq
    /\ Satisfies v (NewConstraint GT x) = Some gt
    /\ Satisfies v (NewConstraint NE x) = Some (negb eq)
    /\ Satisfies v (NewConstraint LE x) = Some (lt || eq)
    /\ Satisfies v (NewConstraint GE x) = Some (gt || eq)
    /\ ((lt = true /\ eq = false /\ gt = false)
        \/ (lt = false /\ eq = true /\ gt = false)
        \/ (lt = false /\ eq = false /\ gt = true)).
Proof.
  exists (Less v x), (Equal v x), (Greater v x).
  unfold Satisfies, NewConstraint; cbn.
  unfold LessEqual, GreaterEqual, Equal. rewrite !Greater_spec.
  destruct (Less v x) eqn:E1, (Less x v) eqn:E2; cbn;
    try (rewrite (Less_asym _ _ E1) in E2; discriminate);
    repeat (split; [reflexivity|]); tauto.
Qed.

(** X9.  A set made of an [=] constraint on x and of one constraint with
    operator [=], [!=], [>] or [<] is reported contradictory, in either
    order, exactly when x does not satisfy the other constraint.  With
    [>= y] and with [<= y] it is reported exactly when x does not satisfy
    the strict [> y], respectively [< y]: [= y] with [>= y] is reported. *)
Theorem Contradicts_EQ_table (x y : Version) :
  let e := NewConstraint EQ x in
  (forall op, op = EQ \/ op = NE \/ op = GT \/ op = LT ->
     (reported [e; NewConstraint op y] <->
      Satisfies x (NewConstraint op y) = Some false)
     /\ (reported [NewConstraint op y; e] <->
         Satisfies x (NewConstraint op y) = Some false))
  /\ (reported [e; NewConstraint GE y] <->
      Satisfies x (NewConstraint GT y) = Some false)
  /\ (reported [e; NewConstraint LE y] <->
      Satisfies x (NewConstraint LT y) = Some false).
Proof.
  intros e. unfold reported, e.
  split; [intros op Hop; split|split].
  all: rewrite ?Contradicts_pair.
  all: try (destruct Hop as [ -> | [ -> | [ -> | -> ] ] ]).
  all: unfold eitherContradicts, checkContradict, Overlaps, Satisfies, NewConstraint;
    cbn; unfold LessEqual, GreaterEqual, Equal; rewrite ?Greater_spec.
  all: destruct (Less x y) eqn:E1, (Less y x) eqn:E2; cbn.
  all: try (rewrite (Less_asym _ _ E1) in E2; discriminate).
  all: split; try (intros [? ?]); try congruence; eauto.
Qed.

(** ** [Contradicts] as a property of the pairs of a set *)

Section PairsOf.

Lemma omap_lookup_seq (cs : Constraints) (c : Constraint) (all : Constraints)
  (k : nat) :
  (forall j, all !! (k + j)%nat = cs !! j) -> all !! 0%nat = Some c ->
  omap (pairAt all) (map (pair 0%nat) (seq k (length cs))) = map (pair c) cs.
Proof.
  intros Hall H0. revert k Hall. induction cs as [|c' cs IH]; intros k Hall.
  - reflexivity.
  - cbn [length seq map omap list_omap]. unfold pairAt at 1. cbn [fst snd].
    rewrite H0. specialize (Hall 0%nat) as H1. rewrite Nat.add_0_r in H1.
    rewrite H1. cbn. f_equal. apply IH.
    intros j. transitivity (all !! (k + S j)%nat); [f_equal; lia|].
    exact (Hall (S j)).
Qed.

Lemma pairsFrom_S (n i : nat) :
  pairsFrom (S n) (S i) = map (fun ij => (S ij.1, S ij.2)) (pairsFrom n i).
Proof.
  unfold pairsFrom. rewrite map_map. cbn [fst snd].
  replace (S n - (S i + 1))%nat with (n - (i + 1))%nat by lia.
  replace (S i + 1)%nat with (S (i + 1)) by lia.
  rewrite <- seq_shift, map_map. reflexivity.
Qed.

Lemma flat_pairsFrom_S (n i k : nat) :
  flat_map (pairsFrom (S n)) (seq (S i) k)
  = map (fun ij => (S ij.1, S ij.2)) (flat_map (pairsFrom n) (seq i k)).
Proof.
  revert i. induction k as [|k IH]; intros i; [reflexivity|].
  cbn [seq flat_map]. now rewrite map_app, IH, pairsFrom_S.
Qed.

Lemma omap_step {A B} (f : A -> option B) (a : A) (l : list A) :
  omap f (a :: l) = match f a with
                    | Some y => y :: omap f l
                    | None => omap f l
                    end.
Proof. reflexivity. Qed.

Lemma omap_pairAt_S (c : Constraint) (cs : Constraints) (ps : list (nat * nat)) :
  omap (pairAt (c :: cs)) (map (fun ij => (S ij.1, S ij.2)) ps)
  = omap (pairAt cs) ps.
Proof.
  induction ps as [|[i j] ps IH]; [reflexivity|].
  cbn [map]. rewrite !omap_step, IH. reflexivity.
Qed.

Lemma examined_pairsOf (all : Constraints) :
  omap (pairAt all) (indexPairs (length all)) = pairsOf all.
Proof.
  induction all as [|c cs IH]; [reflexivity|].
  unfold indexPairs. cbn [length seq flat_map pairsOf].
  rewrite omap_app, flat_pairsFrom_S, omap_pairAt_S.
  fold (indexPairs (length cs)). rewrite IH. f_equal.
  unfold pairsFrom. replace (S (length cs) - (0 + 1))%nat with (length cs) by lia.
  apply omap_lookup_seq; [|reflexivity].
  intros j. reflexivity.
Qed.

End PairsOf.

Lemma Contradicts_pairsOf (c : Constraints) (additional : list Constraints) :
  Contradicts c additional = recordAll (pairsOf (c ++ concat additional)) None.
Proof. now rewrite Contradicts_recordAll, examined_pairsOf. Qed.

Section Consistent.

Lemma filter_nil_Forall {A} (f : A -> bool) (l : list A) :
  List.filter f l = [] <-> Forall (fun p => f p = false) l.
Proof.
  induction l as [|p l IH]; cbn.
  - split; [constructor|reflexivity].
  - destruct (f p) eqn:E.
    + split; [discriminate|]. intros H. inversion H; congruence.
    + rewrite IH. split; [now constructor|]. intros H. now inversion H.
Qed.

Lemma Contradicts_nil_iff (cs : Constraints) (err : option goError) :
  Contradicts cs [] = Some err ->
  (err = None <-> Forall (fun p => contradictory p = false) (pairsOf cs)).
Proof.
  rewrite Contradicts_pairsOf. cbn [concat]. rewrite app_nil_r.
  intros H. apply recordAll_contradictions in H as [_ H].
  rewrite H, filter_nil_Forall. tauto.
Qed.

Lemma wellFormedAll_pairsOf (cs : Constraints) :
  wellFormedAll cs ->
  Forall (fun p => wellFormed (version p.1) = true
                   /\ wellFormed (version p.2) = true) (pairsOf cs).
Proof.
  unfold wellFormedAll. induction 1 as [|c cs Hc Hcs IH]; [constructor|].
  cbn [pairsOf]. apply Forall_app. split; [|exact IH].
  clear IH. induction Hcs as [|c' cs' Hc' _ IH]; constructor; auto.
Qed.

Lemma Contradicts_wellFormed (cs : Constraints) :
  wellFormedAll cs -> exists err, Contradicts cs [] = Some err.
Proof.
  intros Hwf. rewrite Contradicts_pairsOf. cbn [concat]. rewrite app_nil_r.
  destruct (recordAll_defined (pairsOf cs) None (wellFormedAll_pairsOf _ Hwf))
    as [err Herr].
  eauto.
Qed.

Lemma contradictory_sym (a b : Constraint) :
  wellFormed (version a) = true -> wellFormed (version b) = true ->
  contradictory (a, b) = contradictory (b, a).
Proof.
  intros Ha Hb. unfold contradictory. cbn [fst snd].
  destruct (eitherContradicts_defined a b Ha Hb) as [[x Hx] Hab].
  destruct (eitherContradicts_defined b a Hb Ha) as [[y Hy] Hba].
  rewrite Hx, Hy. rewrite Hx in Hab. rewrite Hy in Hba.
  destruct x, y; try reflexivity.
  - destruct Hab as [Hab _]. specialize (Hab eq_refl).
    destruct Hba as [_ Hba]. assert (Some false = Some true) by (apply Hba; tauto).
    discriminate.
  - destruct Hba as [Hba _]. specialize (Hba eq_refl).
    destruct Hab as [_ Hab]. assert (Some false = Some true) by (apply Hab; tauto).
    discriminate.
Qed.

Lemma Forall_pair_map {A B} (Q : A * B -> Prop) (a : A) (l : list B) :
  Forall Q (map (pair a) l) <-> Forall (fun b => Q (a, b)) l.
Proof.
  induction l as [|b l IH]; cbn.
  - split; constructor.
  - split; intros H; inversion H; subst; constructor; tauto.
Qed.

Lemma pairsOf_Permutation (Q : Constraint * Constraint -> Prop)
  (W : Constraint -> Prop) :
  (forall a b, W a -> W b -> Q (a, b) -> Q (b, a)) ->
  forall cs cs', cs ≡ₚ cs' -> Forall W cs ->
    Forall Q (pairsOf cs) -> Forall Q (pairsOf cs').
Proof.
  intros Hsym cs cs' Hperm.
  induction Hperm as [|x l l' Hperm IH|x y l|l l' l'' H1 IH1 H2 IH2];
    intros HW HQ.
  - constructor.
  - cbn [pairsOf] in *. apply Forall_app in HQ as [HQ1 HQ2].
    inversion HW; subst.
    apply Forall_app. split; [|auto].
    apply Forall_pair_map. apply Forall_pair_map in HQ1.
    now rewrite <- Hperm.
  - cbn [pairsOf map app] in *.
    inversion HW as [|? ? Wy HW']; subst. inversion HW' as [|? ? Wx HW'']; subst.
    inversion HQ as [|? ? Qyx HQ']; subst.
    apply Forall_app in HQ' as [HQ1 HQ2]. apply Forall_app in HQ2 as [HQ2 HQ3].
    constructor; [auto|].
    apply Forall_app. split; [exact HQ2|]. apply Forall_app. split; assumption.
  - apply IH2; [now rewrite <- H1|]. now apply IH1.
Qed.

End Consistent.

(** X10.  [Contradicts] of a set and further sets is [Contradicts] of
    their concatenation, and whether a set is free of reported
    contradictions does not depend on the order of its constraints. *)
Theorem Contradicts_order_insensitive (cs cs' : Constraints)
  (c : Constraints) (additional : list Constraints) :
  Contradicts c additional = Contradicts (c ++ concat additional) []
  /\ (wellFormedAll cs -> cs ≡ₚ cs' ->
      (Contradicts cs [] = Some None <-> Contradicts cs' [] = Some None)).
Proof.
  split.
  - rewrite !Contradicts_pairsOf. cbn [concat]. now rewrite app_nil_r.
  - intros Hwf Hperm.
    assert (Hwf' : wellFormedAll cs')
      by (unfold wellFormedAll in *; now rewrite <- Hperm).
    assert (Hone : forall l l', wellFormedAll l -> l ≡ₚ l' ->
              Contradicts l [] = Some None -> Contradicts l' [] = Some None).
    { intros l l' Hl Hp H.
      assert (Hl' : wellFormedAll l')
        by (unfold wellFormedAll in *; now rewrite <- Hp).
      destruct (Contradicts_wellFormed _ Hl') as [err' Herr'].
      rewrite Herr'. f_equal. apply (Contradicts_nil_iff _ _ Herr').
      apply (pairsOf_Permutation _ (fun c => wellFormed (version c) = true))
        with (cs := l); auto.
      - intros a b Ha Hb. now rewrite (contradictory_sym a b Ha Hb).
      - now apply (Contradicts_nil_iff _ _ H). }
    split; eauto. apply Hone; [assumption|now symmetry].
Qed.

(** Sublists are kept by [map], by [filter] and by [pairsOf]. *)
Lemma sublist_map {A B} (f : A -> B) (l1 l2 : list A) :
  l1 `sublist_of` l2 -> map f l1 `sublist_of` map f l2.
Proof. induction 1; cbn; now constructor. Qed.

Lemma sublist_List_filter {A} (f : A -> bool) (l1 l2 : list A) :
  l1 `sublist_of` l2 -> List.filter f l1 `sublist_of` List.filter f l2.
Proof.
  induction 1 as [|x l1 l2 _ IH|x l1 l2 _ IH]; cbn.
  - constructor.
  - destruct (f x); [now constructor|exact IH].
  - destruct (f x); [now constructor|exact IH].
Qed.

Lemma sublist_pairsOf (cs' cs : Constraints) :
  cs' `sublist_of` cs -> pairsOf cs' `sublist_of` pairsOf cs.
Proof.
  induction 1 as [|x l1 l2 H IH|x l1 l2 H IH]; cbn [pairsOf].
  - constructor.
  - apply sublist_app; [now apply sublist_map|exact IH].
  - now apply sublist_inserts_l.
Qed.

(** X11.  Removing constraints from a set removes reported
    contradictions only: the pairs reported for a subsequence are a
    subsequence of those reported for the whole set, and a subsequence of
    a set without contradiction has none. *)
Theorem Contradicts_monotone (cs' cs : Constraints) :
  wellFormedAll cs -> cs' `sublist_of` cs ->
  exists err' err,
    Contradicts cs' [] = Some err' /\ Contradicts cs [] = Some err
    /\ contradictions err' `sublist_of` contradictions err
    /\ (err = None -> err' = None).
Proof.
  intros Hwf Hsub.
  assert (Hwf' : wellFormedAll cs').
  { unfold wellFormedAll in *. rewrite Forall_forall in *.
    intros c Hc. apply Hwf. eapply sublist_subseteq; eauto. }
  destruct (Contradicts_wellFormed _ Hwf) as [err Herr].
  destruct (Contradicts_wellFormed _ Hwf') as [err' Herr'].
  exists err', err. split; [assumption|]. split; [assumption|].
  pose proof Herr as H. pose proof Herr' as H'.
  rewrite Contradicts_pairsOf in H, H'. cbn [concat] in H, H'.
  rewrite app_nil_r in H, H'.
  apply recordAll_contradictions in H as [H _], H' as [H' Hnil'].
  cbn in H, H'.
  assert (Hs : contradictions err' `sublist_of` contradictions err).
  { rewrite H, H'. now apply sublist_List_filter, sublist_pairsOf. }
  split; [exact Hs|].
  intros ->. cbn in Hs. apply sublist_nil_r in Hs.
  apply Hnil'. split; [reflexivity|]. now rewrite <- H'.
Qed.

Lemma Contradicts_monotone_witness :
  wellFormedAll [NewConstraint GE (NewVersion 2 0 0);
                 NewConstraint LT (NewVersion 1 0 0);
                 NewConstraint EQ (NewVersion 3 0 0)]
  /\ [NewConstraint GE (NewVersion 2 0 0); NewConstraint EQ (NewVersion 3 0 0)]
     `sublist_of` [NewConstraint GE (NewVersion 2 0 0);
                   NewConstraint LT (NewVersion 1 0 0);
                   NewConstraint EQ (NewVersion 3 0 0)]
  /\ exists err' err,
       Contradicts [NewConstraint GE (NewVersion 2 0 0);
                    NewConstraint EQ (NewVersion 3 0 0)] [] = Some err'
       /\ Contradicts [NewConstraint GE (NewVersion 2 0 0);
                       NewConstraint LT (NewVersion 1 0 0);
                       NewConstraint EQ (NewVersion 3 0 0)] [] = Some err
       /\ contradictions err' `sublist_of` contradictions err
       /\ (err = None -> err' = None).
Proof.
  assert (H1 : wellFormedAll [NewConstraint GE (NewVersion 2 0 0);
                              NewConstraint LT (NewVersion 1 0 0);
                              NewConstraint EQ (NewVersion 3 0 0)])
    by (repeat constructor).
  assert (H2 : [NewConstraint GE (NewVersion 2 0 0); NewConstraint EQ (NewVersion 3 0 0)]
               `sublist_of` [NewConstraint GE (NewVersion 2 0 0);
                             NewConstraint LT (NewVersion 1 0 0);
                             NewConstraint EQ (NewVersion 3 0 0)])
    by (apply sublist_skip, sublist_cons, sublist_skip, sublist_nil
        || apply sublist_skip, sublist_cons, sublist_cons, sublist_nil).
  split; [exact H1|]. split; [exact H2|].
  exact (Contradicts_monotone _ _ H1 H2).
Defined.

Lemma Forall_pairsOf (W : Constraint -> Prop) (Q : Constraint * Constraint -> Prop)
  (cs : Constraints) :
  (forall a b, W a -> W b -> Q (a, b)) -> Forall W cs -> Forall Q (pairsOf cs).
Proof.
  intros HQ. induction 1 as [|c cs Hc Hcs IH]; [constructor|].
  cbn [pairsOf]. apply Forall_app. split; [|exact IH].
  apply Forall_pair_map. eapply Forall_impl; [exact Hcs|]. cbv beta. auto.
Qed.

Lemma recordAll_none_reported (ps : list (Constraint * Constraint))
  (err : option goError) :
  Forall (fun p => eitherContradicts p.1 p.2 = Some false) ps ->
  recordAll ps err = Some err.
Proof.
  induction 1 as [|p ps Hp _ IH]; [reflexivity|].
  cbn [recordAll]. unfold record. now rewrite Hp.
Qed.

Lemma checkContradict_same_bound (a b : Constraint) :
  operator a = operator b -> Equal (version a) (version b) = true ->
  checkContradict a b = Some false.
Proof.
  intros Hop Heq. unfold checkContradict, opEq.
  now rewrite Hop, String.eqb_refl, Heq.
Qed.

(** X12.  A set whose constraints all have the same operator and [Equal]
    versions is not reported contradictory, whatever the operator. *)
Theorem Contradicts_same_bound (c : Constraint) (cs : Constraints) :
  Forall (fun c' => operator c' = operator c
                    /\ Equal (version c') (version c) = true) cs ->
  Contradicts cs [] = Some None.
Proof.
  intros H. rewrite Contradicts_pairsOf. cbn [concat]. rewrite app_nil_r.
  apply recordAll_none_reported.
  eapply Forall_pairsOf; [|exact H]. cbv beta.
  intros a b [Ha1 Ha2] [Hb1 Hb2]. cbn [fst snd].
  assert (Hab : Equal (version a) (version b) = true).
  { eapply Equal_trans; [exact Ha2|]. now rewrite Equal_sym. }
  unfold eitherContradicts.
  rewrite checkContradict_same_bound by congruence.
  apply checkContradict_same_bound; [congruence|]. now rewrite Equal_sym.
Qed.

Lemma Contradicts_same_bound_witness :
  Forall (fun c' => operator c' = operator (NewConstraint GE (NewVersion 1 2 3))
                    /\ Equal (version c') (version (NewConstraint GE (NewVersion 1 2 3)))
                       = true)
    [NewConstraint GE (NewVersion 1 2 3);
     NewConstraint GE (mkVersion 1 (Some 2) (Some 3) "" "b7")]
  /\ Contradicts [NewConstraint GE (NewVersion 1 2 3);
                  NewConstraint GE (mkVersion 1 (Some 2) (Some 3) "" "b7")] []
     = Some None.
Proof.
  assert (H : Forall (fun c' => operator c' = operator (NewConstraint GE (NewVersion 1 2 3))
                    /\ Equal (version c') (version (NewConstraint GE (NewVersion 1 2 3)))
                       = true)
    [NewConstraint GE (NewVersion 1 2 3);
     NewConstraint GE (mkVersion 1 (Some 2) (Some 3) "" "b7")])
    by (repeat constructor).
  split; [exact H|].
  exact (Contradicts_same_bound _ _ H).
Defined.

(** ** The parsers ask for a digit *)

Section Consumed.

Variable input : list ascii.

(** What a match consumes is a prefix of the text, made of characters of
    the classes of the pattern. *)
Lemma Match_consumed (P : ascii -> bool) (r : regex) s c s' c' :
  within P r -> Match input r s c s' c' ->
  exists x, s = (x ++ s')%list /\ Forall (fun a => P a = true) x.
Proof.
  intros Hr H. induction H; cbn [within] in Hr.
  - exists []. split; [reflexivity|constructor].
  - exists [a]. split; [reflexivity|]. repeat constructor. auto.
  - destruct Hr as [Hr1 Hr2].
    destruct (IHMatch1 Hr1) as (x1 & -> & Hx1).
    destruct (IHMatch2 Hr2) as (x2 & -> & Hx2).
    exists (x1 ++ x2)%list. split; [now rewrite app_assoc|].
    apply Forall_app; auto.
  - apply IHMatch, Hr.
  - apply IHMatch, Hr.
  - exists []. split; [reflexivity|constructor].
  - destruct (IHMatch1 Hr) as (x1 & -> & Hx1).
    destruct (IHMatch2 Hr) as (x2 & -> & Hx2).
    exists (x1 ++ x2)%list. split; [now rewrite app_assoc|].
    apply Forall_app; auto.
  - destruct (IHMatch Hr) as (x & -> & Hx).
    exists x. split; [reflexivity|exact Hx].
  - exists []. split; [reflexivity|constructor].
  - exists []. split; [reflexivity|constructor].
Qed.

Lemma within_any (r : regex) : within (fun _ => true) r.
Proof. induction r; cbn; auto. Qed.

Lemma Match_suffix (r : regex) s c s' c' :
  Match input r s c s' c' -> exists x, s = (x ++ s')%list.
Proof.
  intros H. destruct (Match_consumed _ _ _ _ _ _ (within_any r) H) as (x & Hx & _).
  eauto.
Qed.

(** The text captured by a group is the text its pattern consumed. *)
Lemma Match_Group_captured (P : ascii -> bool) (i : nat) (r : regex) s c s' c' :
  within P r -> Match input (Group i r) s c s' c' ->
  exists x, s = (x ++ s')%list /\ c' i = x /\ Forall (fun a => P a = true) x.
Proof.
  intros Hr H. inversion H; subst.
  match goal with
  | Ha : Match _ r _ _ _ _ |- _ =>
      destruct (Match_consumed P _ _ _ _ _ Hr Ha) as (x & -> & Hx)
  end.
  exists x. split; [reflexivity|]. split; [|exact Hx].
  unfold setCapture. rewrite Nat.eqb_refl, length_app.
  replace (length x + length s' - length s')%nat with (length x) by lia.
  now rewrite firstn_app, Nat.sub_diag, firstn_all, firstn_O, app_nil_r.
Qed.

Lemma Match_Plus_head (p : ascii -> bool) s c s' c' :
  Match input (Plus (Class p)) s c s' c' ->
  exists a s1, s = a :: s1 /\ p a = true.
Proof.
  unfold Plus. intros H. inversion H; subst.
  match goal with Ha : Match _ (Class _) _ _ _ _ |- _ => inversion Ha; subst end.
  eauto.
Qed.

End Consumed.

(** The leftmost match starts at a suffix of the text. *)
Lemma findFrom_suffix (input : list ascii) (r : regex) (s : list ascii)
  (res : captures) :
  findFrom input r s = Some res ->
  exists x s0, s = (x ++ s0)%list
    /\ matchK input (Group 0 r) s0 noCaptures (fun _ c => Some c) = Some res.
Proof.
  induction s as [|a s IH]; cbn [findFrom].
  - destruct (matchK input (Group 0 r) [] noCaptures _) eqn:E; [|discriminate].
    intros [= <-]. exists [], []. auto.
  - destruct (matchK input (Group 0 r) (a :: s) noCaptures _) eqn:E.
    + intros [= <-]. exists [], (a :: s). auto.
    + intros H. destruct (IH H) as (x & s0 & -> & H0).
      exists (a :: x), s0. auto.
Qed.

Lemma needsDigit_no_match (r : regex) (input : list ascii) :
  needsDigit r -> Forall (fun a => digit a = false) input ->
  findFrom input r input = None.
Proof.
  intros Hr Hin. destruct (findFrom input r input) as [res|] eqn:E; [|reflexivity].
  apply findFrom_suffix in E as (x & s0 & Hx & H).
  apply Hr in H as (a & Ha & Hd).
  rewrite Forall_forall in Hin.
  assert (Hain : a ∈ input) by (rewrite Hx; apply list_elem_of_In, in_or_app; auto).
  specialize (Hin a Hain).
  congruence.
Qed.

Lemma numericIdent_head (input : list ascii) s c s' c' :
  Match input numericIdent s c s' c' ->
  exists a s1, s = a :: s1 /\ digit a = true.
Proof.
  unfold numericIdent. intros H. inversion H; subst.
  - match goal with Ha : Match _ (Chr _) _ _ _ _ |- _ => inversion Ha; subst end.
    match goal with Ha : Ascii.eqb _ _ = true |- _ =>
      apply Ascii.eqb_eq in Ha; subst end.
    eauto.
  - match goal with Ha : Match _ (Cat _ _) _ _ _ _ |- _ => inversion Ha; subst end.
    match goal with Ha : Match _ (Class digit19) _ _ _ _ |- _ => inversion Ha; subst end.
    eexists _, _. split; [reflexivity|].
    match goal with Ha : digit19 _ = true |- _ =>
      unfold digit19 in Ha; apply andb_true_iff in Ha as [? ?] end.
    unfold digit, strconv.isDigit. apply andb_true_iff. split; lia.
Qed.

Lemma versionRegex_needsDigit : needsDigit (syntax versionRegex).
Proof.
  intros input s res. rewrite versionRegex_pieces, matchK_Group.
  intros H. peel H s0 c0 Hm0. peel H s1 c1 Hm1. peel H s2 c2 Hm2.
  inversion Hm0; subst.
  destruct (Match_suffix _ _ _ _ _ _ Hm1) as (x & ->).
  inversion Hm2; subst.
  match goal with
  | Ha : Match _ (Plus _) _ _ _ _ |- _ =>
      apply Match_Plus_head in Ha as (a & s3 & -> & Hd)
  end.
  exists a. split; [apply in_or_app; right; now left|exact Hd].
Qed.

Lemma semVerRegex_needsDigit : needsDigit (syntax semVerRegex).
Proof.
  intros input s res. unfold semVerRegex. cbn [syntax]. rewrite matchK_Group.
  intros H. peel H s0 c0 Hm0. peel H s1 c1 Hm1.
  inversion Hm0; subst. inversion Hm1; subst.
  match goal with
  | Ha : Match _ numericIdent _ _ _ _ |- _ =>
      apply numericIdent_head in Ha as (a & s3 & -> & Hd)
  end.
  exists a. split; [now left|exact Hd].
Qed.

Lemma constraintRegex_needsDigit : needsDigit (syntax constraintRegex).
Proof.
  intros input s res. unfold constraintRegex. cbn [syntax]. rewrite matchK_Group.
  intros H. peel H s0 c0 Hm0. peel H s1 c1 Hm1. peel H s2 c2 Hm2. peel H s3 c3 Hm3.
  inversion Hm0; subst.
  destruct (Match_suffix _ _ _ _ _ _ Hm1) as (x1 & ->).
  destruct (Match_suffix _ _ _ _ _ _ Hm2) as (x2 & ->).
  inversion Hm3; subst.
  match goal with
  | Ha : Match _ (Cat (Plus _) _) _ _ _ _ |- _ => inversion Ha; subst
  end.
  match goal with
  | Ha : Match _ (Plus _) _ _ _ _ |- _ =>
      apply Match_Plus_head in Ha as (a & s4 & -> & Hd)
  end.
  exists a. split; [|exact Hd].
  apply in_or_app; right. apply in_or_app; right. now left.
Qed.

Section Trim.

Lemma Forall_skipn {A} (P : A -> Prop) (n : nat) (l : list A) :
  Forall P l -> Forall P (skipn n l).
Proof.
  revert l. induction n as [|n IH]; intros l H; [exact H|].
  destruct l as [|a l]; [constructor|]. inversion H; subst. cbn. auto.
Qed.

Lemma trimLeft_Forall (P : ascii -> Prop) tokens fuel (s : list ascii) :
  Forall P s -> Forall P (strings.trimLeft tokens fuel s).
Proof.
  revert s. induction fuel as [|fuel IH]; intros s H; cbn; [exact H|].
  destruct (strings.spaceWidth tokens s); [exact H|].
  apply IH. now apply Forall_skipn.
Qed.

Lemma TrimSpace_Forall (P : ascii -> Prop) (s : string) :
  Forall P (list_ascii_of_string s) ->
  Forall P (list_ascii_of_string (strings.TrimSpace s)).
Proof.
  intros H. unfold strings.TrimSpace.
  rewrite list_ascii_of_string_of_list_ascii.
  apply Forall_rev, trimLeft_Forall, Forall_rev, trimLeft_Forall, H.
Qed.

Lemma TrimSpace_noDigit (s : string) : noDigit s -> noDigit (strings.TrimSpace s).
Proof. apply TrimSpace_Forall. Qed.

End Trim.

Lemma parseVersion_no_match (r : Regexp) (s : string) :
  needsDigit (syntax r) -> noDigit s -> parseVersion r s = Err ErrNoMatch.
Proof.
  intros Hr Hs. unfold parseVersion, FindStringSubmatch.
  now rewrite (needsDigit_no_match _ _ Hr Hs).
Qed.

Lemma strictConstraintRegex_semver (input s : list ascii) (res : captures) :
  Forall (fun a => digit a = false) s ->
  matchK input (Group 0 (syntax strictConstraintRegex)) s noCaptures
    (fun _ c => Some c) = Some res ->
  res 2%nat = [].
Proof.
  intros Hs. unfold strictConstraintRegex. cbn [syntax]. rewrite matchK_Group.
  intros H. peel H s0 c0 Hm0. peel H s1 c1 Hm1. peel H s2 c2 Hm2. peel H s3 c3 Hm3.
  apply matchK_sound in H as (s4 & c4 & Hm4 & H). injection H as <-.
  inversion Hm4; subst. unfold setCapture at 1. cbn [Nat.eqb].
  inversion Hm0; subst.
  destruct (Match_suffix _ _ _ _ _ _ Hm1) as (x1 & ->).
  destruct (Match_suffix _ _ _ _ _ _ Hm2) as (x2 & ->).
  inversion Hm3; subst.
  - exfalso.
    match goal with Ha : Match _ (Group 2 _) _ _ _ _ |- _ => inversion Ha; subst end.
    match goal with Ha : Match _ semVerBody _ _ _ _ |- _ =>
      unfold semVerBody in Ha; inversion Ha; subst end.
    match goal with Ha : Match _ numericIdent _ _ _ _ |- _ =>
      apply numericIdent_head in Ha as (a & s5 & -> & Hd) end.
    rewrite !Forall_app in Hs. destruct Hs as (_ & _ & Hs).
    inversion Hs; subst. congruence.
  - match goal with Ha : Match _ Empty _ _ _ _ |- _ => inversion Ha; subst end.
    rewrite (Match_frame _ _ _ _ _ _ Hm2), (Match_frame _ _ _ _ _ _ Hm1);
      [reflexivity|cbn; lia..].
Qed.

Lemma Forall_suffix {A} (P : A -> Prop) (x s : list A) :
  Forall P (x ++ s) -> Forall P s.
Proof. rewrite Forall_app. tauto. Qed.

Lemma constraint_parsers_reject_noDigit (s : string) :
  noDigit s ->
  ParseConstraint s = Failed (ErrConstraintNoMatch (strings.TrimSpace s))
  /\ ParseStrictConstraint s
     = Failed (ErrStrictConstraintNoMatch (strings.TrimSpace s)).
Proof.
  intros Hs. pose proof (TrimSpace_noDigit _ Hs) as Ht. split.
  - unfold ParseConstraint, FindStringSubmatch.
    now rewrite (needsDigit_no_match _ _ constraintRegex_needsDigit Ht).
  - unfold ParseStrictConstraint, FindStringSubmatch.
    destruct (findFrom _ (syntax strictConstraintRegex) _) as [res|] eqn:E;
      [|reflexivity].
    apply findFrom_suffix in E as (x & s0 & Hx & E).
    assert (H2 : res 2%nat = []).
    { eapply strictConstraintRegex_semver; [|exact E].
      unfold noDigit in Ht. rewrite Hx in Ht. eapply Forall_suffix, Ht. }
    cbv [SubexpNames subexpNames strictConstraintRegex map seq length
         Nat.ltb Nat.leb strictFields String.eqb Ascii.eqb Bool.eqb].
    rewrite H2. cbn [string_of_list_ascii String.eqb]. now rewrite orb_true_r.
Qed.

(** X13.  On a text without decimal digit, [ParseVersion] and
    [ParseSemVer] fail with the no-match error, [ParseConstraint] and
    [ParseStrictConstraint] fail with their no-match errors, which quote
    the trimmed text, and [MustParseVersion], [MustParseSemVer] and
    [MustParseConstraint] panic. *)
Theorem parsers_need_a_digit (s : string) :
  noDigit s ->
  ParseVersion s = Err ErrNoMatch
  /\ ParseSemVer s = Err ErrNoMatch
  /\ ParseConstraint s = Failed (ErrConstraintNoMatch (strings.TrimSpace s))
  /\ ParseStrictConstraint s
     = Failed (ErrStrictConstraintNoMatch (strings.TrimSpace s))
  /\ MustParseVersion s = None
  /\ MustParseSemVer s = None
  /\ MustParseConstraint s = None.
Proof.
  intros Hs.
  assert (HV : ParseVersion s = Err ErrNoMatch)
    by (apply parseVersion_no_match; [apply versionRegex_needsDigit|exact Hs]).
  assert (HS : ParseSemVer s = Err ErrNoMatch)
    by (apply parseVersion_no_match; [apply semVerRegex_needsDigit|exact Hs]).
  destruct (constraint_parsers_reject_noDigit s Hs) as [HC HSC].
  unfold MustParseVersion, MustParseSemVer, MustParseConstraint.
  rewrite HV, HS, HC, HSC. repeat split.
Qed.

Lemma parsers_need_a_digit_witness :
  noDigit "v.x-beta"
  /\ ParseVersion "v.x-beta" = Err ErrNoMatch
  /\ ParseSemVer "v.x-beta" = Err ErrNoMatch
  /\ ParseConstraint "v.x-beta"
     = Failed (ErrConstraintNoMatch (strings.TrimSpace "v.x-beta"))
  /\ ParseStrictConstraint "v.x-beta"
     = Failed (ErrStrictConstraintNoMatch (strings.TrimSpace "v.x-beta"))
  /\ MustParseVersion "v.x-beta" = None
  /\ MustParseSemVer "v.x-beta" = None
  /\ MustParseConstraint "v.x-beta" = None.
Proof.
  assert (H : noDigit "v.x-beta") by (repeat constructor).
  split; [exact H|].
  exact (parsers_need_a_digit "v.x-beta" H).
Defined.

Lemma Split_Forall (P : ascii -> Prop) (s : string) (sep : ascii) :
  Forall P (list_ascii_of_string s) ->
  Forall (fun piece => Forall P (list_ascii_of_string piece)) (strings.Split s sep).
Proof.
  induction s as [|a s IH]; cbn [strings.Split list_ascii_of_string]; intros H.
  - repeat constructor.
  - inversion H; subst. specialize (IH ltac:(assumption)).
    destruct (Ascii.eqb a sep).
    + constructor; [constructor|exact IH].
    + destruct (strings.Split s sep) as [|piece pieces].
      * repeat constructor. assumption.
      * inversion IH; subst. constructor; [|assumption].
        cbn. constructor; assumption.
Qed.

Lemma parseEach_fails (parse : string -> outcome Constraint)
  (wrap : string -> constraintError -> constraintError)
  (raws : list string) (acc : Constraints) :
  Exists (fun raw => exists e, parse raw = Failed e) raws ->
  exists raw e, parseEach parse wrap raws acc = Failed (wrap raw e).
Proof.
  intros H. revert acc. induction H as [raw raws [e He]|raw raws _ IH]; intros acc;
    cbn [parseEach].
  - rewrite He. eauto.
  - destruct (parse raw) as [c|e]; [apply IH|eauto].
Qed.

(** X14.  If one of the comma-separated pieces of a text has no digit (an
    empty piece, a trailing comma), [ParseConstraintSet] and
    [ParseStrictConstraintSet] fail with the error of a member, and the
    [Must] variants panic. *)
Theorem constraint_sets_need_digits (s : string) (raw : string) :
  raw ∈ strings.Split s "," -> noDigit raw ->
  (exists raw' e, ParseConstraintSet s = Failed (ErrSetMember raw' e))
  /\ (exists raw' e, ParseStrictConstraintSet s = Failed (ErrStrictSetMember raw' e))
  /\ MustParseConstraintSet s = None
  /\ MustParseStrictConstraintSet s = None.
Proof.
  intros Hin Hraw.
  destruct (constraint_parsers_reject_noDigit raw Hraw) as [H1 H2].
  assert (E1 : exists raw' e, ParseConstraintSet s = Failed (ErrSetMember raw' e)).
  { apply parseEach_fails, Exists_exists. exists raw. split; [assumption|eauto]. }
  assert (E2 : exists raw' e,
             ParseStrictConstraintSet s = Failed (ErrStrictSetMember raw' e)).
  { apply parseEach_fails, Exists_exists. exists raw. split; [assumption|eauto]. }
  split; [exact E1|]. split; [exact E2|].
  unfold MustParseConstraintSet, MustParseStrictConstraintSet.
  destruct E1 as (? & ? & ->), E2 as (? & ? & ->). auto.
Qed.

Lemma constraint_sets_need_digits_witness :
  " latest" ∈ strings.Split ">= 1.2.3, latest" ","
  /\ noDigit " latest"
  /\ MustParseConstraintSet ">= 1.2.3, latest" = None
  /\ MustParseStrictConstraintSet ">= 1.2.3, latest" = None.
Proof.
  assert (H1 : " latest" ∈ strings.Split ">= 1.2.3, latest" ",")
    by (apply list_elem_of_In; vm_compute; auto).
  assert (H2 : noDigit " latest") by (repeat constructor).
  split; [exact H1|]. split; [exact H2|].
  exact (proj2 (proj2 (constraint_sets_need_digits _ _ H1 H2))).
Defined.

(** ** The errors of the parsers *)

Section CaptureInvariant.

Variable input : list ascii.

Lemma firstn_consumed (x s' : list ascii) :
  firstn (length (x ++ s') - length s') (x ++ s')%list = x.
Proof.
  rewrite length_app.
  replace (length x + length s' - length s')%nat with (length x) by lia.
  now rewrite firstn_app, Nat.sub_diag, firstn_all, firstn_O, app_nil_r.
Qed.

Lemma Match_capturesOnly (Q : list ascii -> Prop) (i : nat) (r : regex)
  s c s' c' :
  capturesOnly Q i r -> Match input r s c s' c' -> Q (c i) -> Q (c' i).
Proof.
  intros Hr H. induction H; cbn [capturesOnly] in Hr; auto.
  - destruct Hr. auto.
  - destruct Hr. auto.
  - destruct Hr. auto.
  - destruct Hr as [Hi Hr]. intros Hc. unfold setCapture.
    destruct (Nat.eqb_spec i i0) as [->|Hne]; [|auto].
    destruct (Match_suffix _ _ _ _ _ _ H) as (x & ->).
    rewrite firstn_consumed. eapply Hi; eauto.
Qed.

End CaptureInvariant.

(** The result of the leftmost match, seen through a property of one
    submatch. *)
Lemma findFrom_capturesOnly (Q : list ascii -> Prop) (i : nat) (r : regex)
  (input s : list ascii) (res : captures) :
  i <> 0%nat -> capturesOnly Q i r -> Q [] ->
  findFrom input r s = Some res -> Q (res i).
Proof.
  intros Hi Hr HQ H. apply findFrom_suffix in H as (x & s0 & _ & H).
  rewrite matchK_Group in H. apply matchK_sound in H as (s1 & c1 & Hm & H).
  injection H as <-. unfold setCapture.
  destruct (Nat.eqb_spec i 0); [contradiction|].
  eapply Match_capturesOnly; eauto.
Qed.

Lemma within_capturesOnly (P : ascii -> bool) (r : regex) :
  within P r ->
  forall input x s' c c', Match input r (x ++ s')%list c s' c' ->
    Forall (fun a => P a = true) x.
Proof.
  intros Hr input x s' c c' H.
  destruct (Match_consumed input P r _ _ _ _ Hr H) as (y & Hy & HP).
  apply app_inv_tail in Hy as ->. exact HP.
Qed.

Lemma Plus_digit_digits :
  forall input x s' c c',
    Match input (Plus (Class digit)) (x ++ s')%list c s' c' -> digits x.
Proof. apply within_capturesOnly. cbn. auto. Qed.

Lemma numericIdent_digits :
  forall input x s' c c',
    Match input numericIdent (x ++ s')%list c s' c' -> digits x.
Proof.
  apply within_capturesOnly. unfold numericIdent, Chr. cbn [within].
  repeat split; auto.
  - intros a Ha. apply Ascii.eqb_eq in Ha as <-. reflexivity.
  - intros a Ha. unfold digit19 in Ha. apply andb_true_iff in Ha as [? ?].
    unfold digit, strconv.isDigit. apply andb_true_iff. split; lia.
Qed.

Lemma versionRegex_numbers (i : nat) :
  i = 1%nat \/ i = 3%nat \/ i = 5%nat ->
  capturesOnly digits i (syntax versionRegex).
Proof.
  intros [ -> | [ -> | -> ] ];
    cbn [syntax versionRegex semVerRegex capturesOnly Opt Plus];
    repeat split; try discriminate; try lia;
    intros _; apply Plus_digit_digits.
Qed.

Lemma semVerRegex_numbers (i : nat) :
  i = 1%nat \/ i = 2%nat \/ i = 3%nat ->
  capturesOnly digits i (syntax semVerRegex).
Proof.
  intros [ -> | [ -> | -> ] ];
    cbn [syntax versionRegex semVerRegex capturesOnly Opt Plus];
    repeat split; try discriminate; try lia;
    intros _; apply numericIdent_digits.
Qed.

(** A numeral is read or is out of range. *)
Lemma parseLoop_range (ds : list ascii) (n : Z) :
  digits ds ->
  (exists u, strconv.parseLoop ds n = Ok u) \/ strconv.parseLoop ds n = Err ErrRange.
Proof.
  intros H. revert n. induction H as [|a ds Ha _ IH]; intros n; cbn.
  - eauto.
  - unfold strconv.parseStep. unfold digit in Ha. rewrite Ha. cbn [negb].
    destruct (strconv.cutoff <=? n); [auto|].
    destruct (_ || _); [auto|]. apply IH.
Qed.

Lemma ParseUint_range (ds : list ascii) :
  digits ds -> ds <> [] ->
  (exists u, strconv.ParseUint (string_of_list_ascii ds) = Ok u)
  \/ strconv.ParseUint (string_of_list_ascii ds) = Err ErrRange.
Proof.
  intros Hds Hne. unfold strconv.ParseUint.
  destruct ds as [|a ds]; [contradiction|].
  cbn [string_of_list_ascii String.eqb].
  change (list_ascii_of_string (String a (string_of_list_ascii ds)))
    with (a :: list_ascii_of_string (string_of_list_ascii ds)).
  rewrite list_ascii_of_string_of_list_ascii. now apply parseLoop_range.
Qed.

Lemma versionRegex_major_captured (input s : list ascii) (res : captures) :
  matchK input (Group 0 (syntax versionRegex)) s noCaptures (fun _ c => Some c)
  = Some res ->
  res 1%nat <> [].
Proof.
  rewrite versionRegex_pieces, matchK_Group.
  intros H. peel H s0 c0 Hm0. peel H s1 c1 Hm1. peel H s2 c2 Hm2.
  apply matchK_sound in H as (s3 & c3 & Hm3 & H). injection H as <-.
  unfold setCapture at 1. cbn [Nat.eqb].
  rewrite (Match_frame _ _ _ _ _ _ Hm3) by (cbn; lia).
  eapply Group_captures; [|exact Hm2]. apply Plus_consumes, Class_consumes.
Qed.

Lemma semVerRegex_major_captured (input s : list ascii) (res : captures) :
  matchK input (Group 0 (syntax semVerRegex)) s noCaptures (fun _ c => Some c)
  = Some res ->
  res 1%nat <> [].
Proof.
  unfold semVerRegex. cbn [syntax]. rewrite matchK_Group.
  intros H. peel H s0 c0 Hm0. peel H s1 c1 Hm1.
  apply matchK_sound in H as (s2 & c2 & Hm2 & H). injection H as <-.
  unfold setCapture at 1. cbn [Nat.eqb].
  rewrite (Match_frame _ _ _ _ _ _ Hm2) by (cbn; lia).
  eapply Group_captures; [|exact Hm1]. apply numericIdent_consumes.
Qed.

Lemma ParseUint_cases (x : list ascii) :
  digits x -> x <> [] ->
  forall (A : Type) (name : string) (k : Z -> result A) (e : error),
    match strconv.ParseUint (string_of_list_ascii x) with
    | Err e' => Err (ErrComponent name e')
    | Ok u => k u
    end = Err e ->
    e = ErrComponent name ErrRange \/ exists u, k u = Err e.
Proof.
  intros Hx Hne A name k e.
  destruct (ParseUint_range x Hx Hne) as [[u ->]| ->].
  - eauto.
  - intros [= <-]. auto.
Qed.

Lemma parseFields_lenient_error (c : captures) (e : error) :
  digits (c 1%nat) -> c 1%nat <> [] -> digits (c 3%nat) -> digits (c 5%nat) ->
  parseFields (SubexpNames versionRegex)
    (map (fun i => string_of_list_ascii (c i)) (seq 0 9)) zeroVersion = Err e ->
  rangeError e.
Proof.
  intros H1 N1 H3 H5. cbn.
  intros H. apply ParseUint_cases in H as [->|[u H]]; try assumption.
  { exists "major". auto. }
  destruct (String.eqb_spec (string_of_list_ascii (c 3%nat)) "") as [E3|N3].
  - destruct (String.eqb_spec (string_of_list_ascii (c 5%nat)) "") as [E5|N5];
      [discriminate|].
    apply ParseUint_cases in H as [->|[u' H]]; try assumption;
      [exists "patch"; auto|discriminate|].
    now rewrite string_of_list_ascii_empty in N5.
  - rewrite string_of_list_ascii_empty in N3.
    apply ParseUint_cases in H as [->|[u' H]]; try assumption.
    { exists "minor". auto. }
    destruct (String.eqb_spec (string_of_list_ascii (c 5%nat)) "") as [E5|N5];
      [discriminate|].
    rewrite string_of_list_ascii_empty in N5.
    apply ParseUint_cases in H as [->|[u'' H]]; try assumption;
      [exists "patch"; auto|discriminate].
Qed.

Lemma parseFields_strict_error (c : captures) (e : error) :
  digits (c 1%nat) -> c 1%nat <> [] -> digits (c 2%nat) -> digits (c 3%nat) ->
  parseFields (SubexpNames semVerRegex)
    (map (fun i => string_of_list_ascii (c i)) (seq 0 6)) zeroVersion = Err e ->
  rangeError e.
Proof.
  intros H1 N1 H2 H3. cbn.
  intros H. apply ParseUint_cases in H as [->|[u H]]; try assumption.
  { exists "major". auto. }
  destruct (String.eqb_spec (string_of_list_ascii (c 2%nat)) "") as [E2|N2].
  - destruct (String.eqb_spec (string_of_list_ascii (c 3%nat)) "") as [E3|N3];
      [discriminate|].
    rewrite string_of_list_ascii_empty in N3.
    apply ParseUint_cases in H as [->|[u' H]]; try assumption;
      [exists "patch"; auto|discriminate].
  - rewrite string_of_list_ascii_empty in N2.
    apply ParseUint_cases in H as [->|[u' H]]; try assumption.
    { exists "minor". auto. }
    destruct (String.eqb_spec (string_of_list_ascii (c 3%nat)) "") as [E3|N3];
      [discriminate|].
    rewrite string_of_list_ascii_empty in N3.
    apply ParseUint_cases in H as [->|[u'' H]]; try assumption;
      [exists "patch"; auto|discriminate].
Qed.

Lemma ParseVersion_error (s : string) (e : error) :
  ParseVersion s = Err e -> e = ErrNoMatch \/ rangeError e.
Proof.
  unfold ParseVersion, parseVersion, FindStringSubmatch.
  destruct (findFrom _ (syntax versionRegex) _) as [c|] eqn:E;
    [|intros [= <-]; auto].
  cbv [SubexpNames subexpNames versionRegex map seq length Nat.eqb Nat.ltb Nat.leb].
  intros H. right. eapply parseFields_lenient_error; [| | | |exact H].
  - eapply findFrom_capturesOnly; [| |constructor|exact E];
      [lia|apply versionRegex_numbers; auto].
  - exact (findFrom_result _ _ (fun c => c 1%nat <> [])
             (versionRegex_major_captured _) _ _ E).
  - eapply findFrom_capturesOnly; [| |constructor|exact E];
      [lia|apply versionRegex_numbers; auto].
  - eapply findFrom_capturesOnly; [| |constructor|exact E];
      [lia|apply versionRegex_numbers; auto].
Qed.

Lemma ParseSemVer_error (s : string) (e : error) :
  ParseSemVer s = Err e -> e = ErrNoMatch \/ rangeError e.
Proof.
  unfold ParseSemVer, parseVersion, FindStringSubmatch.
  destruct (findFrom _ (syntax semVerRegex) _) as [c|] eqn:E;
    [|intros [= <-]; auto].
  cbv [SubexpNames subexpNames semVerRegex map seq length Nat.eqb Nat.ltb Nat.leb].
  intros H. right. eapply parseFields_strict_error; [| | | |exact H].
  - eapply findFrom_capturesOnly; [| |constructor|exact E];
      [lia|apply semVerRegex_numbers; auto].
  - exact (findFrom_result _ _ (fun c => c 1%nat <> [])
             (semVerRegex_major_captured _) _ _ E).
  - eapply findFrom_capturesOnly; [| |constructor|exact E];
      [lia|apply semVerRegex_numbers; auto].
  - eapply findFrom_capturesOnly; [| |constructor|exact E];
      [lia|apply semVerRegex_numbers; auto].
Qed.

Ltac invert_literal :=
  repeat match goal with
    | H : Match _ (Cat _ _) _ _ _ _ |- _ => inversion H; subst; clear H
    | H : Match _ (Chr _) _ _ _ _ |- _ => inversion H; subst; clear H
    | H : Ascii.eqb _ _ = true |- _ => apply Ascii.eqb_eq in H; subst
    end.

Lemma operatorPattern_texts :
  forall input x s' c c',
    Match input operatorPattern (x ++ s')%list c s' c' -> operatorText x.
Proof.
  intros input x s' c c' H. right. unfold operatorPattern in H.
  repeat match goal with
    | H : Match _ (Alt _ _) _ _ _ _ |- _ => inversion H; subst; clear H
    end;
    invert_literal;
    match goal with
    | H : (x ++ s')%list = ?a :: ?b :: s' |- _ =>
        apply (app_inv_tail s' x [a; b]) in H; subst x
    | H : (x ++ s')%list = ?a :: s' |- _ =>
        apply (app_inv_tail s' x [a]) in H; subst x
    | H : ?a :: ?b :: s' = (x ++ s')%list |- _ =>
        symmetry in H; apply (app_inv_tail s' x [a; b]) in H; subst x
    | H : ?a :: s' = (x ++ s')%list |- _ =>
        symmetry in H; apply (app_inv_tail s' x [a]) in H; subst x
    end;
    cbn; tauto.
Qed.

Lemma operatorText_known (x : list ascii) :
  operatorText x ->
  let o := string_of_list_ascii x in
  knownOperator (if opEq o "" then EQ else o) = true.
Proof.
  intros [->|H]; [reflexivity|].
  cbn in H. cbv zeta.
  repeat destruct H as [<-|H]; try reflexivity. contradiction.
Qed.

Lemma constraintRegex_operator :
  capturesOnly operatorText 1 (syntax constraintRegex).
Proof.
  cbn [syntax constraintRegex capturesOnly Opt Plus].
  repeat split; try discriminate; try lia.
  intros _. apply operatorPattern_texts.
Qed.

Lemma strictConstraintRegex_operator :
  capturesOnly operatorText 1 (syntax strictConstraintRegex).
Proof.
  cbn [syntax strictConstraintRegex capturesOnly Opt Plus].
  repeat split; try discriminate; try lia.
  intros _. apply operatorPattern_texts.
Qed.

Lemma operatorPattern_groups : groups operatorPattern = [].
Proof. reflexivity. Qed.

Lemma strictFields_names (m0 m1 m2 : string) :
  strictFields (SubexpNames strictConstraintRegex) [m0; m1; m2] "" ""
  = Done (if (m1 =? "")%string then "=" else m1, m2).
Proof. reflexivity. Qed.

(** X15.  The only errors of [ParseConstraint] and [ParseStrictConstraint]
    are the no-match error on the trimmed text and the wrapped error of the
    version parser, itself a no-match or a component out of range: the
    invalid-operator branch and the panic are unreachable. *)
Theorem constraint_parser_errors (s : string) (e : constraintError) :
  (ParseConstraint s = Failed e ->
   e = ErrConstraintNoMatch (strings.TrimSpace s)
   \/ exists e', e = ErrConstraintVersion e' /\ (e' = ErrNoMatch \/ rangeError e'))
  /\ (ParseStrictConstraint s = Failed e ->
      e = ErrStrictConstraintNoMatch (strings.TrimSpace s)
      \/ exists e', e = ErrStrictConstraintSemVer e'
                    /\ (e' = ErrNoMatch \/ rangeError e')).
Proof.
  split.
  - unfold ParseConstraint, FindStringSubmatch.
    destruct (findFrom _ (syntax constraintRegex) _) as [c|] eqn:E;
      [|intros [= <-]; auto].
    cbv [SubexpNames subexpNames constraintRegex map seq length Nat.eqb negb nth].
    pose proof (findFrom_capturesOnly _ 1 _ _ _ _ ltac:(lia)
                  constraintRegex_operator (or_introl eq_refl) E) as Hop.
    apply operatorText_known in Hop. cbv zeta in Hop. rewrite Hop. cbn [negb].
    destruct (ParseVersion _) as [v|e'] eqn:Ev; [discriminate|].
    intros [= <-]. right. exists e'. split; [reflexivity|].
    now apply ParseVersion_error in Ev.
  - unfold ParseStrictConstraint, FindStringSubmatch.
    destruct (findFrom _ (syntax strictConstraintRegex) _) as [c|] eqn:E;
      [|intros [= <-]; auto].
    pose proof (findFrom_capturesOnly _ 1 _ _ _ _ ltac:(lia)
                  strictConstraintRegex_operator (or_introl eq_refl) E) as Hop.
    apply operatorText_known in Hop. cbv zeta in Hop.
    cbv [SubexpNames subexpNames strictConstraintRegex map seq length
         Nat.ltb Nat.leb].
    rewrite strictFields_names.
    destruct (opEq _ "" || _)%bool; [intros [= <-]; auto|].
    match goal with
    | |- context [negb (knownOperator ?x)] =>
        replace (knownOperator x) with true by (symmetry; exact Hop)
    end.
    cbn [negb].
    destruct (ParseSemVer _) as [v|e'] eqn:Ev; [discriminate|].
    intros [= <-]. right. exists e'. split; [reflexivity|].
    now apply ParseSemVer_error in Ev.
Qed.

(** ** Parsed constraints *)

Lemma knownOperator_In (o : Operator) :
  knownOperator o = true <-> In o operators.
Proof.
  unfold knownOperator, operators, opEq. rewrite !orb_true_iff, !String.eqb_eq.
  cbn. intuition congruence.
Qed.

Lemma ParseConstraint_Done (s : string) (c : Constraint) :
  ParseConstraint s = Done c ->
  knownOperator (operator c) = true
  /\ exists raw, ParseVersion raw = Ok (version c).
Proof.
  unfold ParseConstraint.
  destruct (negb (length _ =? 3)%nat); [discriminate|].
  destruct (knownOperator _) eqn:Ek; cbn [negb]; [|discriminate].
  destruct (ParseVersion _) as [v|e] eqn:Ev; [|discriminate].
  intros [= <-]. cbn. eauto.
Qed.

Lemma ParseStrictConstraint_Done (s : string) (c : Constraint) :
  ParseStrictConstraint s = Done c ->
  knownOperator (operator c) = true
  /\ exists raw, ParseSemVer raw = Ok (version c).
Proof.
  unfold ParseStrictConstraint.
  destruct (_ <? _)%nat; [discriminate|].
  destruct (strictFields _ _ _ _) as [[o raw]|e]; [|discriminate].
  destruct (_ || _)%bool; [discriminate|].
  destruct (knownOperator _) eqn:Ek; cbn [negb]; [|discriminate].
  destruct (ParseSemVer _) as [v|e] eqn:Ev; [|discriminate].
  intros [= <-]. cbn. eauto.
Qed.

Lemma parsed_constraint_wellFormed (s : string) (c : Constraint) :
  ParseConstraint s = Done c \/ ParseStrictConstraint s = Done c ->
  In (operator c) operators /\ wellFormed (version c) = true.
Proof.
  intros [H|H].
  - apply ParseConstraint_Done in H as [Hk [raw Hv]].
    split; [now apply knownOperator_In|]. exact (ParseVersion_wellFormed _ _ Hv).
  - apply ParseStrictConstraint_Done in H as [Hk [raw Hv]].
    split; [now apply knownOperator_In|]. exact (ParseSemVer_wellFormed _ _ Hv).
Qed.

(** X16.  A constraint returned by [ParseConstraint] or
    [ParseStrictConstraint] has one of the seven operators and a version
    with a minor component whenever it has a patch component; [Satisfies]
    and [Overlaps] on it do not panic. *)
Theorem parsed_constraints_are_safe (s : string) (c : Constraint) :
  ParseConstraint s = Done c \/ ParseStrictConstraint s = Done c ->
  In (operator c) operators
  /\ wellFormed (version c) = true
  /\ (forall v, exists b, Satisfies v c = Some b)
  /\ (forall c2, exists b, Overlaps c2 c = Some b).
Proof.
  intros H. destruct (parsed_constraint_wellFormed s c H) as [Hop Hwf].
  split; [exact Hop|]. split; [exact Hwf|]. split.
  - intros v. destruct (Satisfies_defined v c Hwf) as [b Hb]. eauto.
  - intros c2. destruct (Overlaps_defined c2 c Hwf) as [b Hb]. eauto.
Qed.

Lemma parsed_constraints_are_safe_witness :
  (ParseConstraint "~> 1.2" = Done (NewConstraint GEPessimistic (mkVersion 1 (Some 2) None "" ""))
   \/ ParseStrictConstraint "~> 1.2"
      = Done (NewConstraint GEPessimistic (mkVersion 1 (Some 2) None "" "")))
  /\ In GEPessimistic operators
  /\ wellFormed (mkVersion 1 (Some 2) None "" "") = true.
Proof.
  assert (H : ParseConstraint "~> 1.2"
              = Done (NewConstraint GEPessimistic (mkVersion 1 (Some 2) None "" ""))
              \/ ParseStrictConstraint "~> 1.2"
                 = Done (NewConstraint GEPessimistic (mkVersion 1 (Some 2) None "" "")))
    by (left; vm_compute; reflexivity).
  split; [exact H|].
  destruct (parsed_constraints_are_safe _ _ H) as (H1 & H2 & _).
  exact (conj H1 H2).
Defined.

Lemma parseEach_Done (parse : string -> outcome Constraint)
  (wrap : string -> constraintError -> constraintError)
  (raws : list string) (acc cs : Constraints) :
  parseEach parse wrap raws acc = Done cs ->
  exists new, cs = (acc ++ new)%list
    /\ Forall2 (fun raw c => parse raw = Done c) raws new.
Proof.
  revert acc. induction raws as [|raw raws IH]; intros acc; cbn [parseEach].
  - intros [= <-]. exists []. split; [now rewrite app_nil_r|constructor].
  - destruct (parse raw) as [c|e] eqn:E; [|discriminate].
    intros H. apply IH in H as (new & -> & Hnew).
    exists (c :: new). split; [now rewrite <- app_assoc|].
    constructor; assumption.
Qed.

Lemma Split_nonempty (s : string) (sep : ascii) : strings.Split s sep <> [].
Proof.
  destruct s as [|a s]; cbn; [discriminate|].
  destruct (Ascii.eqb a sep); [discriminate|].
  destruct (strings.Split s sep); discriminate.
Qed.

(** X17.  A set returned by [ParseConstraintSet] or
    [ParseStrictConstraintSet] has one constraint for each comma-separated
    piece of the text, is not empty, holds known operators and well-formed
    versions only, and [Contradicts] on it does not panic. *)
Theorem parsed_sets_are_safe (s : string) (cs : Constraints) :
  ParseConstraintSet s = Done cs \/ ParseStrictConstraintSet s = Done cs ->
  length cs = length (strings.Split s ",")
  /\ cs <> []
  /\ Forall (fun c => In (operator c) operators) cs
  /\ wellFormedAll cs
  /\ exists err, Contradicts cs [] = Some err.
Proof.
  intros H.
  assert (Hcs : exists parse,
            Forall2 (fun raw c => parse raw = Done c) (strings.Split s ",") cs
            /\ forall raw c, parse raw = Done c ->
                 ParseConstraint raw = Done c \/ ParseStrictConstraint raw = Done c).
  { destruct H as [H|H]; apply parseEach_Done in H as (new & -> & Hnew);
      cbn [app]; eauto. }
  destruct Hcs as (parse & Hall & Hparse).
  pose proof (Forall2_length _ _ _ Hall) as Hlen.
  assert (Hsafe : Forall (fun c => In (operator c) operators
                                   /\ wellFormed (version c) = true) cs).
  { clear Hlen H. induction Hall as [|raw c raws cs' Hc _ IH]; [constructor|].
    constructor; [|exact IH].
    destruct (parsed_constraint_wellFormed raw c (Hparse _ _ Hc)) as [? ?].
    auto. }
  split; [now rewrite Hlen|]. split.
  { intros ->. cbn in Hlen. apply (Split_nonempty s ",").
    now apply length_zero_iff_nil. }
  assert (Hwf : wellFormedAll cs).
  { unfold wellFormedAll. eapply Forall_impl; [exact Hsafe|]. cbv beta. tauto. }
  split; [eapply Forall_impl; [exact Hsafe|]; cbv beta; tauto|].
  split; [exact Hwf|]. now apply Contradicts_wellFormed.
Qed.

Lemma parsed_sets_are_safe_witness :
  (ParseConstraintSet ">= 1.0.0, < 2.0.0"
   = Done [NewConstraint GE (NewVersion 1 0 0); NewConstraint LT (NewVersion 2 0 0)]
   \/ ParseStrictConstraintSet ">= 1.0.0, < 2.0.0"
      = Done [NewConstraint GE (NewVersion 1 0 0); NewConstraint LT (NewVersion 2 0 0)])
  /\ exists err,
       Contradicts [NewConstraint GE (NewVersion 1 0 0);
                    NewConstraint LT (NewVersion 2 0 0)] [] = Some err.
Proof.
  assert (H : ParseConstraintSet ">= 1.0.0, < 2.0.0"
   = Done [NewConstraint GE (NewVersion 1 0 0); NewConstraint LT (NewVersion 2 0 0)]
   \/ ParseStrictConstraintSet ">= 1.0.0, < 2.0.0"
      = Done [NewConstraint GE (NewVersion 1 0 0); NewConstraint LT (NewVersion 2 0 0)])
    by (left; vm_compute; reflexivity).
  split; [exact H|].
  exact (proj2 (proj2 (proj2 (proj2 (parsed_sets_are_safe _ _ H))))).
Defined.

(** ** Reading back a rendered version *)

Section Evaluation.

Variable input : list ascii.

Lemma matchK_lazy_stop (r : regex) s c (k : cont) (res : captures) :
  k s c = Some res -> matchK input (Star false r) s c k = Some res.
Proof.
  intros H. cbn [matchK]. destruct (length s); cbn [starLoop]; now rewrite H.
Qed.

Lemma matchK_Class_ok (p : ascii -> bool) (a : ascii) s c k :
  p a = true -> matchK input (Class p) (a :: s) c k = k s c.
Proof. intros H. cbn [matchK]. now rewrite H. Qed.

Lemma matchK_Plus_run (p : ascii -> bool) (x rest : list ascii) c (k : cont)
  (res : captures) :
  Forall (fun a => p a = true) x -> x <> [] -> stops p rest ->
  k rest c = Some res ->
  matchK input (Plus (Class p)) (x ++ rest) c k = Some res.
Proof.
  intros Hx Hne Hrest Hk. destruct x as [|a x]; [contradiction|].
  inversion Hx; subst. unfold Plus. rewrite matchK_Cat. cbn [app].
  rewrite matchK_Class_ok by assumption.
  now apply matchK_greedy_run.
Qed.

Lemma matchK_Group_Plus_run (i : nat) (p : ascii -> bool) (x rest : list ascii)
  c (k : cont) (res : captures) :
  Forall (fun a => p a = true) x -> x <> [] -> stops p rest ->
  k rest (setCapture i x c) = Some res ->
  matchK input (Group i (Plus (Class p))) (x ++ rest) c k = Some res.
Proof.
  intros Hx Hne Hrest Hk. rewrite matchK_Group.
  apply matchK_Plus_run; auto. cbv beta. now rewrite firstn_consumed.
Qed.

Lemma matchK_Group_Star_run (i : nat) (p : ascii -> bool) (x rest : list ascii)
  c (k : cont) (res : captures) :
  Forall (fun a => p a = true) x -> stops p rest ->
  k rest (setCapture i x c) = Some res ->
  matchK input (Group i (Star true (Class p))) (x ++ rest) c k = Some res.
Proof.
  intros Hx Hrest Hk. rewrite matchK_Group.
  apply matchK_greedy_run; auto. cbv beta. now rewrite firstn_consumed.
Qed.

Lemma matchK_Chr_fails (a : ascii) s c k :
  stops (Ascii.eqb a) s -> matchK input (Chr a) s c k = None.
Proof. apply matchK_Class_fails. Qed.

(** [(\.(\d+))?] with the groups [i] and [j]. *)
Lemma matchK_dotted (i j : nat) (o : option (list ascii)) (rest : list ascii)
  c (k : cont) (res : captures) :
  (forall x, o = Some x -> numeral x /\ stops digit rest) ->
  (o = None -> stops (Ascii.eqb ".") rest) ->
  k rest (match o with
          | Some x => setCapture i ("."%char :: x) (setCapture j x c)
          | None => c
          end) = Some res ->
  matchK input (Opt (Group i (Cat (Chr ".") (Group j (Plus (Class digit))))))
    (marked "." o ++ rest) c k = Some res.
Proof.
  intros Hsome Hnone Hk. rewrite matchK_Opt, matchK_Group, matchK_Cat.
  destruct o as [x|]; cbn [marked app].
  - destruct (Hsome x eq_refl) as [[Hx Hne] Hrest].
    rewrite matchK_Chr.
    erewrite matchK_Group_Plus_run; [reflexivity|auto..].
    cbv beta.
    change ("."%char :: (x ++ rest)%list) with (("."%char :: x) ++ rest)%list.
    now rewrite firstn_consumed.
  - rewrite matchK_Chr_fails by auto. exact Hk.
Qed.

(** [(?:-([^+\n]* ))?] with the group [i]. *)
Lemma matchK_prerelease (i : nat) (o : option (list ascii)) (rest : list ascii)
  c (k : cont) (res : captures) :
  (forall x, o = Some x ->
     Forall (fun a => notPlusNewline a = true) x /\ stops notPlusNewline rest) ->
  (o = None -> stops (Ascii.eqb "-") rest) ->
  k rest (match o with
          | Some x => setCapture i x c
          | None => c
          end) = Some res ->
  matchK input (Opt (Cat (Chr "-") (Group i (Star true (Class notPlusNewline)))))
    (marked "-" o ++ rest) c k = Some res.
Proof.
  intros Hsome Hnone Hk. rewrite matchK_Opt, matchK_Cat.
  destruct o as [x|]; cbn [marked app].
  - destruct (Hsome x eq_refl) as [Hx Hrest].
    rewrite matchK_Chr.
    erewrite matchK_Group_Star_run; [reflexivity|auto..].
  - rewrite matchK_Chr_fails by auto. exact Hk.
Qed.

(** [(\+(.* ))?] with the groups [i] and [j]. *)
Lemma matchK_buildmetadata (i j : nat) (o : option (list ascii))
  (rest : list ascii) c (k : cont) (res : captures) :
  (forall x, o = Some x ->
     Forall (fun a => anyChar a = true) x /\ stops anyChar rest) ->
  (o = None -> stops (Ascii.eqb "+") rest) ->
  k rest (match o with
          | Some x => setCapture i ("+"%char :: x) (setCapture j x c)
          | None => c
          end) = Some res ->
  matchK input (Opt (Group i (Cat (Chr "+") (Group j (Star true (Class anyChar))))))
    (marked "+" o ++ rest) c k = Some res.
Proof.
  intros Hsome Hnone Hk. rewrite matchK_Opt, matchK_Group, matchK_Cat.
  destruct o as [x|]; cbn [marked app].
  - destruct (Hsome x eq_refl) as [Hx Hrest].
    rewrite matchK_Chr.
    erewrite matchK_Group_Star_run; [reflexivity|auto..].
    cbv beta.
    change ("+"%char :: (x ++ rest)%list) with (("+"%char :: x) ++ rest)%list.
    now rewrite firstn_consumed.
  - rewrite matchK_Chr_fails by auto. exact Hk.
Qed.

End Evaluation.

Lemma matchK_rest_of_line (input : list ascii) c (k : cont) :
  matchK input (Cat (Star true (Class anyChar)) Eol) [] c k = k [] c.
Proof. reflexivity. Qed.

Ltac by_marks :=
  repeat match goal with
         | |- context [marked _ ?o] => is_var o; destruct o as [?|]
         end;
  cbn; intros; try reflexivity; try exact I; try discriminate;
  try match goal with
      | H : None = None -> Some _ = None |- _ => discriminate (H eq_refl)
      end.

Lemma versionRegex_reads (M : list ascii) (mo po pre build : option (list ascii)) :
  wellShaped M mo po pre build ->
  let input := versionText M mo po pre build in
  exists res,
    findFrom input (syntax versionRegex) input = Some res
    /\ res 1%nat = M /\ res 3%nat = textOf mo /\ res 5%nat = textOf po
    /\ res 6%nat = textOf pre /\ res 8%nat = textOf build.
Proof.
  intros ([HM HMne] & Hmo & Hpo & Hshape & Hpre & Hbuild) input.
  eexists. split.
  - apply findFrom_first.
    rewrite versionRegex_pieces, matchK_Group, matchK_Cat, matchK_Bol by reflexivity.
    rewrite matchK_Cat. apply matchK_lazy_stop.
    rewrite matchK_Cat. unfold input at 2, versionText.
    apply matchK_Group_Plus_run; [exact HM|exact HMne| |].
    { clear -Hshape. by_marks. }
    cbv beta. rewrite matchK_Cat. unfold lenientMinor.
    apply matchK_dotted.
    { intros x ->. split; [now apply Hmo|]. clear. by_marks. }
    { intros ->. rewrite (Hshape eq_refl). clear. by_marks. }
    rewrite matchK_Cat. unfold lenientPatch.
    apply matchK_dotted.
    { intros x ->. split; [now apply Hpo|]. clear. by_marks. }
    { intros _. clear. by_marks. }
    unfold lenientTail. rewrite matchK_Cat.
    apply matchK_prerelease.
    { intros x ->. split; [now apply Hpre|]. clear. by_marks. }
    { intros _. clear. by_marks. }
    rewrite matchK_Cat. rewrite <- (app_nil_r (marked "+" build)).
    apply matchK_buildmetadata.
    { intros x ->. split; [now apply Hbuild|exact I]. }
    { intros _. exact I. }
    rewrite matchK_rest_of_line. reflexivity.
  - unfold setCapture.
    destruct mo as [?|], po as [?|], pre as [?|], build as [?|]; cbn;
      repeat split.
Qed.

Lemma parseFields_lenient_reads (m0 m1 m2 m3 m4 m5 m6 m7 m8 : string)
  (a : Z) (mi pa : option Z) :
  strconv.ParseUint m1 = Ok a -> readComponent m3 mi -> readComponent m5 pa ->
  parseFields (SubexpNames versionRegex) [m0; m1; m2; m3; m4; m5; m6; m7; m8]
    zeroVersion = Ok (mkVersion a mi pa m6 m8).
Proof.
  intros H1 H3 H5. cbn. rewrite H1.
  destruct mi as [b|]; cbn in H3.
  - destruct H3 as [N3 H3]. apply String.eqb_neq in N3. rewrite N3, H3.
    destruct pa as [c|]; cbn in H5.
    + destruct H5 as [N5 H5]. apply String.eqb_neq in N5. now rewrite N5, H5.
    + now rewrite H5.
  - rewrite H3. cbn.
    destruct pa as [c|]; cbn in H5.
    + destruct H5 as [N5 H5]. apply String.eqb_neq in N5. now rewrite N5, H5.
    + now rewrite H5.
Qed.

Lemma decimal_numeral (ds : list ascii) (u : Z) : decimal ds u -> numeral ds.
Proof.
  intros (H & _ & Hhead). split; [exact H|]. now destruct ds.
Qed.

Lemma labelText_textOf (s : string) :
  string_of_list_ascii (textOf (labelText s)) = s.
Proof.
  unfold labelText. destruct (String.eqb_spec s "") as [->|]; cbn;
    [reflexivity|apply string_of_list_ascii_of_string].
Qed.

Lemma marked_label (mark : ascii) (s : string) (t : string) :
  list_ascii_of_string
    (if negb (s =? "")%string then t ++ String mark "" ++ s else t)
  = (list_ascii_of_string t ++ marked mark (labelText s))%list.
Proof.
  unfold labelText. destruct (s =? "")%string; cbn [negb marked].
  - now rewrite app_nil_r.
  - now rewrite !list_ascii_of_string_app.
Qed.

Lemma Version_String_text (v : Version) :
  wellFormed v = true ->
  list_ascii_of_string (Version_String v)
  = versionText (list_ascii_of_string (strconv.FormatUint (major v)))
      (numeralOf (minor v)) (numeralOf (patch v))
      (labelText (preRelease v)) (labelText (buildMetadata v)).
Proof.
  intros Hwf. unfold Version_String, versionText. cbv zeta.
  rewrite !marked_label.
  rewrite <- !app_assoc. 
  destruct v as [ma [mi|] [pa|] pre bm]; cbn [minor patch major numeralOf marked app] in *;
    try discriminate;
    rewrite ?list_ascii_of_string_app; cbn [list_ascii_of_string app];
    rewrite <- ?app_assoc; reflexivity.
Qed.

Lemma FormatUint_numeral (u : Z) :
  U64.inRange u ->
  numeral (list_ascii_of_string (strconv.FormatUint u))
  /\ strconv.ParseUint (strconv.FormatUint u) = Ok u.
Proof.
  intros Hu. destruct (FormatUint_decimal u Hu) as (ds & E & Hdec).
  rewrite E, list_ascii_of_string_of_list_ascii.
  split; [eapply decimal_numeral; eauto|].
  apply ParseUint_decimal; [exact Hdec|now apply inRange_maxVal].
Qed.

Lemma numeral_nonempty (x : list ascii) :
  numeral x -> string_of_list_ascii x <> "".
Proof. intros [_ H] E. apply string_of_list_ascii_empty in E. contradiction. Qed.

Lemma ParseVersion_reads_String (v : Version) :
  wellFormed v = true -> inRangeVersion v -> plainLabels v ->
  ParseVersion (Version_String v) = Ok v.
Proof.
  intros Hwf (Hma & Hmi & Hpa) [Hpre Hbuild].
  unfold ParseVersion, parseVersion, FindStringSubmatch.
  rewrite (Version_String_text v Hwf).
  destruct (FormatUint_numeral _ Hma) as [HM EM].
  destruct (versionRegex_reads
              (list_ascii_of_string (strconv.FormatUint (major v)))
              (numeralOf (minor v)) (numeralOf (patch v))
              (labelText (preRelease v)) (labelText (buildMetadata v)))
    as (res & -> & E1 & E3 & E5 & E6 & E8).
  { split; [exact HM|]. split; [|split; [|split; [|split]]].
    - intros x Hx. unfold Minor in Hmi.
      destruct (minor v); cbn [numeralOf] in Hx; [|discriminate]. injection Hx as <-.
      now apply FormatUint_numeral.
    - intros x Hx. unfold Patch in Hpa.
      destruct (patch v); cbn [numeralOf] in Hx; [|discriminate]. injection Hx as <-.
      now apply FormatUint_numeral.
    - unfold wellFormed in Hwf.
      destruct (minor v), (patch v); cbn; try discriminate; auto.
    - intros x Hx. unfold labelText in Hx.
      destruct (_ =? _)%string; [discriminate|]. injection Hx as <-. exact Hpre.
    - intros x Hx. unfold labelText in Hx.
      destruct (_ =? _)%string; [discriminate|]. injection Hx as <-. exact Hbuild. }
  cbv [SubexpNames subexpNames versionRegex map seq length Nat.eqb Nat.ltb Nat.leb].
  rewrite E1, E3, E5, E6, E8, !labelText_textOf, string_of_list_ascii_of_string.
  rewrite (parseFields_lenient_reads _ _ _ _ _ _ _ _ _
             (major v) (minor v) (patch v)).
  - now destruct v.
  - exact EM.
  - unfold Minor in Hmi.
    destruct (minor v) as [mi|]; cbn [textOf numeralOf readComponent];
      [|reflexivity].
    rewrite string_of_list_ascii_of_string.
    destruct (FormatUint_numeral _ Hmi) as [Hn E]. split; [|exact E].
    rewrite <- (string_of_list_ascii_of_string (strconv.FormatUint mi)).
    now apply numeral_nonempty.
  - unfold Patch in Hpa.
    destruct (patch v) as [pa|]; cbn [textOf numeralOf readComponent];
      [|reflexivity].
    rewrite string_of_list_ascii_of_string.
    destruct (FormatUint_numeral _ Hpa) as [Hn E]. split; [|exact E].
    rewrite <- (string_of_list_ascii_of_string (strconv.FormatUint pa)).
    now apply numeral_nonempty.
Qed.

(** X18.  [ParseVersion] reads back what [String] writes: for a version
    with [uint64] numbers, a minor component whenever it has a patch
    component, a pre-release label without [+] and newline and build
    metadata without newline, parsing the rendering returns the version,
    and [MustParseVersion] on it does not panic. *)
Theorem ParseVersion_String_roundtrip (v : Version) :
  wellFormed v = true -> inRangeVersion v -> plainLabels v ->
  ParseVersion (Version_String v) = Ok v
  /\ MustParseVersion (Version_String v) = Some v.
Proof.
  intros Hwf Hrange Hlabels. unfold MustParseVersion.
  rewrite (ParseVersion_reads_String v Hwf Hrange Hlabels). split; reflexivity.
Qed.

Lemma ParseVersion_String_roundtrip_witness :
  wellFormed (mkVersion 1 (Some 2) None "rc.1" "b+7") = true
  /\ inRangeVersion (mkVersion 1 (Some 2) None "rc.1" "b+7")
  /\ plainLabels (mkVersion 1 (Some 2) None "rc.1" "b+7")
  /\ ParseVersion (Version_String (mkVersion 1 (Some 2) None "rc.1" "b+7"))
     = Ok (mkVersion 1 (Some 2) None "rc.1" "b+7").
Proof.
  assert (H1 : inRangeVersion (mkVersion 1 (Some 2) None "rc.1" "b+7"))
    by (split; [|split]; in_range).
  assert (H2 : plainLabels (mkVersion 1 (Some 2) None "rc.1" "b+7"))
    by (split; repeat constructor).
  split; [reflexivity|]. split; [exact H1|]. split; [exact H2|].
  exact (proj1 (ParseVersion_String_roundtrip
                  (mkVersion 1 (Some 2) None "rc.1" "b+7") eq_refl H1 H2)).
Defined.

(** ** The syntax of the lenient parser *)

Section Classes.

Lemma code_inj (a b : ascii) : strconv.code a = strconv.code b -> a = b.
Proof.
  unfold strconv.code. intros H. apply N2Z.inj in H.
  rewrite <- (ascii_N_embedding a), <- (ascii_N_embedding b). now rewrite H.
Qed.

Lemma eqb_code (a b : ascii) :
  strconv.code a <> strconv.code b -> Ascii.eqb a b = false.
Proof.
  intros H. destruct (Ascii.eqb_spec a b) as [->|]; [contradiction|reflexivity].
Qed.

Lemma newline_code : strconv.code newline = 10.
Proof. reflexivity. Qed.

Lemma digit_anyChar (a : ascii) : digit a = true -> anyChar a = true.
Proof.
  unfold digit, strconv.isDigit, anyChar. intros H.
  apply andb_true_iff in H as [H1 H2].
  rewrite eqb_code; [reflexivity|]. rewrite newline_code. lia.
Qed.

Lemma notPlusNewline_anyChar (a : ascii) :
  notPlusNewline a = true -> anyChar a = true.
Proof. unfold notPlusNewline, anyChar. now intros [_ H]%andb_true_iff. Qed.

Lemma chr_anyChar (b a : ascii) :
  strconv.code b <> 10 -> Ascii.eqb b a = true -> anyChar a = true.
Proof.
  intros Hb H. apply Ascii.eqb_eq in H as <-. unfold anyChar.
  rewrite eqb_code; [reflexivity|]. now rewrite newline_code.
Qed.

End Classes.

(** After its lazy prefix, [versionRegex] reads no newline. *)
Lemma versionRegex_within_line :
  within anyChar (Cat (Group 1 (Plus (Class digit)))
                   (Cat (Opt lenientMinor) (Cat (Opt lenientPatch) lenientTail))).
Proof.
  unfold lenientMinor, lenientPatch, lenientTail, Opt, Plus, Chr.
  cbn [within].
  repeat split; auto using digit_anyChar, notPlusNewline_anyChar;
    intros a Ha; eapply chr_anyChar; try exact Ha; cbv; discriminate.
Qed.

Lemma versionRegex_syntax (input s : list ascii) (res : captures) :
  matchK input (Group 0 (syntax versionRegex)) s noCaptures (fun _ c => Some c)
  = Some res ->
  exists pre d rest,
    s = (pre ++ d :: rest)%list
    /\ Forall (fun a => nonDigit a = true) pre
    /\ digit d = true
    /\ Forall (fun a => anyChar a = true) rest.
Proof.
  rewrite versionRegex_pieces, matchK_Group.
  intros H. peel H s0 c0 Hm0. peel H s1 c1 Hm1.
  apply matchK_sound in H as (s2 & c2 & Hm2 & H). injection H as <-.
  inversion Hm0; subst.
  assert (Hw : within nonDigit (Star false (Class nonDigit))) by (cbn; auto).
  destruct (Match_consumed _ nonDigit _ _ _ _ _ Hw Hm1) as (pre & -> & Hpre).
  destruct (Match_consumed _ anyChar _ _ _ _ _ versionRegex_within_line Hm2)
    as (x & -> & Hx).
  assert (Hend : s2 = []).
  { clear -Hm2. inversion Hm2; subst.
    repeat match goal with
           | H : Match _ (Cat _ _) _ _ _ _ |- _ => inversion H; subst; clear H
           end.
    unfold lenientTail in *.
    repeat match goal with
           | H : Match _ (Cat _ _) _ _ _ _ |- _ => inversion H; subst; clear H
           end.
    match goal with H : Match _ Eol _ _ _ _ |- _ => now inversion H end. }
  subst s2. rewrite app_nil_r in *.
  inversion Hm2; subst.
  match goal with
  | Ha : Match _ (Group 1 _) _ _ _ _ |- _ => inversion Ha; subst
  end.
  match goal with
  | Ha : Match _ (Plus _) _ _ _ _ |- _ =>
      apply Match_Plus_head in Ha as (d & s3 & -> & Hd)
  end.
  inversion Hx; subst.
  exists pre, d, s3. auto.
Qed.

Lemma span_digits (s : list ascii) :
  exists ds rest, s = (ds ++ rest)%list
    /\ Forall (fun a => digit a = true) ds /\ stops digit rest.
Proof.
  induction s as [|a s (ds & rest & -> & Hds & Hrest)].
  - exists [], []. repeat split. constructor.
  - destruct (digit a) eqn:E.
    + exists (a :: ds), rest. repeat split; [now constructor|exact Hrest].
    + exists [], (a :: ds ++ rest)%list. repeat split; [constructor|exact E].
Qed.

Section Accepting.

Variable input : list ascii.

Lemma starLoop_lazy_skip (p : ascii -> bool) (k : cont) (res : captures)
  (pre rest : list ascii) (c : captures) :
  Forall (fun a => p a = true) pre ->
  (forall a s', p a = true -> k (a :: s') c = None) ->
  k rest c = Some res ->
  forall fuel, (length (pre ++ rest) <= fuel)%nat ->
    starLoop (fun s' c' k' => matchK input (Class p) s' c' k') false k fuel
      (pre ++ rest) c = Some res.
Proof.
  intros Hpre Hskip Hk. induction Hpre as [|a pre Ha _ IH]; intros fuel Hfuel.
  - destruct fuel as [|fuel]; cbn [starLoop app]; now rewrite Hk.
  - destruct fuel as [|fuel]; [simpl in Hfuel; lia|].
    cbn [starLoop app]. rewrite (Hskip a _ Ha). cbv beta.
    rewrite (matchK_Class_ok input) by assumption.
    destruct (Nat.ltb_spec (length (pre ++ rest)) (length (a :: pre ++ rest)));
      [|simpl in *; lia].
    apply IH. simpl in Hfuel. lia.
Qed.

(** On a text without newline, what follows the major component always
    matches. *)
Lemma lenient_rest_accepts (rest : list ascii) (c : captures) (k : cont) :
  Forall (fun a => anyChar a = true) rest ->
  (forall c', exists res, k [] c' = Some res) ->
  exists res,
    matchK input (Cat (Opt lenientMinor) (Cat (Opt lenientPatch) lenientTail))
      rest c k = Some res.
Proof.
  intros Hrest Hk.
  assert (Hline : forall s c', Forall (fun a => anyChar a = true) s ->
            exists res,
              matchK input (Cat (Star true (Class anyChar)) Eol) s c' k = Some res).
  { intros s c' Hs. destruct (Hk c') as [res Hres]. exists res.
    rewrite matchK_Cat. rewrite <- (app_nil_r s).
    apply matchK_greedy_run; [exact Hs|exact I|]. exact Hres. }
  assert (Hopt : forall (r : regex) (K : cont) s c',
            (exists res, K s c' = Some res) ->
            exists res, matchK input (Opt r) s c' K = Some res).
  { intros r K s c' [res Hres]. rewrite matchK_Opt.
    destruct (matchK input r s c' K); eauto. }
  rewrite matchK_Cat. apply Hopt.
  rewrite matchK_Cat. apply Hopt.
  unfold lenientTail. rewrite matchK_Cat. apply Hopt.
  rewrite matchK_Cat. apply Hopt.
  now apply Hline.
Qed.

End Accepting.

Lemma matchK_Star (input : list ascii) (g : bool) (r : regex) s c k :
  matchK input (Star g r) s c k
  = starLoop (fun s' c' k' => matchK input r s' c' k') g k (length s) s c.
Proof. reflexivity. Qed.

Lemma versionRegex_accepts (pre : list ascii) (d : ascii) (rest : list ascii) :
  Forall (fun a => nonDigit a = true) pre -> digit d = true ->
  Forall (fun a => anyChar a = true) rest ->
  let input := (pre ++ d :: rest)%list in
  exists res, findFrom input (syntax versionRegex) input = Some res.
Proof.
  intros Hpre Hd Hrest input.
  destruct (span_digits rest) as (ds & rest' & -> & Hds & Hstop).
  apply Forall_app in Hrest as [_ Hrest'].
  set (k0 := fun (s' : list ascii) (c' : captures) =>
               Some (setCapture 0 (firstn (length input - length s') input) c')).
  destruct (lenient_rest_accepts input rest' (setCapture 1 (d :: ds) noCaptures)
              k0 Hrest') as [res Hres].
  { intros c'. eexists. reflexivity. }
  exists res. apply findFrom_first.
  rewrite versionRegex_pieces, matchK_Group, matchK_Cat, matchK_Bol by reflexivity.
  rewrite matchK_Cat, matchK_Star. unfold input at 4.
  apply (starLoop_lazy_skip input); [exact Hpre| | |unfold input; lia].
  - intros a s' Ha. rewrite matchK_Cat, matchK_Group. unfold Plus.
    rewrite matchK_Cat. cbn [matchK]. unfold nonDigit in Ha.
    apply negb_true_iff in Ha. now rewrite Ha.
  - rewrite matchK_Cat.
    change (d :: (ds ++ rest')%list) with ((d :: ds) ++ rest')%list.
    apply matchK_Group_Plus_run; [now constructor|discriminate|exact Hstop|].
    exact Hres.
Qed.

Lemma parseFields_matched (names matches : list string) (v : Version) :
  parseFields names matches v <> Err ErrNoMatch.
Proof.
  revert names v. induction matches as [|m ms IH]; intros names v.
  - destruct names; cbn; congruence.
  - destruct names as [|name names]; cbn [parseFields]; [congruence|].
    repeat match goal with
           | |- context [if ?b then _ else _] => destruct b
           | |- context [match strconv.ParseUint ?x with _ => _ end] =>
               destruct (strconv.ParseUint x)
           end; try apply IH; congruence.
Qed.

(** X19.  [ParseVersion] finds a match exactly in the texts made of
    characters that are no digits, then a digit, then characters other
    than newline; on such a text it returns a version or fails because a
    component does not fit in [uint64]. *)
Theorem ParseVersion_lenient_syntax (s : string) :
  (lenientSyntax s <-> ParseVersion s <> Err ErrNoMatch)
  /\ (lenientSyntax s ->
      (exists v, ParseVersion s = Ok v)
      \/ exists e, ParseVersion s = Err e /\ rangeError e).
Proof.
  assert (Hiff : lenientSyntax s <-> ParseVersion s <> Err ErrNoMatch).
  { split.
    - intros (pre & d & rest & Hs & Hpre & Hd & Hrest).
      destruct (versionRegex_accepts pre d rest Hpre Hd Hrest) as [res Hres].
      unfold ParseVersion, parseVersion, FindStringSubmatch.
      rewrite Hs, Hres.
      cbv [SubexpNames subexpNames versionRegex map seq length Nat.eqb Nat.ltb Nat.leb].
      apply parseFields_matched.
    - unfold ParseVersion, parseVersion, FindStringSubmatch.
      destruct (findFrom _ (syntax versionRegex) _) as [res|] eqn:E;
        [|intros H; now contradiction H].
      intros _. apply findFrom_suffix in E as (x & s0 & Hx & E).
      assert (x = []) as ->.
      { pose proof E as E'. rewrite versionRegex_pieces, matchK_Group in E'.
        peel E' s1 c1 Hm. inversion Hm; subst.
        match goal with
        | H : length s1 = length _ |- _ => rewrite Hx, length_app in H
        end.
        destruct x; [reflexivity|simpl in *; lia]. }
      cbn [app] in Hx. unfold lenientSyntax. rewrite Hx.
      exact (versionRegex_syntax _ _ _ E). }
  split; [exact Hiff|].
  intros H. apply Hiff in H.
  destruct (ParseVersion s) as [v|e] eqn:E; [eauto|].
  right. exists e. split; [reflexivity|].
  destruct (ParseVersion_error _ _ E) as [->|He]; [now contradiction H|exact He].
Qed.

(** ** Completeness of the matcher *)

Section Complete.

Variable input : list ascii.

Lemma starLoop_ext (step : list ascii -> captures -> cont -> option captures)
  (g : bool) :
  (forall s c (k1 k2 : cont),
     (forall s' c', k1 s' c' = k2 s' c') -> step s c k1 = step s c k2) ->
  forall (k1 k2 : cont), (forall s' c', k1 s' c' = k2 s' c') ->
  forall fuel s c, starLoop step g k1 fuel s c = starLoop step g k2 fuel s c.
Proof.
  intros Hstep k1 k2 Hk. induction fuel as [|fuel IH]; intros s c; cbn [starLoop].
  - apply Hk.
  - rewrite (Hk s c).
    rewrite (Hstep s c _
               (fun s' c' => if (length s' <? length s)%nat
                             then starLoop step g k2 fuel s' c' else None)).
    + reflexivity.
    + intros s' c'. destruct (length s' <? length s)%nat; [apply IH|reflexivity].
Qed.

(** [matchK] uses its continuation through its results only. *)
Lemma matchK_ext (r : regex) :
  forall s c (k1 k2 : cont),
    (forall s' c', k1 s' c' = k2 s' c') ->
    matchK input r s c k1 = matchK input r s c k2.
Proof.
  induction r as [|p|r1 IH1 r2 IH2|r1 IH1 r2 IH2|g r IH|i r IH| |];
    intros s c k1 k2 Hk; cbn [matchK].
  - apply Hk.
  - destruct s as [|a s]; [reflexivity|]. destruct (p a); [apply Hk|reflexivity].
  - apply IH1. intros s' c'. now apply IH2.
  - rewrite (IH1 s c k1 k2 Hk), (IH2 s c k1 k2 Hk). reflexivity.
  - apply starLoop_ext; [|exact Hk]. intros s0 c0 k1' k2'. apply IH.
  - apply IH. intros s' c'. apply Hk.
  - destruct (length s =? length input)%nat; [apply Hk|reflexivity].
  - destruct s; [apply Hk|reflexivity].
Qed.

Lemma matchK_no_continuation (r : regex) s c (k : cont) :
  (forall s' c', k s' c' = None) -> matchK input r s c k = None.
Proof.
  intros Hk. destruct (matchK input r s c k) as [res|] eqn:E; [|reflexivity].
  apply matchK_sound in E as (s' & c' & _ & H). now rewrite Hk in H.
Qed.

(** Fuel beyond the length of the text changes nothing. *)
Lemma starLoop_fuel (r : regex) (g : bool) (k : cont) :
  forall f1 f2 s c, (length s <= f1)%nat -> (length s <= f2)%nat ->
    starLoop (fun s' c' k' => matchK input r s' c' k') g k f1 s c
    = starLoop (fun s' c' k' => matchK input r s' c' k') g k f2 s c.
Proof.
  assert (Hempty : forall f c,
            starLoop (fun s' c' k' => matchK input r s' c' k') g k f [] c = k [] c).
  { intros [|f] c; cbn [starLoop]; [reflexivity|].
    rewrite matchK_no_continuation by (intros s' c'; now destruct s').
    destruct g; [reflexivity|]. now destruct (k [] c). }
  induction f1 as [|f1 IH]; intros f2 s c H1 H2.
  - destruct s; [|simpl in H1; lia]. now rewrite !Hempty.
  - destruct f2 as [|f2].
    { destruct s; [|simpl in H2; lia]. now rewrite !Hempty. }
    cbn [starLoop].
    rewrite (matchK_ext r s c _
               (fun s' c' => if (length s' <? length s)%nat
                             then starLoop (fun s'0 c'0 k' => matchK input r s'0 c'0 k')
                                    g k f2 s' c'
                             else None)).
    + reflexivity.
    + intros s' c'. destruct (Nat.ltb_spec (length s') (length s)); [|reflexivity].
      apply IH; lia.
Qed.

(** Where the pattern can match and the continuation accepts what is
    left, the matcher finds a match. *)
Lemma matchK_complete (r : regex) s c s1 c1 :
  Match input r s c s1 c1 ->
  forall (k : cont), (forall c', k s1 c' <> None) ->
  forall c0, matchK input r s c0 k <> None.
Proof.
  induction 1 as [s c|p a s c Hp|r1 r2 s c s1 c1 s2 c2 _ IH1 _ IH2
                 |r1 r2 s c s' c' _ IH|r1 r2 s c s' c' _ IH
                 |g r s c|g r s c s1 c1 s2 c2 _ IH1 Hlt _ IH2
                 |i r s c s' c' _ IH|s c Hlen|c];
    intros k Hk c0.
  - apply Hk.
  - cbn [matchK]. rewrite Hp. apply Hk.
  - cbn [matchK]. apply IH1. intros c'. now apply IH2.
  - cbn [matchK]. specialize (IH k Hk c0).
    destruct (matchK input r1 s c0 k); [discriminate|contradiction].
  - cbn [matchK]. destruct (matchK input r1 s c0 k); [discriminate|now apply IH].
  - cbn [matchK]. destruct (length s); cbn [starLoop]; [apply Hk|].
    specialize (Hk c0).
    destruct g.
    + destruct (matchK input r s c0 _); [discriminate|exact Hk].
    + destruct (k s c0); [discriminate|contradiction].
  - cbn [matchK]. destruct (length s) as [|f] eqn:Ef; [lia|]. cbn [starLoop].
    set (next := fun (s' : list ascii) (c' : captures) =>
                   if (length s' <? length s)%nat
                   then starLoop (fun s'0 c'0 k' => matchK input r s'0 c'0 k')
                          g k f s' c'
                   else None).
    assert (Hnext : forall c', next s1 c' <> None).
    { intros c'. unfold next.
      destruct (Nat.ltb_spec (length s1) (length s)); [|lia].
      rewrite (starLoop_fuel r g k f (length s1)) by lia.
      exact (IH2 k Hk c'). }
    specialize (IH1 next Hnext c0).
    destruct g.
    + destruct (matchK input r s c0 next); [discriminate|contradiction].
    + destruct (k s c0); [discriminate|exact IH1].
  - cbn [matchK]. apply IH. intros c''. apply Hk.
  - cbn [matchK]. destruct (Nat.eqb_spec (length s) (length input)); [apply Hk|contradiction].
  - cbn [matchK]. apply Hk.
Qed.

End Complete.

(** ** The strict parser *)

Section StrictClasses.

Lemma letter_range (a : ascii) :
  letter a = true -> 65 <= strconv.code a <= 122.
Proof.
  unfold letter. intros [H|H]%orb_true_iff; apply andb_true_iff in H as [? ?]; lia.
Qed.

Lemma alnumHyphen_range (a : ascii) :
  alnumHyphen a = true -> 45 <= strconv.code a <= 122.
Proof.
  unfold alnumHyphen. intros [[H|H]%orb_true_iff|H]%orb_true_iff.
  - unfold digit, strconv.isDigit in H. apply andb_true_iff in H as [? ?]. lia.
  - apply letter_range in H. lia.
  - apply Ascii.eqb_eq in H as ->. cbv. split; discriminate.
Qed.

Lemma range_notPlusNewline (a : ascii) :
  45 <= strconv.code a <= 122 -> notPlusNewline a = true.
Proof.
  intros H. unfold notPlusNewline.
  rewrite !eqb_code; [reflexivity| |].
  - rewrite newline_code. lia.
  - change (strconv.code "+") with 43. lia.
Qed.

Lemma strictLabel_classes (P : ascii -> bool) :
  (forall a, 45 <= strconv.code a <= 122 -> P a = true) ->
  within P strictPreRelease /\ within P strictBuild.
Proof.
  intros HP.
  assert (Hd : forall a, digit a = true -> P a = true).
  { intros a H. apply HP. unfold digit, strconv.isDigit in H.
    apply andb_true_iff in H as [? ?]. lia. }
  assert (Hd19 : forall a, digit19 a = true -> P a = true).
  { intros a H. apply HP. unfold digit19 in H.
    apply andb_true_iff in H as [? ?]. lia. }
  assert (Hc : forall b a, 45 <= strconv.code b <= 122 ->
                 Ascii.eqb b a = true -> P a = true).
  { intros b a Hb H. apply Ascii.eqb_eq in H as <-. now apply HP. }
  assert (Hl : forall a, letterHyphen a = true -> P a = true).
  { intros a H. apply HP. unfold letterHyphen in H.
    apply orb_true_iff in H as [H|H].
    - apply letter_range in H. lia.
    - apply Ascii.eqb_eq in H as ->. cbv. split; discriminate. }
  assert (Ha : forall a, alnumHyphen a = true -> P a = true).
  { intros a H. now apply HP, alnumHyphen_range. }
  unfold strictPreRelease, strictBuild, preReleaseIdent, buildIdent, Plus, Chr.
  cbn [within].
  repeat split; auto; intros a H; eapply Hc; try exact H; cbv; split; discriminate.
Qed.

End StrictClasses.

Lemma semVerRegex_pieces :
  syntax semVerRegex =
  Cat Bol (Cat (Group 1 numericIdent) (Cat (Chr ".") (Cat (Group 2 numericIdent)
    (Cat (Chr ".") (Cat (Group 3 numericIdent)
    (Cat (Opt (Cat (Chr "-") (Group 4 strictPreRelease)))
    (Cat (Opt (Cat (Chr "+") (Group 5 strictBuild))) Eol))))))).
Proof. reflexivity. Qed.

Lemma numericIdent_numeral (input : list ascii) (i : nat) s c s' c' :
  Match input (Group i numericIdent) s c s' c' ->
  exists x, s = (x ++ s')%list /\ c' i = x /\ numeral x.
Proof.
  intros H.
  assert (Hw : within digit numericIdent).
  { unfold numericIdent, Chr. cbn [within]. repeat split; auto.
    - intros a Ha. apply Ascii.eqb_eq in Ha as <-. reflexivity.
    - intros a Ha. unfold digit19 in Ha. apply andb_true_iff in Ha as [? ?].
      unfold digit, strconv.isDigit. apply andb_true_iff. split; lia. }
  destruct (Match_Group_captured input digit i _ _ _ _ _ Hw H) as (x & -> & Hc & Hx).
  exists x. split; [reflexivity|]. split; [exact Hc|]. split; [exact Hx|].
  rewrite <- Hc. eapply Group_captures; [|exact H]. apply numericIdent_consumes.
Qed.

Lemma Match_Chr (input : list ascii) (a : ascii) s c s' c' :
  Match input (Chr a) s c s' c' -> s = a :: s' /\ c' = c.
Proof.
  intros H. inversion H; subst.
  match goal with Ha : Ascii.eqb _ _ = true |- _ => apply Ascii.eqb_eq in Ha as <- end.
  auto.
Qed.

(** An optional label of [semVerRegex]: the mark and the group [i]. *)
Lemma Match_strict_label (input : list ascii) (mark : ascii) (i : nat) (r : regex)
  (P : ascii -> bool) s c s' c' :
  within P r ->
  Match input (Opt (Cat (Chr mark) (Group i r))) s c s' c' ->
  exists o, s = (marked mark o ++ s')%list
    /\ c' i = match o with Some x => x | None => c i end
    /\ (forall x, o = Some x -> Forall (fun a => P a = true) x)
    /\ (forall j, ~ In j (i :: groups r) -> c' j = c j).
Proof.
  intros Hw H. inversion H; subst.
  - match goal with Ha : Match _ (Cat _ _) _ _ _ _ |- _ => inversion Ha; subst end.
    match goal with Ha : Match _ (Chr _) _ _ _ _ |- _ =>
      apply Match_Chr in Ha as [-> ->] end.
    match goal with Ha : Match _ (Group _ _) _ _ _ _ |- _ =>
      pose proof (Match_frame _ _ _ _ _ _ Ha) as Hf;
      inversion Ha; subst;
      destruct (Match_Group_captured input P i _ _ _ _ _ Hw Ha) as (x & -> & Hc & Hx)
    end.
    exists (Some x). split; [reflexivity|]. split; [exact Hc|].
    split; [intros y [= <-]; exact Hx|].
    exact Hf.
  - match goal with Ha : Match _ Empty _ _ _ _ |- _ => inversion Ha; subst end.
    exists None. split; [reflexivity|]. split; [reflexivity|].
    split; [discriminate|reflexivity].
Qed.

Lemma labelChar_range (a : ascii) :
  45 <= strconv.code a <= 122 -> labelChar a = true.
Proof. intros H. unfold labelChar. apply andb_true_iff. split; lia. Qed.

Lemma labelChar_notPlusNewline (a : ascii) :
  labelChar a = true -> notPlusNewline a = true.
Proof.
  unfold labelChar. intros [? ?]%andb_true_iff.
  apply range_notPlusNewline. lia.
Qed.

Lemma setCapture_other (i j : nat) (x : list ascii) (c : captures) :
  j <> i -> setCapture i x c j = c j.
Proof. intros H. unfold setCapture. now destruct (Nat.eqb_spec j i). Qed.

(** What a pattern without anchors matches, it matches anywhere. *)
Lemma Match_relocate (input : list ascii) (r : regex) s c s' c' :
  Match input r s c s' c' -> anchorFree r ->
  forall x, s = (x ++ s')%list -> matches r x.
Proof.
  induction 1 as [s c|p a s c Hp|r1 r2 s c s1 c1 s2 c2 H1 IH1 H2 IH2
                 |r1 r2 s c s' c' _ IH|r1 r2 s c s' c' _ IH
                 |g r s c|g r s c s1 c1 s2 c2 H1 IH1 Hlt H2 IH2
                 |i r s c s' c' _ IH|s c Hlen|c];
    cbn [anchorFree]; intros Ha x Hx input' t c0.
  - assert (x = []) as -> by (apply (app_inv_tail s); now rewrite <- Hx).
    eexists. constructor.
  - assert (x = [a]) as -> by (apply (app_inv_tail s); now rewrite <- Hx).
    eexists. now constructor.
  - destruct Ha as [Ha1 Ha2].
    destruct (Match_suffix _ _ _ _ _ _ H1) as (x1 & E1).
    destruct (Match_suffix _ _ _ _ _ _ H2) as (x2 & E2).
    assert (x = (x1 ++ x2)%list) as ->.
    { apply (app_inv_tail s2). now rewrite <- Hx, <- app_assoc, <- E2. }
    destruct (IH1 Ha1 x1 E1 input' (x2 ++ t)%list c0) as (c1' & M1).
    destruct (IH2 Ha2 x2 E2 input' t c1') as (c2' & M2).
    exists c2'. rewrite <- app_assoc. econstructor; eauto.
  - destruct (IH (proj1 Ha) x Hx input' t c0) as (c1' & M1).
    exists c1'. now apply MAltL.
  - destruct (IH (proj2 Ha) x Hx input' t c0) as (c1' & M1).
    exists c1'. now apply MAltR.
  - assert (x = []) as -> by (apply (app_inv_tail s); now rewrite <- Hx).
    eexists. apply MStarStop.
  - destruct (Match_suffix _ _ _ _ _ _ H1) as (x1 & E1).
    destruct (Match_suffix _ _ _ _ _ _ H2) as (x2 & E2).
    assert (x = (x1 ++ x2)%list) as ->.
    { apply (app_inv_tail s2). now rewrite <- Hx, <- app_assoc, <- E2. }
    destruct (IH1 Ha x1 E1 input' (x2 ++ t)%list c0) as (c1' & M1).
    destruct (IH2 Ha x2 E2 input' t c1') as (c2' & M2).
    exists c2'. rewrite <- app_assoc. eapply MStarRound; eauto.
    rewrite E1, length_app in Hlt. rewrite !length_app. lia.
  - destruct (IH Ha x Hx input' t c0) as (c1' & M1).
    eexists. apply MGroup. exact M1.
  - contradiction.
  - contradiction.
Qed.

Section Numerals.

Lemma digit_digitValue (a b : ascii) :
  digit a = true -> digit b = true -> digitValue a = digitValue b -> a = b.
Proof.
  intros _ _ H. apply code_inj. unfold digitValue in H. lia.
Qed.

Lemma decimal_snoc (x : list ascii) (a : ascii) (u : Z) :
  decimal (x ++ [a]) u ->
  0 <= digitValue a <= 9
  /\ u = 10 * valueFrom 0 x + digitValue a
  /\ (x = [] \/ (decimal x (valueFrom 0 x) /\ 1 <= valueFrom 0 x)).
Proof.
  intros (Hall & Hval & Hhead).
  apply Forall_app in Hall as [Hx Ha]. inversion Ha as [|? ? Ha1 _]; subst.
  pose proof (digit_range a Ha1) as R.
  split; [lia|]. split; [now rewrite valueFrom_app|].
  destruct x as [|h t]; [now left|right]. cbn [app] in Hhead.
  destruct (valueFrom 0 (h :: t ++ [a]) =? 0).
  { injection Hhead as _ Hhead. now destruct t. }
  inversion Hx as [|? ? Hh Ht]; subst.
  pose proof Hhead as Hh19. unfold digit19 in Hh19.
  apply andb_true_iff in Hh19 as [? ?].
  assert (Hge : 1 <= valueFrom 0 (h :: t)).
  { cbn [valueFrom].
    assert (Hz : 0 <= 10 * 0 + digitValue h) by (unfold digitValue; lia).
    pose proof (valueFrom_ge (10 * 0 + digitValue h) t Hz Ht) as Hge.
    unfold digitValue in Hge |- *. lia. }
  split; [|exact Hge]. split; [exact Hx|]. split; [reflexivity|].
  destruct (Z.eqb_spec (valueFrom 0 (h :: t)) 0); [lia|exact Hhead].
Qed.

(** A number has one decimal numeral. *)
Lemma decimal_unique (ds : list ascii) :
  forall ds' u, decimal ds u -> decimal ds' u -> ds = ds'.
Proof.
  induction ds as [|c ds IH] using rev_ind; intros ds' u H H'.
  { destruct H as (_ & _ & []). }
  destruct ds' as [|c' ds' _] using rev_ind.
  { destruct H' as (_ & _ & []). }
  pose proof H as (Hall & _). pose proof H' as (Hall' & _).
  apply Forall_app in Hall as [_ Hc]. apply Forall_app in Hall' as [_ Hc'].
  inversion Hc as [|? ? Hc1 _]; subst. inversion Hc' as [|? ? Hc1' _]; subst.
  apply decimal_snoc in H as (R & E & Hx).
  apply decimal_snoc in H' as (R' & E' & Hx').
  assert (Ev : valueFrom 0 ds = valueFrom 0 ds') by lia.
  assert (Ec : digitValue c = digitValue c') by lia.
  assert (c = c') as <- by now apply digit_digitValue.
  f_equal.
  destruct Hx as [->|[Hd Hge]], Hx' as [->|[Hd' Hge']].
  - reflexivity.
  - cbn [valueFrom] in Ev. lia.
  - cbn [valueFrom] in Ev. lia.
  - apply (IH ds' (valueFrom 0 ds) Hd). now rewrite Ev.
Qed.

Lemma parseStep_Ok (n : Z) (c : ascii) (n1 : Z) :
  0 <= n -> strconv.parseStep n c = Ok n1 ->
  digit c = true /\ n1 = 10 * n + digitValue c /\ n1 <= U64.maxVal.
Proof.
  intros Hn. unfold strconv.parseStep.
  destruct (strconv.isDigit c) eqn:Hc; cbn [negb]; [|discriminate].
  pose proof (digit_range c Hc) as Hd. unfold digitValue in Hd.
  change strconv.cutoff with 1844674407370955162.
  change U64.maxVal with 18446744073709551615.
  unfold U64.wrap. change U64.modulus with 18446744073709551616.
  destruct (Z.leb_spec 1844674407370955162 n); [discriminate|].
  rewrite (Z.mod_small (n * 10)) by lia.
  destruct (Z.ltb_spec ((n * 10 + (strconv.code c - 48)) mod 18446744073709551616)
              (n * 10)) as [Hlt|Hge]; cbn [orb]; [discriminate|].
  destruct (Z.ltb_spec 18446744073709551615
              ((n * 10 + (strconv.code c - 48)) mod 18446744073709551616));
    [discriminate|].
  intros [= <-]. split; [exact Hc|].
  assert (Hsmall : n * 10 + (strconv.code c - 48) < 18446744073709551616).
  { destruct (Z.lt_ge_cases (n * 10 + (strconv.code c - 48)) 18446744073709551616)
      as [|Hbig]; [assumption|].
    exfalso.
    assert (E : (n * 10 + (strconv.code c - 48)) mod 18446744073709551616
                = n * 10 + (strconv.code c - 48) - 18446744073709551616).
    { symmetry. apply Z.mod_unique with (q := 1); lia. }
    lia. }
  rewrite Z.mod_small in * by lia. unfold digitValue. lia.
Qed.

Lemma parseLoop_Ok (ds : list ascii) :
  forall n u, 0 <= n -> n <= U64.maxVal -> strconv.parseLoop ds n = Ok u ->
    u = valueFrom n ds /\ u <= U64.maxVal.
Proof.
  induction ds as [|c ds IH]; intros n u Hn Hmax; cbn [strconv.parseLoop valueFrom].
  - intros [= <-]. auto.
  - destruct (strconv.parseStep n c) as [n1|] eqn:E; [|discriminate].
    apply parseStep_Ok in E as (Hc & -> & Hle); [|exact Hn].
    pose proof (digit_range c Hc). unfold digitValue in *.
    apply IH; [lia|exact Hle].
Qed.

(** [FormatUint] gives back the numeral that [ParseUint] read, if it has
    no leading zero. *)
Lemma FormatUint_ParseUint (ds : list ascii) (u : Z) :
  decimal ds (valueFrom 0 ds) ->
  strconv.ParseUint (string_of_list_ascii ds) = Ok u ->
  strconv.FormatUint u = string_of_list_ascii ds.
Proof.
  intros Hdec. unfold strconv.ParseUint.
  destruct (string_of_list_ascii ds =? "")%string; [discriminate|].
  rewrite list_ascii_of_string_of_list_ascii. intros H.
  apply parseLoop_Ok in H as [-> Hmax];
    [|lia|change U64.maxVal with 18446744073709551615; lia].
  destruct (FormatUint_decimal (valueFrom 0 ds)) as (ds' & -> & Hdec').
  { change U64.maxVal with 18446744073709551615 in Hmax.
    unfold U64.inRange. change U64.modulus with 18446744073709551616.
    split; [|lia].
    destruct Hdec as (Hall & _ & _). apply (valueFrom_ge 0 ds); [lia|exact Hall]. }
  f_equal. symmetry. eapply decimal_unique; eauto.
Qed.

End Numerals.

Lemma Cat_consumes_r (input : list ascii) (r1 r2 : regex) :
  consumes input r2 -> consumes input (Cat r1 r2).
Proof.
  intros H s c s' c' Hm. inversion Hm; subst.
  match goal with
  | H1 : Match _ r1 _ _ _ _, H2 : Match _ r2 _ _ _ _ |- _ =>
      apply Match_length in H1; apply H in H2
  end.
  lia.
Qed.

Lemma strictLabels_consume (input : list ascii) :
  consumes input strictPreRelease /\ consumes input strictBuild.
Proof.
  split.
  - apply Cat_consumes_l. unfold preReleaseIdent.
    apply Alt_consumes; [apply Class_consumes|].
    apply Alt_consumes; [apply Cat_consumes_l, Class_consumes|].
    apply Cat_consumes_r, Cat_consumes_l, Class_consumes.
  - apply Cat_consumes_l, Plus_consumes, Class_consumes.
Qed.

Lemma strictLabels_anchorFree : anchorFree strictPreRelease /\ anchorFree strictBuild.
Proof. cbn. tauto. Qed.

Lemma numericIdent_decimal (input : list ascii) (i : nat) s c s' c' :
  Match input (Group i numericIdent) s c s' c' ->
  exists x, s = (x ++ s')%list /\ c' i = x /\ decimal x (valueFrom 0 x).
Proof.
  intros H. destruct (numericIdent_numeral _ _ _ _ _ _ H) as (x & -> & Hc & Hx & Hne).
  exists x. split; [reflexivity|]. split; [exact Hc|].
  split; [exact Hx|]. split; [reflexivity|].
  destruct x as [|a x]; [contradiction|].
  inversion H; subst.
  match goal with Ha : Match _ numericIdent _ _ _ _ |- _ => inversion Ha; subst end.
  - assert (a :: x = ["0"%char]) as E.
    { match goal with Ha : Match _ (Chr _) _ _ _ _ |- _ =>
        apply Match_Chr in Ha as [Ha _]; apply (app_inv_tail s'); exact Ha end. }
    injection E as -> ->. reflexivity.
  - match goal with Ha : Match _ (Cat _ _) _ _ _ _ |- _ => inversion Ha; subst end.
    match goal with Ha : Match _ (Class digit19) _ _ _ _ |- _ => inversion Ha; subst end.
    match goal with Ha : digit19 _ = true |- _ => rename Ha into H19 end.
    inversion Hx as [|? ? Ha Hx']; subst.
    pose proof H19 as H19'. unfold digit19 in H19'.
    apply andb_true_iff in H19' as [? ?].
    assert (Hz : 0 <= 10 * 0 + digitValue a) by (unfold digitValue; lia).
    pose proof (valueFrom_ge (10 * 0 + digitValue a) x Hz Hx') as Hge.
    cbn [valueFrom].
    destruct (Z.eqb_spec (valueFrom (10 * 0 + digitValue a) x) 0) as [E|_];
      [rewrite E in Hge; unfold digitValue in Hge; lia|exact H19].
Qed.

(** An optional label of [semVerRegex] is not empty and matches the
    pattern of the label wherever it stands. *)
Lemma Match_optional_label (input : list ascii) (mark : ascii) (i : nat) (r : regex)
  s c s' c' :
  within labelChar r -> anchorFree r -> consumes input r ->
  Match input (Opt (Cat (Chr mark) (Group i r))) s c s' c' ->
  exists o, s = (marked mark o ++ s')%list
    /\ c' i = match o with Some x => x | None => c i end
    /\ strictLabel r o
    /\ (forall j, ~ In j (i :: groups r) -> c' j = c j).
Proof.
  intros Hw Ha Hc H.
  destruct (Match_strict_label input mark i r labelChar s c s' c' Hw H)
    as (o & Hs & Hi & Hin & Hf).
  exists o. split; [exact Hs|]. split; [exact Hi|]. split; [|exact Hf].
  intros x ->. cbn [marked] in Hs. subst s. clear Hi Hf.
  inversion H; subst.
  2:{ exfalso.
      assert (E : length ((mark :: x) ++ s')%list = length s').
      { match goal with Hb : Match _ Empty _ _ _ _ |- _ => inversion Hb end.
        congruence. }
      simpl in E. rewrite length_app in E. lia. }
  match goal with Hb : Match _ (Cat _ _) _ _ _ _ |- _ => inversion Hb; subst end.
  match goal with Hb : Match _ (Chr _) _ _ _ _ |- _ =>
    apply Match_Chr in Hb as [Hb ->]; injection Hb as <- end.
  match goal with Hb : Match _ (Group _ _) _ _ _ _ |- _ => inversion Hb; subst end.
  match goal with Hb : Match _ r _ _ _ _ |- _ => rename Hb into Hr end.
  split; [|split; [now apply Hin|]].
  - intros ->. apply Hc in Hr. simpl in Hr. lia.
  - eapply Match_relocate; [exact Hr|exact Ha|reflexivity].
Qed.

Lemma semVerRegex_tail :
  syntax semVerRegex =
  Cat Bol (Cat (Group 1 numericIdent) (Cat (Chr ".") (Cat (Group 2 numericIdent)
    (Cat (Chr ".") (Cat (Group 3 numericIdent) strictTail))))).
Proof. reflexivity. Qed.

(** What a match of [semVerRegex] reads. *)
Lemma semVerRegex_strict_shape (input s : list ascii) (res : captures) :
  matchK input (Group 0 (syntax semVerRegex)) s noCaptures (fun _ c => Some c)
  = Some res ->
  exists M m p preo buildo,
    s = versionText M (Some m) (Some p) preo buildo
    /\ decimal M (valueFrom 0 M) /\ decimal m (valueFrom 0 m)
    /\ decimal p (valueFrom 0 p)
    /\ strictLabel strictPreRelease preo /\ strictLabel strictBuild buildo
    /\ res 1%nat = M /\ res 2%nat = m /\ res 3%nat = p
    /\ res 4%nat = textOf preo /\ res 5%nat = textOf buildo.
Proof.
  rewrite semVerRegex_pieces, matchK_Group.
  intros H. peel H s0 c0 Hm0. peel H s1 c1 Hm1. peel H s2 c2 Hm2.
  peel H s3 c3 Hm3. peel H s4 c4 Hm4. peel H s5 c5 Hm5. peel H s6 c6 Hm6.
  peel H s7 c7 Hm7. apply matchK_sound in H as (s8 & c8 & Hm8 & H).
  injection H as <-.
  pose proof (Match_frame _ _ _ _ _ _ Hm1) as F1.
  pose proof (Match_frame _ _ _ _ _ _ Hm3) as F3.
  pose proof (Match_frame _ _ _ _ _ _ Hm5) as F5.
  inversion Hm0; subst. inversion Hm8; subst.
  apply numericIdent_decimal in Hm1 as (M & -> & EM & HM).
  apply Match_Chr in Hm2 as [-> ->].
  apply numericIdent_decimal in Hm3 as (m & -> & Em & Hm).
  apply Match_Chr in Hm4 as [-> ->].
  apply numericIdent_decimal in Hm5 as (p & -> & Ep & Hp).
  destruct (strictLabel_classes labelChar labelChar_range) as [Hwpre Hwbuild].
  destruct (strictLabels_consume input) as [Hcpre Hcbuild].
  destruct strictLabels_anchorFree as [Hapre Habuild].
  apply Match_optional_label in Hm6 as (preo & -> & E6 & Hpre & F6);
    [|assumption..].
  apply Match_optional_label in Hm7 as (buildo & -> & E7 & Hbuild & F7);
    [|assumption..].
  exists M, m, p, preo, buildo.
  cbn [groups numericIdent strictPreRelease strictBuild preReleaseIdent
       buildIdent Plus Chr app] in F1, F3, F5, F6, F7.
  split.
  { unfold versionText. cbn [marked app]. now rewrite app_nil_r. }
  do 5 (split; [assumption|]).
  rewrite !setCapture_other by lia.
  repeat split.
  - rewrite F7, F6, F5, F3 by (cbn; lia). exact EM.
  - rewrite F7, F6, F5 by (cbn; lia). exact Em.
  - rewrite F7, F6 by (cbn; lia). exact Ep.
  - rewrite F7 by (cbn; lia). rewrite E6.
    destruct preo; [reflexivity|].
    rewrite F5, F3, F1 by (cbn; lia). reflexivity.
  - rewrite E7. destruct buildo; [reflexivity|].
    rewrite F6, F5, F3, F1 by (cbn; lia). reflexivity.
Qed.

(** [semVerRegex] matches from the start of the text only. *)
Lemma semVerRegex_from_start (input : list ascii) (res : captures) :
  findFrom input (syntax semVerRegex) input = Some res ->
  matchK input (Group 0 (syntax semVerRegex)) input noCaptures (fun _ c => Some c)
  = Some res.
Proof.
  intros E. apply findFrom_suffix in E as (x & s0 & Hx & E).
  assert (x = []) as ->; [|now subst].
  pose proof E as E'. rewrite semVerRegex_pieces, matchK_Group in E'.
  peel E' s1 c1 Hm. inversion Hm; subst.
  match goal with
  | H : length s1 = length _ |- _ => rewrite length_app in H
  end.
  destruct x; [reflexivity|simpl in *; lia].
Qed.

Lemma parseFields_agree (a0 b0 b2 b4 b7 M m p pre build : string) (v : Version) :
  parseFields (SubexpNames semVerRegex) [a0; M; m; p; pre; build] zeroVersion
  = Ok v ->
  parseFields (SubexpNames versionRegex) [b0; M; b2; m; b4; p; pre; b7; build]
    zeroVersion = Ok v.
Proof.
  cbn. destruct (strconv.ParseUint M); [|discriminate].
  destruct (m =? "")%string; [|destruct (strconv.ParseUint m); [|discriminate]];
    (destruct (p =? "")%string; [|destruct (strconv.ParseUint p); [|discriminate]]);
    auto.
Qed.

(** X20.  Every text that [ParseSemVer] accepts is accepted by
    [ParseVersion], with the same version. *)
Theorem ParseSemVer_ParseVersion (s : string) (v : Version) :
  ParseSemVer s = Ok v -> ParseVersion s = Ok v.
Proof.
  unfold ParseSemVer, ParseVersion, parseVersion, FindStringSubmatch.
  destruct (findFrom _ (syntax semVerRegex) _) as [res|] eqn:E; [|discriminate].
  apply semVerRegex_from_start in E.
  destruct (semVerRegex_strict_shape _ _ _ E)
    as (M & m & p & preo & buildo & Hs & HM & Hm & Hp & Hpre & Hbuild
        & E1 & E2 & E3 & E4 & E5).
  destruct (versionRegex_reads M (Some m) (Some p) preo buildo)
    as (res' & Hres' & R1 & R3 & R5 & R6 & R8).
  { split; [eapply decimal_numeral; eauto|].
    split; [intros x [= <-]; eapply decimal_numeral; eauto|].
    split; [intros x [= <-]; eapply decimal_numeral; eauto|].
    split; [discriminate|]. split.
    - intros x Hx. destruct (Hpre x Hx) as (_ & Hall & _).
      eapply Forall_impl; [exact Hall|]. apply labelChar_notPlusNewline.
    - intros x Hx. destruct (Hbuild x Hx) as (_ & Hall & _).
      eapply Forall_impl; [exact Hall|].
      intros a Ha. now apply notPlusNewline_anyChar, labelChar_notPlusNewline. }
  rewrite Hs. cbv zeta in Hres'. rewrite Hres'.
  cbv [SubexpNames subexpNames semVerRegex versionRegex map seq length
       Nat.eqb Nat.ltb Nat.leb].
  rewrite E1, E2, E3, E4, E5, R1, R3, R5, R6, R8. cbn [textOf].
  apply parseFields_agree.
Qed.

Lemma ParseSemVer_ParseVersion_witness :
  ParseSemVer "1.2.3-rc.1+b7" = Ok (mkVersion 1 (Some 2) (Some 3) "rc.1" "b7")
  /\ ParseVersion "1.2.3-rc.1+b7" = Ok (mkVersion 1 (Some 2) (Some 3) "rc.1" "b7").
Proof.
  assert (H : ParseSemVer "1.2.3-rc.1+b7"
              = Ok (mkVersion 1 (Some 2) (Some 3) "rc.1" "b7"))
    by (vm_compute; reflexivity).
  split; [exact H|].
  exact (ParseSemVer_ParseVersion _ _ H).
Defined.

(** ** Reading back a rendered constraint *)

Section TrimSpace.

Lemma find_highHead (tokens : list (list ascii)) (a : ascii) (s : list ascii) :
  forallb highHead tokens = true -> strconv.code a < 128 ->
  List.find (fun t => strings.startsWith t (a :: s)) tokens = None.
Proof.
  intros Htok Ha. induction tokens as [|t tokens IH]; [reflexivity|].
  cbn [forallb] in Htok. apply andb_true_iff in Htok as [Ht Htok].
  cbn [List.find]. destruct t as [|b t]; [discriminate|].
  cbn [strings.startsWith highHead] in *.
  rewrite eqb_code; [cbn; auto|]. lia.
Qed.

Lemma spaceWidth_visible (tokens : list (list ascii)) (a : ascii) (s : list ascii) :
  forallb highHead tokens = true -> visible a = true ->
  strings.spaceWidth tokens (a :: s) = 0%nat.
Proof.
  intros Htok Ha. unfold visible in Ha. apply andb_true_iff in Ha as [H1 H2].
  unfold strings.spaceWidth.
  replace (strings.isAsciiSpace a) with false.
  - rewrite find_highHead; [reflexivity|exact Htok|lia].
  - symmetry. unfold strings.isAsciiSpace.
    apply orb_false_iff. split; [apply andb_false_iff; right; lia|lia].
Qed.

Lemma trimLeft_visible (tokens : list (list ascii)) (fuel : nat) (a : ascii)
  (s : list ascii) :
  forallb highHead tokens = true -> visible a = true ->
  strings.trimLeft tokens fuel (a :: s) = a :: s.
Proof.
  intros Htok Ha. destruct fuel; cbn [strings.trimLeft]; [reflexivity|].
  now rewrite spaceWidth_visible.
Qed.

(** A text that begins and ends with a visible character is not trimmed. *)
Lemma TrimSpace_id (x : list ascii) (a b : ascii) :
  visible a = true -> visible b = true ->
  strings.TrimSpace (string_of_list_ascii (a :: x ++ [b]))
  = string_of_list_ascii (a :: x ++ [b]).
Proof.
  intros Ha Hb. unfold strings.TrimSpace.
  rewrite list_ascii_of_string_of_list_ascii.
  rewrite trimLeft_visible by (auto; reflexivity).
  change (a :: x ++ [b])%list with ((a :: x) ++ [b])%list.
  rewrite rev_app_distr. cbn [rev app].
  rewrite trimLeft_visible by (auto; reflexivity).
  change (b :: rev x ++ [a])%list with (rev [b] ++ rev (a :: x))%list.
  now rewrite <- rev_app_distr, rev_involutive.
Qed.

Lemma TrimSpace_leading_blank (s : string) :
  strings.TrimSpace (String " " s) = strings.TrimSpace s.
Proof. reflexivity. Qed.

End TrimSpace.

Section OperatorPrefix.

Variable input : list ascii.

(** The operator in front of a blank is the one that [operatorPattern]
    reads. *)
Lemma matchK_operator (op : Operator) (rest : list ascii) (c : captures)
  (k : cont) (res : captures) :
  In op operators ->
  k (" "%char :: rest) c = Some res ->
  matchK input operatorPattern
    (list_ascii_of_string op ++ " "%char :: rest) c k = Some res.
Proof.
  intros Hop Hk. unfold operators in Hop. cbn [In] in Hop.
  unfold operatorPattern.
  repeat destruct Hop as [<-|Hop]; try contradiction;
    cbn [list_ascii_of_string app EQ NE GT GE LT LE GEPessimistic];
    rewrite ?matchK_Alt, ?matchK_Cat;
    cbn [matchK Chr Ascii.eqb Bool.eqb]; now rewrite Hk.
Qed.

Lemma matchK_Group_operator (op : Operator) (rest : list ascii) (c : captures)
  (k : cont) (res : captures) :
  In op operators ->
  k (" "%char :: rest) (setCapture 1 (list_ascii_of_string op) c) = Some res ->
  matchK input (Opt (Group 1 operatorPattern))
    (list_ascii_of_string op ++ " "%char :: rest) c k = Some res.
Proof.
  intros Hop Hk. rewrite matchK_Opt, matchK_Group.
  rewrite (matchK_operator op rest c _ res Hop); [reflexivity|].
  cbv beta. now rewrite firstn_consumed.
Qed.

End OperatorPrefix.

Lemma digit_visible (a : ascii) : digit a = true -> visible a = true.
Proof.
  unfold digit, strconv.isDigit, visible. intros [? ?]%andb_true_iff.
  apply andb_true_iff. split; lia.
Qed.

Lemma digit_not_space (a : ascii) : digit a = true -> space a = false.
Proof.
  unfold digit, strconv.isDigit, space. intros [? ?]%andb_true_iff.
  assert (E9 : strconv.code (ascii_of_nat 9) = 9) by reflexivity.
  assert (E10 : strconv.code (ascii_of_nat 10) = 10) by reflexivity.
  assert (E12 : strconv.code (ascii_of_nat 12) = 12) by reflexivity.
  assert (E13 : strconv.code (ascii_of_nat 13) = 13) by reflexivity.
  assert (E32 : strconv.code " " = 32) by reflexivity.
  rewrite !eqb_code; [reflexivity|lia..].
Qed.

Section StrictTriple.

Variables (M m p : list ascii) (major minor patch : Z).
Hypothesis HM : decimal M major.
Hypothesis Hm : decimal m minor.
Hypothesis Hp : decimal p patch.
Hypothesis Rmajor : U64.inRange major.
Hypothesis Rminor : U64.inRange minor.
Hypothesis Rpatch : U64.inRange patch.

Lemma ParseSemVer_triple :
  ParseSemVer (string_of_list_ascii (tripleText M m p))
  = Ok (NewVersion major minor patch).
Proof.
  unfold ParseSemVer, parseVersion, FindStringSubmatch, tripleText.
  rewrite list_ascii_of_string_of_list_ascii.
  destruct (semVerRegex_matches_triple M m p _ _ _ HM Hm Hp)
    as (c & -> & E1 & E2 & E3 & E4 & E5).
  cbv [SubexpNames subexpNames semVerRegex map seq length Nat.eqb Nat.ltb Nat.leb].
  rewrite E1, E2, E3, E4, E5.
  apply parseFields_strict_triple; apply ParseUint_decimal;
    auto using inRange_maxVal.
Qed.

Lemma matchK_semVerBody_triple (input : list ascii) (c : captures) (k : cont)
  (res : captures) :
  k [] c = Some res ->
  matchK input semVerBody (tripleText M m p) c k = Some res.
Proof.
  intros Hk. unfold semVerBody, tripleText.
  rewrite matchK_Cat.
  eapply matchK_numericIdent; [exact HM|reflexivity|]. cbv beta.
  rewrite matchK_Cat, matchK_Chr, matchK_Cat.
  eapply matchK_numericIdent; [exact Hm|reflexivity|]. cbv beta.
  rewrite matchK_Cat, matchK_Chr, matchK_Cat.
  rewrite <- (app_nil_r p).
  eapply matchK_numericIdent; [exact Hp|exact I|]. cbv beta.
  rewrite matchK_Cat, matchK_Opt, matchK_Cat.
  rewrite matchK_Chr_fails by exact I.
  rewrite matchK_Opt, matchK_Cat.
  rewrite matchK_Chr_fails by exact I.
  exact Hk.
Qed.

Lemma strictConstraintRegex_reads (op : Operator) :
  In op operators ->
  let input := (list_ascii_of_string op ++ " "%char :: tripleText M m p)%list in
  exists res,
    findFrom input (syntax strictConstraintRegex) input = Some res
    /\ res 1%nat = list_ascii_of_string op /\ res 2%nat = tripleText M m p.
Proof.
  intros Hop input. eexists. split.
  - apply findFrom_first. unfold strictConstraintRegex. cbn [syntax].
    rewrite matchK_Group, matchK_Cat, matchK_Bol by reflexivity.
    rewrite matchK_Cat. unfold input at 2.
    apply matchK_Group_operator; [exact Hop|].
    rewrite matchK_Cat.
    change (" "%char :: tripleText M m p) with ([" "%char] ++ tripleText M m p)%list.
    apply matchK_greedy_run; [repeat constructor| |].
    { destruct HM as (HMd & _ & HMh). unfold tripleText.
      destruct M as [|d M']; [contradiction|]. cbn.
      inversion HMd; subst. now apply digit_not_space. }
    rewrite matchK_Cat, matchK_Opt, matchK_Group.
    erewrite matchK_semVerBody_triple; [reflexivity|].
    cbv beta. reflexivity.
  - unfold setCapture. cbn [Nat.eqb]. split; [reflexivity|].
    rewrite Nat.sub_0_r. apply firstn_all.
Qed.

End StrictTriple.

Lemma In_operators_known (op : Operator) :
  In op operators -> knownOperator op = true /\ op <> "".
Proof.
  intros H. split; [now apply knownOperator_In|].
  unfold operators in H. cbn in H.
  repeat destruct H as [<-|H]; try discriminate. contradiction.
Qed.

Lemma operator_head_visible (op : Operator) :
  In op operators ->
  exists a x, list_ascii_of_string op = a :: x /\ visible a = true.
Proof.
  intros H. unfold operators in H. cbn in H.
  repeat destruct H as [<-|H]; try contradiction; eexists _, _;
    split; reflexivity.
Qed.

Lemma decimal_last_visible (ds : list ascii) (u : Z) :
  decimal ds u -> exists x b, ds = (x ++ [b])%list /\ visible b = true.
Proof.
  intros (Hd & _ & Hh).
  destruct (exists_last (l := ds)) as (x & b & ->).
  { now destruct ds. }
  exists x, b. split; [reflexivity|].
  apply Forall_app in Hd as [_ Hb]. inversion Hb; subst.
  now apply digit_visible.
Qed.

Lemma ParseStrictConstraint_reads_StrictString (op : Operator) (ma mi pa : Z) :
  In op operators ->
  U64.inRange ma -> U64.inRange mi -> U64.inRange pa ->
  let c := NewConstraint op (NewVersion ma mi pa) in
  exists s, Constraint_StrictString c = Done s
            /\ ParseStrictConstraint s = Done c.
Proof.
  intros Hop Hma Hmi Hpa c.
  destruct (FormatUint_decimal _ Hma) as (M & EM & HM).
  destruct (FormatUint_decimal _ Hmi) as (m & Em & Hm).
  destruct (FormatUint_decimal _ Hpa) as (p & Ep & Hp).
  set (text := (list_ascii_of_string op ++ " "%char :: tripleText M m p)%list).
  assert (Es : Constraint_StrictString c = Done (string_of_list_ascii text)).
  { unfold Constraint_StrictString, c, NewConstraint, StrictString, NewVersion,
      Operator_String.
    cbn [version operator major minor patch preRelease buildMetadata
         String.eqb negb].
    rewrite EM, Em, Ep. f_equal. unfold text, tripleText.
    match goal with
    | |- ?l = _ => rewrite <- (string_of_list_ascii_of_string l)
    end.
    f_equal.
    rewrite !list_ascii_of_string_app, !list_ascii_of_string_of_list_ascii.
    cbn [list_ascii_of_string app]. rewrite <- !app_assoc. reflexivity. }
  exists (string_of_list_ascii text). split; [exact Es|].
  destruct (operator_head_visible op Hop) as (a & x & Eop & Ha).
  destruct (decimal_last_visible p pa Hp) as (y & b & Ey & Hb).
  assert (Etrim : strings.TrimSpace (string_of_list_ascii text)
                  = string_of_list_ascii text).
  { unfold text, tripleText. rewrite Eop, Ey. cbn [app].
    replace (x ++ " "%char :: M ++ "."%char :: m ++ "."%char :: y ++ [b])%list
      with ((x ++ " "%char :: M ++ "."%char :: m ++ "."%char :: y) ++ [b])%list.
    - now apply TrimSpace_id.
    - rewrite <- !app_assoc. cbn [app]. rewrite <- !app_assoc. cbn [app].
      now rewrite <- !app_assoc. }
  unfold ParseStrictConstraint, FindStringSubmatch. rewrite Etrim.
  rewrite list_ascii_of_string_of_list_ascii.
  destruct (strictConstraintRegex_reads M m p _ _ _ HM Hm Hp op Hop) as (res & Hres & E1 & E2).
  unfold text. cbv zeta in Hres. rewrite Hres.
  cbv [SubexpNames subexpNames strictConstraintRegex map seq length
       Nat.ltb Nat.leb].
  rewrite strictFields_names, E1, E2, string_of_list_ascii_of_string.
  destruct (In_operators_known op Hop) as [Hk Hne].
  apply String.eqb_neq in Hne. rewrite Hne.
  unfold opEq. rewrite Hne. cbn [orb].
  destruct (String.eqb_spec (string_of_list_ascii (tripleText M m p)) "") as [E|_].
  { apply string_of_list_ascii_empty in E. unfold tripleText in E.
    destruct M; discriminate. }
  rewrite Hk. cbn [negb].
  now rewrite (ParseSemVer_triple M m p ma mi pa HM Hm Hp Hma Hmi Hpa).
Qed.

(** X21.  For each of the seven operators and every
    [NewVersion major minor patch], [StrictString] of the constraint
    succeeds and [ParseStrictConstraint] reads the constraint back from
    it. *)
Theorem ParseStrictConstraint_roundtrip (op : Operator) (ma mi pa : Z) :
  In op operators ->
  U64.inRange ma -> U64.inRange mi -> U64.inRange pa ->
  let c := NewConstraint op (NewVersion ma mi pa) in
  exists s, Constraint_StrictString c = Done s
            /\ ParseStrictConstraint s = Done c.
Proof. exact (ParseStrictConstraint_reads_StrictString op ma mi pa). Qed.

Lemma ParseStrictConstraint_roundtrip_witness :
  In GEPessimistic operators
  /\ U64.inRange 1 /\ U64.inRange 2 /\ U64.inRange 18446744073709551615
  /\ exists s,
       Constraint_StrictString
         (NewConstraint GEPessimistic (NewVersion 1 2 18446744073709551615)) = Done s
       /\ ParseStrictConstraint s
          = Done (NewConstraint GEPessimistic (NewVersion 1 2 18446744073709551615)).
Proof.
  assert (H0 : In GEPessimistic operators) by (cbn; auto 10).
  assert (H1 : U64.inRange 1) by in_range.
  assert (H2 : U64.inRange 2) by in_range.
  assert (H3 : U64.inRange 18446744073709551615) by in_range.
  do 4 (split; [assumption|]).
  exact (ParseStrictConstraint_roundtrip GEPessimistic 1 2 18446744073709551615
           H0 H1 H2 H3).
Defined.

Section VisibleClasses.

Lemma visible_nonSpace (a : ascii) : visible a = true -> nonSpace a = true.
Proof.
  unfold visible, nonSpace, space. intros [? ?]%andb_true_iff.
  assert (E9 : strconv.code (ascii_of_nat 9) = 9) by reflexivity.
  assert (E10 : strconv.code (ascii_of_nat 10) = 10) by reflexivity.
  assert (E12 : strconv.code (ascii_of_nat 12) = 12) by reflexivity.
  assert (E13 : strconv.code (ascii_of_nat 13) = 13) by reflexivity.
  assert (E32 : strconv.code " " = 32) by reflexivity.
  rewrite !eqb_code; [reflexivity|lia..].
Qed.

Lemma labelChar_visible (a : ascii) : labelChar a = true -> visible a = true.
Proof.
  unfold labelChar, visible. intros [? ?]%andb_true_iff.
  apply andb_true_iff. split; lia.
Qed.

Lemma digit_notDigitNewline (a : ascii) : digit a = true -> notDigitNewline a = false.
Proof. unfold notDigitNewline. now intros ->. Qed.

Lemma Forall_visible_marked (mark : ascii) (o : option (list ascii)) :
  visible mark = true ->
  (forall x, o = Some x -> Forall (fun a => visible a = true) x) ->
  Forall (fun a => visible a = true) (marked mark o).
Proof.
  intros Hm Ho. destruct o as [x|]; cbn; [|constructor].
  constructor; [exact Hm|]. now apply Ho.
Qed.

End VisibleClasses.

Lemma matchK_greedy_run_end (input : list ascii) (p : ascii -> bool) (k : cont)
  (res : captures) (ds : list ascii) (c : captures) :
  Forall (fun a => p a = true) ds -> k [] c = Some res ->
  matchK input (Star true (Class p)) ds c k = Some res.
Proof.
  intros Hds Hk. rewrite <- (app_nil_r ds).
  apply matchK_greedy_run; [exact Hds|exact I|exact Hk].
Qed.

Lemma constraintRegex_reads (op : Operator) (M tail : list ascii) :
  In op operators -> numeral M -> stops digit tail ->
  Forall (fun a => nonSpace a = true) tail ->
  let input := (list_ascii_of_string op ++ " "%char :: M ++ tail)%list in
  exists res,
    findFrom input (syntax constraintRegex) input = Some res
    /\ res 1%nat = list_ascii_of_string op /\ res 2%nat = (M ++ tail)%list.
Proof.
  intros Hop [HM HMne] Hstop Htail input. eexists. split.
  - apply findFrom_first. unfold constraintRegex. cbn [syntax].
    rewrite matchK_Group, matchK_Cat, matchK_Bol by reflexivity.
    rewrite matchK_Cat. unfold input at 2.
    apply matchK_Group_operator; [exact Hop|].
    rewrite matchK_Cat.
    change (" "%char :: M ++ tail)%list with ([" "%char] ++ (M ++ tail))%list.
    apply matchK_greedy_run; [repeat constructor| |].
    { destruct M as [|d M']; [contradiction|]. cbn.
      inversion HM; subst. now apply digit_notDigitNewline. }
    rewrite matchK_Cat, matchK_Group, matchK_Cat.
    apply matchK_Plus_run; [exact HM|exact HMne|exact Hstop|].
    apply matchK_greedy_run_end; [exact Htail|].
    cbv beta. reflexivity.
  - unfold setCapture. cbn [Nat.eqb]. split; [reflexivity|].
    cbn [length]. rewrite Nat.sub_0_r. apply firstn_all.
Qed.

Lemma versionText_visible (mo po pre build : option (list ascii)) :
  (forall x, mo = Some x -> numeral x) -> (forall x, po = Some x -> numeral x) ->
  (forall x, pre = Some x -> Forall (fun a => labelChar a = true) x) ->
  (forall x, build = Some x -> Forall (fun a => labelChar a = true) x) ->
  Forall (fun a => visible a = true)
    (marked "." mo ++ marked "." po ++ marked "-" pre ++ marked "+" build)
  /\ stops digit (marked "." mo ++ marked "." po ++ marked "-" pre ++ marked "+" build).
Proof.
  intros Hmo Hpo Hpre Hbuild. split.
  - apply Forall_app. split; [|apply Forall_app; split; [|apply Forall_app; split]].
    + apply Forall_visible_marked; [reflexivity|].
      intros x Hx. eapply Forall_impl; [exact (proj1 (Hmo x Hx))|].
      apply digit_visible.
    + apply Forall_visible_marked; [reflexivity|].
      intros x Hx. eapply Forall_impl; [exact (proj1 (Hpo x Hx))|].
      apply digit_visible.
    + apply Forall_visible_marked; [reflexivity|].
      intros x Hx. eapply Forall_impl; [exact (Hpre x Hx)|].
      apply labelChar_visible.
    + apply Forall_visible_marked; [reflexivity|].
      intros x Hx. eapply Forall_impl; [exact (Hbuild x Hx)|].
      apply labelChar_visible.
  - clear. by_marks.
Qed.

Lemma ParseConstraint_reads_String (c : Constraint) :
  printable c -> ParseConstraint (Constraint_String c) = Done c.
Proof.
  intros (Hop & Hwf & Hrange & Hpre & Hbuild).
  destruct c as [op v]. cbn [operator version] in *.
  pose proof Hrange as (Hma & Hmi & Hpa). unfold Major in Hma.
  destruct (FormatUint_numeral _ Hma) as [HM _].
  assert (Htext : list_ascii_of_string (Version_String v)
                  = (list_ascii_of_string (strconv.FormatUint (major v))
                     ++ (marked "." (numeralOf (minor v))
                         ++ marked "." (numeralOf (patch v))
                         ++ marked "-" (labelText (preRelease v))
                         ++ marked "+" (labelText (buildMetadata v))))%list).
  { now rewrite (Version_String_text v Hwf). }
  remember (list_ascii_of_string (strconv.FormatUint (major v))) as M eqn:EM.
  remember (marked "." (numeralOf (minor v)) ++ marked "." (numeralOf (patch v))
            ++ marked "-" (labelText (preRelease v))
            ++ marked "+" (labelText (buildMetadata v)))%list as tail eqn:Etail.
  assert (Htail : Forall (fun a => visible a = true) tail /\ stops digit tail).
  { rewrite Etail. apply versionText_visible.
    - intros x Hx. unfold Minor in Hmi.
      destruct (minor v); cbn [numeralOf] in Hx; [|discriminate].
      injection Hx as <-. now apply FormatUint_numeral.
    - intros x Hx. unfold Patch in Hpa.
      destruct (patch v); cbn [numeralOf] in Hx; [|discriminate].
      injection Hx as <-. now apply FormatUint_numeral.
    - intros x Hx. unfold labelText in Hx.
      destruct (_ =? _)%string; [discriminate|]. now injection Hx as <-.
    - intros x Hx. unfold labelText in Hx.
      destruct (_ =? _)%string; [discriminate|]. now injection Hx as <-. }
  destruct Htail as [Hvis Hstop].
  set (text := (list_ascii_of_string op ++ " "%char :: M ++ tail)%list).
  assert (Es : Constraint_String (mkConstraint op v) = string_of_list_ascii text).
  { unfold Constraint_String. cbn [operator version].
    match goal with
    | |- ?l = _ => rewrite <- (string_of_list_ascii_of_string l)
    end.
    f_equal. rewrite !list_ascii_of_string_app, Htext. reflexivity. }
  rewrite Es.
  destruct (operator_head_visible op Hop) as (a & x & Eop & Ha).
  assert (Hlast : exists y b, (M ++ tail)%list = (y ++ [b])%list /\ visible b = true).
  { destruct (exists_last (l := (M ++ tail)%list)) as (y & b & E).
    { destruct HM as [_ HMne]. intros E. clear EM.
      destruct M; [now apply HMne|discriminate E]. }
    exists y, b. split; [exact E|].
    assert (Hall : Forall (fun a => visible a = true) (M ++ tail)).
    { apply Forall_app. split; [|exact Hvis].
      eapply Forall_impl; [exact (proj1 HM)|]. apply digit_visible. }
    rewrite E in Hall. apply Forall_app in Hall as [_ Hb]. now inversion Hb. }
  destruct Hlast as (y & b & Ey & Hb).
  assert (Etrim : strings.TrimSpace (string_of_list_ascii text)
                  = string_of_list_ascii text).
  { unfold text. rewrite Eop, Ey. cbn [app].
    replace (x ++ " "%char :: y ++ [b])%list
      with ((x ++ " "%char :: y) ++ [b])%list
      by (now rewrite <- app_assoc).
    now apply TrimSpace_id. }
  unfold ParseConstraint, FindStringSubmatch. rewrite Etrim.
  rewrite list_ascii_of_string_of_list_ascii.
  destruct (constraintRegex_reads op M tail Hop HM Hstop) as (res & Hres & E1 & E2).
  { eapply Forall_impl; [exact Hvis|]. apply visible_nonSpace. }
  unfold text. cbv zeta in Hres. rewrite Hres.
  cbv [SubexpNames subexpNames constraintRegex map seq length Nat.eqb negb nth].
  rewrite E1, E2, string_of_list_ascii_of_string.
  destruct (In_operators_known op Hop) as [Hk Hne].
  apply String.eqb_neq in Hne. unfold opEq. rewrite Hne, Hk. cbn [negb].
  rewrite <- Htext, string_of_list_ascii_of_string.
  rewrite ParseVersion_reads_String; [reflexivity|exact Hwf|exact Hrange|].
  split.
  - eapply Forall_impl; [exact Hpre|]. apply labelChar_notPlusNewline.
  - eapply Forall_impl; [exact Hbuild|].
    intros a0 Ha0. now apply notPlusNewline_anyChar, labelChar_notPlusNewline.
Qed.

(** X22.  [ParseConstraint] reads back what [String] writes, for a
    constraint with one of the seven operators and a version with [uint64]
    numbers, a minor component whenever it has a patch component, and
    labels made of characters between [-] and [z]; [MustParseConstraint]
    on the rendering does not panic. *)
Theorem ParseConstraint_String_roundtrip (c : Constraint) :
  printable c ->
  ParseConstraint (Constraint_String c) = Done c
  /\ MustParseConstraint (Constraint_String c) = Some c.
Proof.
  intros Hc. unfold MustParseConstraint.
  rewrite (ParseConstraint_reads_String c Hc). split; reflexivity.
Qed.

Lemma ParseConstraint_String_roundtrip_witness :
  printable (NewConstraint GE (mkVersion 1 (Some 2) None "rc" "b7"))
  /\ ParseConstraint (Constraint_String
                        (NewConstraint GE (mkVersion 1 (Some 2) None "rc" "b7")))
     = Done (NewConstraint GE (mkVersion 1 (Some 2) None "rc" "b7")).
Proof.
  assert (H : printable (NewConstraint GE (mkVersion 1 (Some 2) None "rc" "b7"))).
  { split; [cbn; auto 10|]. split; [reflexivity|].
    split; [split; [|split]; in_range|]. split; repeat constructor. }
  split; [exact H|].
  exact (proj1 (ParseConstraint_String_roundtrip _ H)).
Defined.

(** ** Reading back a rendered set of constraints *)

Section SplitJoin.

Lemma append_cons (a : ascii) (s t : string) : String a s ++ t = String a (s ++ t).
Proof. reflexivity. Qed.

Lemma append_empty_r (s : string) : s ++ "" = s.
Proof.
  induction s as [|a s IH]; [reflexivity|]. now rewrite append_cons, IH.
Qed.

Lemma append_assoc (s1 s2 s3 : string) : (s1 ++ s2) ++ s3 = s1 ++ (s2 ++ s3).
Proof.
  induction s1 as [|a s1 IH]; [reflexivity|]. now rewrite !append_cons, IH.
Qed.

Lemma noComma_app (s1 s2 : string) : noComma s1 -> noComma s2 -> noComma (s1 ++ s2).
Proof.
  unfold noComma. rewrite list_ascii_of_string_app, Forall_app. tauto.
Qed.

Lemma Split_cons_other (a : ascii) (s : string) :
  a <> ","%char ->
  strings.Split (String a s) ","
  = match strings.Split s "," with
    | piece :: pieces => String a piece :: pieces
    | [] => [String a ""]
    end.
Proof.
  intros Ha. cbn [strings.Split].
  destruct (Ascii.eqb_spec a ","); [contradiction|reflexivity].
Qed.

Lemma Split_app (p t : string) :
  noComma p ->
  strings.Split (p ++ t) ","
  = match strings.Split t "," with
    | piece :: pieces => (p ++ piece) :: pieces
    | [] => [p]
    end.
Proof.
  unfold noComma. induction p as [|a p IH]; cbn [list_ascii_of_string]; intros H.
  - change ("" ++ t) with t. destruct (strings.Split t ",") eqn:E; [|reflexivity].
    now apply Split_nonempty in E.
  - inversion H; subst. rewrite append_cons, Split_cons_other by assumption.
    rewrite IH by assumption.
    destruct (strings.Split t ","); reflexivity.
Qed.

Lemma Split_noComma (p : string) : noComma p -> strings.Split p "," = [p].
Proof.
  intros H. rewrite <- (append_empty_r p) at 1. rewrite Split_app by assumption.
  cbn. now rewrite append_empty_r.
Qed.

(** Splitting what [Join] wrote with the separator [", "]: the blank stays
    with the piece that follows it. *)
Lemma Split_Join (rest : list string) (p0 pre : string) :
  noComma pre -> noComma p0 -> Forall noComma rest ->
  strings.Split (pre ++ strings.Join (p0 :: rest) ", ") ","
  = (pre ++ p0) :: map (String " ") rest.
Proof.
  revert p0 pre. induction rest as [|p1 rest IH]; intros p0 pre Hpre H0 Hrest.
  - cbn [strings.Join map]. apply Split_noComma. now apply noComma_app.
  - inversion Hrest; subst.
    change (strings.Join (p0 :: p1 :: rest) ", ")
      with (p0 ++ ", " ++ strings.Join (p1 :: rest) ", ").
    rewrite <- append_assoc. rewrite Split_app by (now apply noComma_app).
    change (", " ++ strings.Join (p1 :: rest) ", ")
      with (String "," (" " ++ strings.Join (p1 :: rest) ", ")).
    cbn [strings.Split Ascii.eqb Bool.eqb].
    rewrite IH; [|repeat constructor; discriminate|assumption..].
    cbn [map]. now rewrite append_empty_r.
Qed.

End SplitJoin.

Lemma parseEach_all (parse : string -> outcome Constraint)
  (wrap : string -> constraintError -> constraintError)
  (raws : list string) (cs acc : Constraints) :
  Forall2 (fun raw c => parse raw = Done c) raws cs ->
  parseEach parse wrap raws acc = Done (acc ++ cs)%list.
Proof.
  intros H. revert acc. induction H as [|raw c raws cs Hc _ IH]; intros acc.
  - cbn. now rewrite app_nil_r.
  - cbn [parseEach]. rewrite Hc, IH, <- app_assoc. reflexivity.
Qed.

Lemma ParseConstraint_leading_blank (s : string) :
  ParseConstraint (String " " s) = ParseConstraint s.
Proof. unfold ParseConstraint. now rewrite TrimSpace_leading_blank. Qed.

Lemma ParseStrictConstraint_leading_blank (s : string) :
  ParseStrictConstraint (String " " s) = ParseStrictConstraint s.
Proof. unfold ParseStrictConstraint. now rewrite TrimSpace_leading_blank. Qed.

(** A set that was written with [", "] between its members is read back
    member by member. *)
Lemma parse_joined (parse : string -> outcome Constraint)
  (wrap : string -> constraintError -> constraintError)
  (pieces : list string) (cs : Constraints) :
  (forall s, parse (String " " s) = parse s) ->
  pieces <> [] -> Forall noComma pieces ->
  Forall2 (fun piece c => parse piece = Done c) pieces cs ->
  parseEach parse wrap (strings.Split (strings.Join pieces ", ") ",") [] = Done cs.
Proof.
  intros Hblank Hne Hcomma Hall.
  destruct pieces as [|p0 rest]; [contradiction|].
  inversion Hcomma; subst.
  pose proof (Split_Join rest p0 "" ltac:(constructor) ltac:(assumption)
                ltac:(assumption)) as E.
  change ("" ++ strings.Join (p0 :: rest) ", ") with (strings.Join (p0 :: rest) ", ") in E.
  change ("" ++ p0) with p0 in E. rewrite E.
  rewrite (parseEach_all parse wrap _ cs []); [reflexivity|].
  inversion Hall; subst. constructor; [assumption|].
  match goal with
  | H : Forall2 _ rest _ |- _ => clear -H Hblank; induction H; cbn [map]; constructor
  end; [now rewrite Hblank|assumption].
Qed.

Section NoComma.

Lemma visible_not_comma_digit (a : ascii) : digit a = true -> a <> ","%char.
Proof. intros H ->. discriminate H. Qed.

Lemma labelChar_not_comma (a : ascii) : labelChar a = true -> a <> ","%char.
Proof. intros H ->. discriminate H. Qed.

Lemma marked_Forall (P : ascii -> Prop) (mark : ascii) (o : option (list ascii)) :
  P mark -> (forall x, o = Some x -> Forall P x) -> Forall P (marked mark o).
Proof.
  intros Hm Ho. destruct o as [x|]; cbn; [|constructor].
  constructor; [exact Hm|]. now apply Ho.
Qed.

Lemma FormatUint_noComma (u : Z) :
  U64.inRange u -> Forall (fun a => a <> ","%char)
                     (list_ascii_of_string (strconv.FormatUint u)).
Proof.
  intros Hu. destruct (FormatUint_numeral u Hu) as [[Hd _] _].
  eapply Forall_impl; [exact Hd|]. apply visible_not_comma_digit.
Qed.

Lemma Version_String_noComma (v : Version) :
  wellFormed v = true -> inRangeVersion v -> labelled v ->
  noComma (Version_String v).
Proof.
  intros Hwf (Hma & Hmi & Hpa) [Hpre Hbuild]. unfold noComma.
  rewrite (Version_String_text v Hwf). unfold versionText.
  unfold Major, Minor, Patch in *.
  apply Forall_app. split; [now apply FormatUint_noComma|].
  apply Forall_app. split; [|apply Forall_app; split; [|apply Forall_app; split]].
  - apply marked_Forall; [discriminate|]. intros x Hx.
    destruct (minor v); cbn [numeralOf] in Hx; [|discriminate].
    injection Hx as <-. now apply FormatUint_noComma.
  - apply marked_Forall; [discriminate|]. intros x Hx.
    destruct (patch v); cbn [numeralOf] in Hx; [|discriminate].
    injection Hx as <-. now apply FormatUint_noComma.
  - apply marked_Forall; [discriminate|]. intros x Hx. unfold labelText in Hx.
    destruct (_ =? _)%string; [discriminate|]. injection Hx as <-.
    eapply Forall_impl; [exact Hpre|]. apply labelChar_not_comma.
  - apply marked_Forall; [discriminate|]. intros x Hx. unfold labelText in Hx.
    destruct (_ =? _)%string; [discriminate|]. injection Hx as <-.
    eapply Forall_impl; [exact Hbuild|]. apply labelChar_not_comma.
Qed.

Lemma operator_noComma (op : Operator) : In op operators -> noComma op.
Proof.
  intros H. unfold operators in H. cbn in H.
  repeat destruct H as [<-|H]; try contradiction;
    repeat constructor; discriminate.
Qed.

Lemma Constraint_String_noComma (c : Constraint) :
  printable c -> noComma (Constraint_String c).
Proof.
  intros (Hop & Hwf & Hrange & Hlab). unfold Constraint_String.
  apply noComma_app; [now apply operator_noComma|].
  apply noComma_app; [repeat constructor; discriminate|].
  now apply Version_String_noComma.
Qed.

End NoComma.

(** X23.  [ParseConstraintSet] and [MustParseConstraintSet] read back
    what [String] writes for a set of such constraints that is not empty;
    the rendering of the empty set, the empty text, is refused. *)
Theorem ParseConstraintSet_String_roundtrip (cs : Constraints) :
  Forall printable cs ->
  (cs <> [] ->
   ParseConstraintSet (Constraints_String cs) = Done cs
   /\ MustParseConstraintSet (Constraints_String cs) = Some cs)
  /\ (cs = [] -> exists raw e,
        ParseConstraintSet (Constraints_String cs) = Failed (ErrSetMember raw e)).
Proof.
  intros Hcs. split.
  - intros Hne.
    assert (H : ParseConstraintSet (Constraints_String cs) = Done cs);
      [|unfold MustParseConstraintSet; rewrite H; split; reflexivity].
    unfold ParseConstraintSet, Constraints_String.
    apply parse_joined.
    + apply ParseConstraint_leading_blank.
    + destruct cs; [contradiction|discriminate].
    + clear Hne. induction Hcs as [|c cs Hc _ IH]; [constructor|].
      constructor; [|exact IH]. now apply Constraint_String_noComma.
    + clear Hne. induction Hcs as [|c cs Hc _ IH]; [constructor|].
      constructor; [|exact IH]. now apply ParseConstraint_reads_String.
  - intros ->. eexists _, _. reflexivity.
Qed.

Lemma ParseConstraintSet_String_roundtrip_witness :
  Forall printable [NewConstraint GE (NewVersion 1 0 0);
                    NewConstraint LT (mkVersion 2 None None "rc" "")]
  /\ ParseConstraintSet
       (Constraints_String [NewConstraint GE (NewVersion 1 0 0);
                            NewConstraint LT (mkVersion 2 None None "rc" "")])
     = Done [NewConstraint GE (NewVersion 1 0 0);
             NewConstraint LT (mkVersion 2 None None "rc" "")].
Proof.
  assert (H : Forall printable [NewConstraint GE (NewVersion 1 0 0);
                                NewConstraint LT (mkVersion 2 None None "rc" "")]).
  { constructor; [|constructor; [|constructor]];
      (split; [cbn; auto 10|]; split; [reflexivity|];
       split; [split; [|split]; in_range|]; split; repeat constructor). }
  split; [exact H|].
  exact (proj1 (proj1 (ParseConstraintSet_String_roundtrip _ H)
                  ltac:(discriminate))).
Defined.

Lemma strictStrings_all (cs : Constraints) (pieces acc : list string) :
  Forall2 (fun c piece => Constraint_StrictString c = Done piece) cs pieces ->
  strictStrings cs acc = Done (acc ++ pieces)%list.
Proof.
  intros H. revert acc. induction H as [|c piece cs pieces Hc _ IH]; intros acc.
  - cbn. now rewrite app_nil_r.
  - cbn [strictStrings]. rewrite Hc, IH, <- app_assoc. reflexivity.
Qed.

Lemma onTriple_roundtrip (c : Constraint) :
  onTriple c ->
  exists piece, Constraint_StrictString c = Done piece
                /\ ParseStrictConstraint piece = Done c
                /\ noComma piece.
Proof.
  intros (op & ma & mi & pa & -> & Hop & Hma & Hmi & Hpa).
  destruct (ParseStrictConstraint_reads_StrictString op ma mi pa Hop Hma Hmi Hpa)
    as (piece & Hs & Hp).
  exists piece. split; [exact Hs|]. split; [exact Hp|].
  unfold Constraint_StrictString, NewConstraint, StrictString, NewVersion,
    Operator_String in Hs.
  cbn [version operator major minor patch preRelease buildMetadata
       String.eqb negb] in Hs.
  injection Hs as <-.
  apply noComma_app; [now apply operator_noComma|].
  apply noComma_app; [repeat constructor; discriminate|].
  repeat apply noComma_app; try (now apply FormatUint_noComma);
    repeat constructor; discriminate.
Qed.

(** X24.  For a set, not empty, of constraints on versions
    [NewVersion major minor patch] with one of the seven operators,
    [StrictString] succeeds, and [ParseStrictConstraintSet] and
    [MustParseStrictConstraintSet] read the set back from it. *)
Theorem ParseStrictConstraintSet_roundtrip (cs : Constraints) :
  cs <> [] -> Forall onTriple cs ->
  exists s, Constraints_StrictString cs = Done s
            /\ ParseStrictConstraintSet s = Done cs
            /\ MustParseStrictConstraintSet s = Some cs.
Proof.
  intros Hne Hcs.
  assert (Hpieces : exists pieces,
            Forall2 (fun c piece => Constraint_StrictString c = Done piece) cs pieces
            /\ Forall2 (fun piece c => ParseStrictConstraint piece = Done c) pieces cs
            /\ Forall noComma pieces).
  { clear Hne. induction Hcs as [|c cs Hc _ (pieces & H1 & H2 & H3)].
    - exists []. repeat split; constructor.
    - destruct (onTriple_roundtrip c Hc) as (piece & P1 & P2 & P3).
      exists (piece :: pieces). repeat split; constructor; assumption. }
  destruct Hpieces as (pieces & H1 & H2 & H3).
  exists (strings.Join pieces ", "). split.
  - unfold Constraints_StrictString. now rewrite (strictStrings_all cs pieces []).
  - assert (H : ParseStrictConstraintSet (strings.Join pieces ", ") = Done cs);
      [|unfold MustParseStrictConstraintSet; rewrite H; split; reflexivity].
    unfold ParseStrictConstraintSet.
    apply parse_joined; [apply ParseStrictConstraint_leading_blank| | |]; auto.
    intros ->. inversion H1; subst. contradiction.
Qed.

Lemma ParseStrictConstraintSet_roundtrip_witness :
  [NewConstraint GE (NewVersion 1 0 0); NewConstraint LT (NewVersion 2 0 0)] <> []
  /\ Forall onTriple [NewConstraint GE (NewVersion 1 0 0);
                      NewConstraint LT (NewVersion 2 0 0)]
  /\ exists s,
       Constraints_StrictString [NewConstraint GE (NewVersion 1 0 0);
                                 NewConstraint LT (NewVersion 2 0 0)] = Done s
       /\ ParseStrictConstraintSet s
          = Done [NewConstraint GE (NewVersion 1 0 0);
                  NewConstraint LT (NewVersion 2 0 0)]
       /\ MustParseStrictConstraintSet s
          = Some [NewConstraint GE (NewVersion 1 0 0);
                  NewConstraint LT (NewVersion 2 0 0)].
Proof.
  assert (H1 : [NewConstraint GE (NewVersion 1 0 0); NewConstraint LT (NewVersion 2 0 0)]
               <> []) by discriminate.
  assert (H2 : Forall onTriple [NewConstraint GE (NewVersion 1 0 0);
                                NewConstraint LT (NewVersion 2 0 0)]).
  { constructor; [|constructor; [|constructor]].
    - exists GE, 1, 0, 0. split; [reflexivity|]. split; [cbn; auto 10|].
      split; [|split]; in_range.
    - exists LT, 2, 0, 0. split; [reflexivity|]. split; [cbn; auto 10|].
      split; [|split]; in_range. }
  split; [exact H1|]. split; [exact H2|].
  exact (ParseStrictConstraintSet_roundtrip _ H1 H2).
Defined.

(** ** Rendering a parsed strict version *)

(** The tail of [semVerRegex] accepts a pre-release label that ends the
    text, and leaves the numbers read before it alone. *)
Lemma strictTail_accepts (input x : list ascii) (c3 : captures) (k : cont)
  (f : captures -> captures) :
  matches strictPreRelease x ->
  (forall c, k [] c = Some (f c)) ->
  exists c', matchK input strictTail ("-"%char :: x) c3 k = Some (f c')
    /\ forall j, j <> 4%nat -> j <> 5%nat -> c' j = c3 j.
Proof.
  intros Hx Hk.
  destruct (Hx input [] c3) as (c1 & Hm). rewrite app_nil_r in Hm.
  assert (Hm' : Match input strictTail ("-"%char :: x) c3 []
                  (setCapture 4 (firstn (length x - length (@nil ascii)) x) c1)).
  { unfold strictTail. eapply MCat.
    - apply MAltL. eapply MCat; [now apply MClass|]. apply MGroup. exact Hm.
    - eapply MCat; [apply MAltR, MEmpty|apply MEol]. }
  pose proof (matchK_complete input strictTail _ _ _ _ Hm' k) as Hc.
  destruct (matchK input strictTail ("-"%char :: x) c3 k) as [res|] eqn:E.
  2:{ exfalso. apply (Hc ltac:(intros c'; rewrite Hk; discriminate) c3).
      exact E. }
  apply matchK_sound in E as (s' & c' & Hs & Hres).
  assert (s' = []) as ->.
  { unfold strictTail in Hs. inversion Hs; subst.
    match goal with Ha : Match _ (Cat _ Eol) _ _ _ _ |- _ => inversion Ha; subst end.
    match goal with Ha : Match _ Eol _ _ _ _ |- _ => now inversion Ha end. }
  rewrite Hk in Hres. injection Hres as <-.
  exists c'. split; [reflexivity|].
  intros j H4 H5. apply (Match_frame _ _ _ _ _ _ Hs).
  cbn. intuition lia.
Qed.

Lemma parseFields_strict_reads (m0 M m p pre build : string) (v : Version) :
  m <> "" -> p <> "" ->
  parseFields (SubexpNames semVerRegex) [m0; M; m; p; pre; build] zeroVersion
  = Ok v ->
  exists a b c,
    strconv.ParseUint M = Ok a /\ strconv.ParseUint m = Ok b
    /\ strconv.ParseUint p = Ok c
    /\ v = mkVersion a (Some b) (Some c) pre build.
Proof.
  intros Hm Hp. cbn.
  destruct (strconv.ParseUint M) as [a|]; [|discriminate].
  destruct (String.eqb_spec m ""); [contradiction|].
  destruct (strconv.ParseUint m) as [b|]; [|discriminate].
  destruct (String.eqb_spec p ""); [contradiction|].
  destruct (strconv.ParseUint p) as [c|]; [|discriminate].
  intros [= <-]. exists a, b, c. auto.
Qed.

Lemma parseFields_strict_Ok (m0 M m p pre build : string) (a b c : Z) :
  strconv.ParseUint M = Ok a -> strconv.ParseUint m = Ok b ->
  strconv.ParseUint p = Ok c ->
  exists v,
    parseFields (SubexpNames semVerRegex) [m0; M; m; p; pre; build] zeroVersion
    = Ok v.
Proof.
  intros HM Hm Hp. cbn. rewrite HM.
  destruct (String.eqb_spec m "") as [->|_]; [discriminate Hm|]. rewrite Hm.
  destruct (String.eqb_spec p "") as [->|_]; [discriminate Hp|]. rewrite Hp.
  eauto.
Qed.

(** A strict version cut after its pre-release label is a strict version. *)
Lemma ParseSemVer_without_build (M m p x : list ascii) (a b c : Z) :
  decimal M (valueFrom 0 M) -> decimal m (valueFrom 0 m) ->
  decimal p (valueFrom 0 p) ->
  strconv.ParseUint (string_of_list_ascii M) = Ok a ->
  strconv.ParseUint (string_of_list_ascii m) = Ok b ->
  strconv.ParseUint (string_of_list_ascii p) = Ok c ->
  matches strictPreRelease x ->
  exists v,
    ParseSemVer (string_of_list_ascii
                   (M ++ "."%char :: m ++ "."%char :: p ++ "-"%char :: x))
    = Ok v.
Proof.
  intros HM Hm Hp PM Pm Pp Hx.
  unfold ParseSemVer, parseVersion, FindStringSubmatch.
  rewrite list_ascii_of_string_of_list_ascii.
  set (input := (M ++ "."%char :: m ++ "."%char :: p ++ "-"%char :: x)%list).
  set (c3 := setCapture 3 p (setCapture 2 m (setCapture 1 M noCaptures))).
  set (f := fun c : captures =>
              setCapture 0 (firstn (length input - length (@nil ascii)) input) c).
  destruct (strictTail_accepts input x c3
              (fun s' c' => Some (setCapture 0
                                    (firstn (length input - length s') input) c'))
              f Hx ltac:(reflexivity)) as (c' & Hacc & Hframe).
  assert (E : findFrom input (syntax semVerRegex) input = Some (f c')).
  { apply findFrom_first. rewrite semVerRegex_tail.
    rewrite matchK_Group, matchK_Cat, matchK_Bol by reflexivity.
    rewrite matchK_Cat. unfold input at 2.
    eapply matchK_Group_numericIdent; [exact HM|reflexivity|]. cbv beta.
    rewrite matchK_Cat, matchK_Chr, matchK_Cat.
    eapply matchK_Group_numericIdent; [exact Hm|reflexivity|]. cbv beta.
    rewrite matchK_Cat, matchK_Chr, matchK_Cat.
    eapply matchK_Group_numericIdent; [exact Hp|reflexivity|]. cbv beta.
    exact Hacc. }
  rewrite E.
  cbv [SubexpNames subexpNames semVerRegex map seq length Nat.eqb Nat.ltb Nat.leb].
  unfold f.
  rewrite (setCapture_other 0 1), (setCapture_other 0 2), (setCapture_other 0 3)
    by lia.
  rewrite (Hframe 1%nat), (Hframe 2%nat), (Hframe 3%nat) by lia. unfold c3.
  change (setCapture 3 p (setCapture 2 m (setCapture 1 M noCaptures)) 1%nat) with M.
  change (setCapture 3 p (setCapture 2 m (setCapture 1 M noCaptures)) 2%nat) with m.
  change (setCapture 3 p (setCapture 2 m (setCapture 1 M noCaptures)) 3%nat) with p.
  eapply parseFields_strict_Ok; eauto.
Qed.

Lemma string_of_list_ascii_app (l1 l2 : list ascii) :
  string_of_list_ascii (l1 ++ l2)
  = string_of_list_ascii l1 ++ string_of_list_ascii l2.
Proof.
  induction l1 as [|a l1 IH]; [reflexivity|].
  cbn [app string_of_list_ascii]. now rewrite append_cons, IH.
Qed.

Lemma marked_app (l x : list ascii) (a : ascii) :
  string_of_list_ascii l ++ String a "" ++ string_of_list_ascii x
  = string_of_list_ascii (l ++ a :: x).
Proof. now rewrite string_of_list_ascii_app. Qed.

Lemma nonempty_eqb (x : list ascii) :
  x <> [] -> (string_of_list_ascii x =? "")%string = false.
Proof. destruct x; [contradiction|reflexivity]. Qed.

Ltac same_text :=
  unfold versionText, tripleText; cbn [marked];
  rewrite ?app_nil_r; repeat (rewrite <- ?app_assoc; cbn [app]);
  reflexivity.

(** X25.  A strict version text is reproduced by its parse: if
    [ParseSemVer s] returns v, then [StrictString] of v succeeds with s,
    and [String] of v is s. *)
Theorem ParseSemVer_StrictString (s : string) (v : Version) :
  ParseSemVer s = Ok v -> StrictString v = Ok s /\ Version_String v = s.
Proof.
  intros H0. pose proof H0 as H.
  unfold ParseSemVer, parseVersion, FindStringSubmatch in H.
  destruct (findFrom _ (syntax semVerRegex) _) as [res|] eqn:E; [|discriminate].
  apply semVerRegex_from_start in E.
  destruct (semVerRegex_strict_shape _ _ _ E)
    as (M & m & p & preo & buildo & Hs & HM & Hm & Hp & Hpre & Hbuild
        & E1 & E2 & E3 & E4 & E5).
  cbv [SubexpNames subexpNames semVerRegex map seq length Nat.eqb Nat.ltb Nat.leb]
    in H.
  rewrite E1, E2, E3, E4, E5 in H.
  apply parseFields_strict_reads in H as (a & b & c & PM & Pm & Pp & ->);
    [|eapply numeral_nonempty, decimal_numeral; eauto..].
  pose proof (FormatUint_ParseUint _ _ HM PM) as FM.
  pose proof (FormatUint_ParseUint _ _ Hm Pm) as Fm.
  pose proof (FormatUint_ParseUint _ _ Hp Pp) as Fp.
  assert (Hs' : s = string_of_list_ascii (versionText M (Some m) (Some p) preo buildo)).
  { rewrite <- Hs. symmetry. apply string_of_list_ascii_of_string. }
  clear E E1 E2 E3 E4 E5 Hs.
  assert (Tri : (string_of_list_ascii M ++ "." ++ string_of_list_ascii m)
                ++ "." ++ string_of_list_ascii p
                = string_of_list_ascii (tripleText M m p)).
  { rewrite !marked_app. unfold tripleText. now rewrite <- app_assoc. }
  assert (Hcut : forall x, preo = Some x ->
            exists v', ParseSemVer (string_of_list_ascii
                                      (tripleText M m p ++ "-"%char :: x)) = Ok v').
  { intros x Hx. destruct (Hpre x Hx) as (_ & _ & Hmx).
    destruct (ParseSemVer_without_build M m p x a b c HM Hm Hp PM Pm Pp Hmx)
      as (v' & Hv').
    exists v'. rewrite <- Hv'. f_equal. f_equal. unfold tripleText.
    rewrite <- app_assoc. cbn [app]. rewrite <- app_assoc. reflexivity. }
  unfold StrictString, Version_String.
  cbn [major minor patch preRelease buildMetadata]. cbv zeta.
  rewrite FM, Fm, Fp, Tri.
  destruct preo as [x|]; cbn [textOf].
  - destruct (Hpre x eq_refl) as (Nx & _ & _).
    rewrite (nonempty_eqb x Nx). cbn [negb].
    rewrite marked_app.
    destruct (Hcut x eq_refl) as (v' & ->).
    destruct buildo as [y|]; cbn [textOf].
    + destruct (Hbuild y eq_refl) as (Ny & _ & _).
      rewrite (nonempty_eqb y Ny). cbn [negb].
      rewrite marked_app.
      assert (Es : string_of_list_ascii ((tripleText M m p ++ "-"%char :: x)
                                           ++ "+"%char :: y) = s).
      { rewrite Hs'. f_equal. same_text. }
      rewrite Es, H0. auto.
    + cbn [string_of_list_ascii String.eqb negb].
      assert (Es : string_of_list_ascii (tripleText M m p ++ "-"%char :: x) = s).
      { rewrite Hs'. f_equal. same_text. }
      rewrite Es. auto.
  - cbn [string_of_list_ascii String.eqb negb].
    destruct buildo as [y|]; cbn [textOf].
    + destruct (Hbuild y eq_refl) as (Ny & _ & _).
      rewrite (nonempty_eqb y Ny). cbn [negb].
      rewrite marked_app.
      assert (Es : string_of_list_ascii (tripleText M m p ++ "+"%char :: y) = s).
      { rewrite Hs'. f_equal. same_text. }
      rewrite Es, H0. auto.
    + cbn [string_of_list_ascii String.eqb negb].
      assert (Es : string_of_list_ascii (tripleText M m p) = s).
      { rewrite Hs'. f_equal. same_text. }
      rewrite Es. auto.
Qed.

Lemma ParseSemVer_StrictString_witness :
  ParseSemVer "1.2.3-rc.1+b7" = Ok (mkVersion 1 (Some 2) (Some 3) "rc.1" "b7")
  /\ StrictString (mkVersion 1 (Some 2) (Some 3) "rc.1" "b7") = Ok "1.2.3-rc.1+b7"
  /\ Version_String (mkVersion 1 (Some 2) (Some 3) "rc.1" "b7") = "1.2.3-rc.1+b7".
Proof.
  assert (H : ParseSemVer "1.2.3-rc.1+b7"
              = Ok (mkVersion 1 (Some 2) (Some 3) "rc.1" "b7"))
    by (vm_compute; reflexivity).
  split; [exact H|].
  exact (ParseSemVer_StrictString _ _ H).
Defined.

(** ** [StrictString] on a version without labels *)

Lemma decimal_zero : decimal ["0"%char] 0.
Proof. split; [repeat constructor|]. split; reflexivity. Qed.

(** The numeral that [StrictString] writes for a component. *)
Lemma component_numeral (o : option Z) :
  U64.inRange (match o with Some x => x | None => 0 end) ->
  exists ds,
    decimal ds (match o with Some x => x | None => 0 end)
    /\ forall versionStr : string,
         match o with
         | Some x => versionStr ++ "." ++ strconv.FormatUint x
         | None => versionStr ++ ".0"
         end = versionStr ++ "." ++ string_of_list_ascii ds.
Proof.
  destruct o as [x|]; intros H.
  - destruct (FormatUint_decimal x H) as (ds & E & Hd).
    exists ds. split; [exact Hd|]. intros versionStr. now rewrite E.
  - exists ["0"%char]. split; [exact decimal_zero|]. reflexivity.
Qed.

(** X26.  On a version without pre-release label and build metadata,
    with [uint64] numbers, [StrictString] succeeds and writes 0 for an
    absent minor or patch component; [ParseSemVer] on the result returns
    the version with the same three numbers, all present, which is
    [Equal] to the version rendered. *)
Theorem StrictString_fills_absent_components (v : Version) :
  inRangeVersion v -> preRelease v = "" -> buildMetadata v = "" ->
  exists s,
    StrictString v = Ok s
    /\ ParseSemVer s = Ok (NewVersion (Major v) (Minor v) (Patch v))
    /\ Equal (NewVersion (Major v) (Minor v) (Patch v)) v = true.
Proof.
  intros (Hma & Hmi & Hpa) Hpre Hbuild.
  destruct (FormatUint_decimal _ Hma) as (M & EM & HM).
  destruct (component_numeral (minor v) Hmi) as (m & Hm & Em).
  destruct (component_numeral (patch v) Hpa) as (p & Hp & Ep).
  exists (string_of_list_ascii (tripleText M m p)). split; [|split].
  - unfold StrictString. rewrite Hpre, Hbuild. cbn [String.eqb negb]. cbv zeta.
    rewrite Em, Ep. unfold Major in EM. rewrite EM. f_equal.
    rewrite !marked_app. unfold tripleText. now rewrite <- app_assoc.
  - exact (ParseSemVer_triple M m p _ _ _ HM Hm Hp Hma Hmi Hpa).
  - apply Equal_iff. unfold NewVersion, Major, Minor, Patch. cbn. auto.
Qed.

Lemma StrictString_fills_absent_components_witness :
  inRangeVersion (mkVersion 1 None None "" "")
  /\ exists s,
       StrictString (mkVersion 1 None None "" "") = Ok s
       /\ ParseSemVer s = Ok (NewVersion 1 0 0)
       /\ Equal (NewVersion 1 0 0) (mkVersion 1 None None "" "") = true.
Proof.
  assert (H : inRangeVersion (mkVersion 1 None None "" ""))
    by (split; [|split]; in_range).
  split; [exact H|].
  exact (StrictString_fills_absent_components (mkVersion 1 None None "" "")
           H eq_refl eq_refl).
Defined.

(** ** The examples of the specification and of the test suite *)

(** The parsing examples: ["1"] parses leniently to 1.0.0 without
    labels, ["1.2.3-0123.0123"] to 1.2.3 with the pre-release label
    ["0123.0123"], and the strict parser refuses ["01.1.1"]. *)
Theorem parsing_examples :
  ParseVersion "1" = Ok (mkVersion 1 None None "" "")
  /\ majorMinorPatch (ParseVersion "1") = Some (1, 0, 0)
  /\ ParseVersion "1.2.3-0123.0123" = Ok (NewPreReleaseVersion 1 2 3 "0123.0123")
  /\ ParseSemVer "01.1.1" = Err ErrNoMatch
  /\ ParseSemVer "1.2.3-0123.0123" = Err ErrNoMatch
  /\ ParseVersion "-1.0.3-gamma+b7718" = Ok (mkVersion 1 (Some 0) (Some 3) "gamma" "b7718")
  /\ ParseVersion "9.8.7-whatever+meta+meta"
     = Ok (mkVersion 9 (Some 8) (Some 7) "whatever" "meta+meta")
  /\ ParseVersion "alpha.beta" = Err ErrNoMatch
  /\ ParseVersion "18446744073709551616" = Err (ErrComponent "major" ErrRange)
  /\ ParseSemVer "1.2.3----RC-SNAPSHOT.12.9.1--.12+788"
     = Ok (mkVersion 1 (Some 2) (Some 3) "---RC-SNAPSHOT.12.9.1--.12" "788")
  /\ ParseSemVer "2.0.0" = Ok (NewVersion 2 0 0).
Proof. vm_compute. repeat split. Qed.

(** The increment examples, in strict rendering:
    [IncrementPessimistic] of 1.2.3-alpha.1 is 1.3.0, [Increment] of 1.2 is
    1.3.0, [IncrementMajor] of 1.2.3 is 2.0.0; and those of the tests of
    the other increments. *)
Theorem increment_examples :
  strictStringOf (v ← parsed "1.2.3-alpha.1"; IncrementPessimistic v) = Some "1.3.0"
  /\ strictStringOf (Increment <$> parsed "1.2") = Some "1.3.0"
  /\ strictStringOf (IncrementMajor <$> parsed "1.2.3") = Some "2.0.0"
  /\ strictStringOf (Increment <$> parsed "1") = Some "2.0.0"
  /\ strictStringOf (Increment <$> parsed "2.1-alpha") = Some "2.2.0"
  /\ strictStringOf (IncrementPatch <$> parsed "1") = Some "1.0.1"
  /\ strictStringOf (IncrementMinor <$> parsed "3.4.5") = Some "3.5.0"
  /\ strictStringOf (v ← parsed "2.1"; IncrementPessimistic v) = Some "3.0.0"
  /\ strictStringOf (v ← parsed "1"; IncrementPessimistic v) = Some "2.0.0"
  /\ strictStringOf (parsed "1-alpha+foo") = Some "1.0.0-alpha+foo"
  /\ strictStringOf (parsed "1.0.0-alpha..") = None
  /\ strictStringOf (parsed "1.0.0+_") = None.
Proof. vm_compute. repeat split. Qed.

(** A contradiction renders as
    [constraints '<c1>' and '<c2>' are contradictory], each constraint as
    its operator, a blank and the lenient rendering of its version. *)
Theorem ContradictionErr_message :
  ContradictionErr_Error (NewConstraint ">=" (NewVersion 2 0 0))
                         (NewConstraint "<" (NewVersion 2 0 0))
  = "constraints '>= 2.0.0' and '< 2.0.0' are contradictory"
  /\ Constraint_String (NewConstraint GE (mkVersion 1 (Some 2) None "rc" "b7"))
     = ">= 1.2-rc+b7".
Proof. vm_compute. repeat split. Qed.

(** Cases of [TestLess], [TestCheckSatisfy], [TestCheckOverlap] and
    [TestIsContradictory]. *)
Example test_suite_cases :
  lessParsed "1.2" "2.1" = Some true
  /\ lessParsed "2.1" "2.1.0" = Some false
  /\ lessParsed "2.1-alpha" "2.1" = Some true
  /\ lessParsed "2.1" "2.1-alpha" = Some false
  /\ lessParsed "3.4.5" "3.4" = Some false
  /\ Satisfies (NewVersion 1 2 5) (NewConstraint GEPessimistic (NewVersion 1 2 4))
     = Some true
  /\ Satisfies (NewVersion 1 2 3) (NewConstraint LE (NewVersion 1 2 2)) = Some false
  /\ Overlaps (NewConstraint NE (NewVersion 1 2 3)) (NewConstraint NE (NewVersion 1 2 3))
     = Some true
  /\ Overlaps (NewConstraint GE (NewVersion 1 2 3)) (NewConstraint GE (NewVersion 1 2 3))
     = Some false
  /\ Overlaps (NewConstraint GEPessimistic (NewVersion 1 2 3))
       (NewConstraint GEPessimistic (NewVersion 1 2 4)) = Some false
  /\ Contradicts [NewConstraint "=" (NewVersion 1 2 3);
                  NewConstraint "=" (NewVersion 1 2 3)]
       [[NewConstraint "=" (NewVersion 1 2 3);
         NewConstraint "=" (NewVersion 1 2 3)]] = Some None
  /\ Contradicts [NewConstraint "=" (NewVersion 1 2 3);
                  NewConstraint "~>" (NewVersion 1 2 0)] [] <> Some None
  /\ Contradicts [NewConstraint ">" (NewVersion 1 2 3);
                  NewConstraint "~>" (NewVersion 1 2 3)] [] = Some None
  /\ Contradicts [NewConstraint "<" (NewVersion 1 2 0);
                  NewConstraint "~>" (NewVersion 1 1 0)] [] = Some None
  /\ Contradicts [NewConstraint "<=" (NewVersion 1 2 3);
                  NewConstraint "~>" (NewVersion 1 3 0)] [] <> Some None.
Proof. vm_compute. repeat split; discriminate. Qed.

(** Cases of [TestParseConstraint], [TestParseStrictConstraint],
    [TestParseConstraintSet] and [TestParseStrictConstraintSet], each
    result in strict rendering. *)
Example constraint_parser_cases :
  strictStringOfConstraint (ParseConstraint "1") = Some "= 1.0.0"
  /\ strictStringOfConstraint (ParseConstraint "1.2.3-alpha") = Some "= 1.2.3-alpha"
  /\ strictStringOfConstraint (ParseConstraint "!=1.2") = Some "!= 1.2.0"
  /\ strictStringOfConstraint (ParseConstraint "<=1.2.3-alpha") = Some "<= 1.2.3-alpha"
  /\ strictStringOfConstraint (ParseConstraint "~>1") = Some "~> 1.0.0"
  /\ strictStringOfConstraint (ParseStrictConstraint "1.0.0") = Some "= 1.0.0"
  /\ strictStringOfConstraint (ParseStrictConstraint "< 5.4.3-beta+20230727")
     = Some "< 5.4.3-beta+20230727"
  /\ strictStringOfConstraint (ParseStrictConstraint "? 1.0.0") = None
  /\ strictStringOfConstraint (ParseStrictConstraint "> 2.a.b") = None
  /\ strictStringOfConstraint (ParseStrictConstraint "   < 2.0.0") = Some "< 2.0.0"
  /\ strictStringOfConstraint (ParseStrictConstraint "  <=   4.0.0") = Some "<= 4.0.0"
  /\ strictStringOfSet (ParseConstraintSet ">=1.0.0, !=2.0.1-alpha, <1.2.3, >1, <=1.2")
     = Some ">= 1.0.0, != 2.0.1-alpha, < 1.2.3, > 1.0.0, <= 1.2.0"
  /\ strictStringOfSet (ParseConstraintSet "abc") = None
  /\ strictStringOfSet (ParseStrictConstraintSet ">= 2.0.0, < 3.0.0")
     = Some ">= 2.0.0, < 3.0.0"
  /\ strictStringOfSet (ParseStrictConstraintSet ">= 2.0.0, != 2.0.x") = None
  /\ strings.TrimSpace "  a b  " = "a b"
  /\ strings.Split "a,b,,c," "," = ["a"; "b"; ""; "c"; ""]
  /\ strings.Join ["a"; "b"] ", " = "a, b".
Proof. vm_compute. repeat split. Qed.
